(** * eventsource: the publishing hub of server.go

    A shallow embedding of [Server] and of the goroutine [Server.run] that
    owns the subscriber sets, together with the parts of the Go runtime the
    code relies on: channels with a buffer, a capacity and a closed flag;
    [close], blocking and non-blocking sends, and the run-time panics they
    raise. *)

From stdpp Require Import gmap strings list fin_maps.

Open Scope Z_scope.

(** ** Go channels *)

Module Go.

(** A run-time panic of the Go runtime. *)
Inductive panic :=
| CloseOfClosedChannel
| SendOnClosedChannel
| MakechanSizeOutOfRange
| NilPointerDereference.

Record chan (A : Type) := Chan {
  buf : list A;
  cap : Z;
  closed : bool;
}.
Arguments Chan {A} _ _ _.
Arguments buf {A} _.
Arguments cap {A} _.
Arguments closed {A} _.

(** The largest buffer [make] accepts.  The runtime's [makechan] panics when
    the buffer would exceed [maxAlloc - hchanSize] bytes.  The bound depends
    on the platform and on the version of the runtime; this is the one of a
    64-bit platform where [maxAlloc] is [2^48] and the channel header takes
    96 bytes, for the elements of the queues made in server.go (an interface
    value, a string: 16 bytes each).  Nothing below depends on its value. *)
Definition max_chan_size : Z := (2 ^ 48 - 96) / 16.

(** [make(chan A, n)]: a size that is negative or too large panics with
    "makechan: size out of range".  That the machine has the memory for the
    buffer is assumed. *)
Definition make (A : Type) (n : Z) : panic + chan A :=
  if (n <? 0) || (max_chan_size <? n) then inl MakechanSizeOutOfRange
  else inr (Chan [] n false).

(** [close(c)]; closing a closed channel panics. *)
Definition close {A} (c : chan A) : panic + chan A :=
  if closed c then inl CloseOfClosedChannel
  else inr (Chan (buf c) (cap c) true).

Definition full {A} (c : chan A) : bool :=
  cap c <=? Z.of_nat (length (buf c)).

Inductive sent (A : Type) :=
| Sent (c : chan A)
| NotReady
| SendPanic (p : panic).
Arguments Sent {A} c.
Arguments NotReady {A}.
Arguments SendPanic {A} p.

(** One attempt at [c <- x] with no receiver parked on [c]: it panics on a
    closed channel, takes a free buffer slot when there is one, and is
    otherwise not ready.  A plain send statement then waits; a [select]
    with a [default] case takes the default.  On a channel with a buffer
    ([0 < cap c]) a receiver is parked only while the buffer is empty, so a
    send that finds one is a send that finds a free slot, and the value it
    hands over is the value the receiver would take from the buffer next.
    On a channel of capacity 0 a send completes only by handing the value to
    a parked receiver: that is modelled for the server's own channels, by
    [deliver] below, and not for the queues of a subscription, so what is
    proved of a send to a subscription's queue that is full or has room is
    stated for queues of capacity at least 1. *)
Definition send {A} (c : chan A) (x : A) : sent A :=
  if closed c then SendPanic SendOnClosedChannel
  else if full c then NotReady
  else Sent (Chan (buf c ++ [x]) (cap c) (closed c)).

(** [x, ok := <-c] when it does not wait: the oldest buffered value. *)
Definition recv {A} (c : chan A) : option (A * chan A) :=
  match buf c with
  | [] => None
  | x :: l => Some (x, Chan l (cap c) (closed c))
  end.

End Go.

(** ** Values carried by the hub *)

(** Modelled from the spec: the [Event] interface is declared outside
    server.go; an event is an immutable value exposing an identifier, a type
    name and a payload string (the methods [Id], [Event], [Data] that the
    example's [TimeEvent] implements). *)
Record Event := {
  Id : string;
  EventName : string;
  Data : string;
}.

(** Modelled from the spec: the [Repository] interface is declared outside
    server.go; [Replay(channel, lastEventId)] yields a finite ordered sequence
    of events. *)
Record Repository := {
  Replay : string → string → list Event;
}.

(** A [*subscription]: subscriptions are shared by pointer between the
    handler, the hub and the replay goroutine. *)
Definition sub_ptr := nat.

Record subscription := {
  channel : string;
  lastEventId : string;
  out : Go.chan Event;
  cout : Go.chan string;
}.

(** The messages of the hub's channels.  A field whose Go name is already
    taken by [subscription] carries a prefix: [reg_channel] is
    [registration.channel], [cmt_channels] is [outComment.channels]. *)
Record outbound := {
  channels : list string;
  event : Event;
}.

Record registration := {
  reg_channel : string;
  repository : Repository;
}.

Record outComment := {
  cmt_channels : list string;
  comment : string;
}.

Record Server := {
  AllowCORS : bool;
  ReplayAll : bool;
  BufferSize : Z;
  registrations : Go.chan registration;
  pub : Go.chan outbound;
  subs : Go.chan sub_ptr;
  comments : Go.chan outComment;
  unregister : Go.chan sub_ptr;
  quit : Go.chan bool;
  kill : Go.chan string;
  deadChannels : gmap string bool;
  dead : bool;
}.

(** The local variables of [Server.run]. *)
Module run.
Record locals := {
  subs : gmap string (gset sub_ptr);
  repos : gmap string Repository;
}.
End run.

(** A goroutine started by [go replay(repo, sub)]: the events
    [repo.Replay(sub.channel, sub.lastEventId)] still has to yield. *)
Record replay_task := {
  target : sub_ptr;
  pending : list Event;
}.

(** The whole program state: the heap of subscriptions, the server value,
    the goroutine [srv.run()] (its locals, and whether it has returned) and
    the replay goroutines. *)
Record world := {
  heap : gmap sub_ptr subscription;
  srv : Server;
  locals : run.locals;
  running : bool;
  replays : list replay_task;
}.

(** ** A state and error monad for goroutine code *)

Inductive outcome (A : Type) :=
| Done (a : A) (w : world)
| Blocked (w : world)
| Panicked (p : Go.panic).
Arguments Done {A} a w.
Arguments Blocked {A} w.
Arguments Panicked {A} p.

Definition M (A : Type) := world → outcome A.

#[global] Instance M_ret : MRet M := λ A a w, Done a w.

#[global] Instance M_bind : MBind M := λ A B f m w,
  match m w with
  | Done a w' => f a w'
  | Blocked w' => Blocked w'
  | Panicked p => Panicked p
  end.

Definition panic_with {A} (p : Go.panic) : M A := λ _, Panicked p.
Definition block {A} : M A := λ w, Blocked w.
Definition get : M world := λ w, Done w w.
Definition put (w : world) : M unit := λ _, Done tt w.
Definition modify (f : world → world) : M unit := λ w, Done tt (f w).

Definition lift {A} (r : Go.panic + A) : M A :=
  match r with inl p => panic_with p | inr a => mret a end.

(** [for x := range l { body x }] *)
Fixpoint for_each {A} (l : list A) (body : A → M unit) : M unit :=
  match l with
  | [] => mret tt
  | x :: l' => body x;; for_each l' body
  end.

(** ** State access *)

Definition with_heap (h : gmap sub_ptr subscription) (w : world) : world :=
  {| heap := h; srv := srv w; locals := locals w; running := running w;
     replays := replays w |}.

Definition with_srv (v : Server) (w : world) : world :=
  {| heap := heap w; srv := v; locals := locals w; running := running w;
     replays := replays w |}.

Definition with_locals (l : run.locals) (w : world) : world :=
  {| heap := heap w; srv := srv w; locals := l; running := running w;
     replays := replays w |}.

Definition with_running (b : bool) (w : world) : world :=
  {| heap := heap w; srv := srv w; locals := locals w; running := b;
     replays := replays w |}.

Definition with_replays (l : list replay_task) (w : world) : world :=
  {| heap := heap w; srv := srv w; locals := locals w; running := running w;
     replays := l |}.

Definition with_subs (m : gmap string (gset sub_ptr)) (w : world) : world :=
  with_locals {| run.subs := m; run.repos := run.repos (locals w) |} w.

Definition with_repos (m : gmap string Repository) (w : world) : world :=
  with_locals {| run.subs := run.subs (locals w); run.repos := m |} w.

Definition with_out (c : Go.chan Event) (s : subscription) : subscription :=
  {| channel := channel s; lastEventId := lastEventId s; out := c;
     cout := cout s |}.

Definition with_cout (c : Go.chan string) (s : subscription) : subscription :=
  {| channel := channel s; lastEventId := lastEventId s; out := out s;
     cout := c |}.

Definition with_unregister (c : Go.chan sub_ptr) (v : Server) : Server :=
  {| AllowCORS := AllowCORS v; ReplayAll := ReplayAll v;
     BufferSize := BufferSize v; registrations := registrations v;
     pub := pub v; subs := subs v; comments := comments v; unregister := c;
     quit := quit v; kill := kill v; deadChannels := deadChannels v;
     dead := dead v |}.

Definition with_deadChannels (m : gmap string bool) (v : Server) : Server :=
  {| AllowCORS := AllowCORS v; ReplayAll := ReplayAll v;
     BufferSize := BufferSize v; registrations := registrations v;
     pub := pub v; subs := subs v; comments := comments v;
     unregister := unregister v; quit := quit v; kill := kill v;
     deadChannels := m; dead := dead v |}.

Definition with_options (cors all : bool) (n : Z) (v : Server) : Server :=
  {| AllowCORS := cors; ReplayAll := all; BufferSize := n;
     registrations := registrations v; pub := pub v; subs := subs v;
     comments := comments v; unregister := unregister v; quit := quit v;
     kill := kill v; deadChannels := deadChannels v; dead := dead v |}.

(** [*s] *)
Definition load (s : sub_ptr) : M subscription := λ w,
  match heap w !! s with
  | Some sub => Done sub w
  | None => Panicked Go.NilPointerDereference
  end.

(** [*s = sub] *)
Definition store (s : sub_ptr) (sub : subscription) : M unit :=
  modify (λ w, with_heap (<[s := sub]> (heap w)) w).

(** [subs[c]] read as a set: a missing key yields the nil map, which ranges
    over nothing. *)
Definition subscribers (c : string) (w : world) : gset sub_ptr :=
  default ∅ (run.subs (locals w) !! c).

(** ** subscription.destroy *)

Definition destroy (s : sub_ptr) : M unit :=
  sub ← load s;
  o ← lift (Go.close (out sub));
  c ← lift (Go.close (cout sub));
  store s (with_cout c (with_out o sub)).

(** ** The goroutine [Server.run], one iteration of its [for]/[select] *)

Inductive message :=
| Registration (reg : registration)
| Unregister (sub : sub_ptr)
| Pub (p : outbound)
| Comment (cmt : outComment)
| Kill (die : string)
| Subs (sub : sub_ptr)
| Quit.

(** [delete(subs[c], s)]: a no-op on the nil map of a missing key. *)
Definition delete_sub (c : string) (s : sub_ptr) : M unit :=
  modify (λ w, with_subs (alter (λ X, X ∖ {[s]}) c (run.subs (locals w))) w).

(** [srv.unregister <- s] executed by [run] itself: [run] is the only
    receiver of that channel, so a full buffer blocks it for good. *)
Definition unregister_from_run (s : sub_ptr) : M unit := λ w,
  match Go.send (unregister (srv w)) s with
  | Go.Sent c => Done tt (with_srv (with_unregister c (srv w)) w)
  | Go.NotReady => Blocked w
  | Go.SendPanic p => Panicked p
  end.

(** [select { case s.out <- ev: default: srv.unregister <- s }] *)
Definition offer_event (ev : Event) (s : sub_ptr) : M unit :=
  sub ← load s;
  match Go.send (out sub) ev with
  | Go.Sent c => store s (with_out c sub)
  | Go.NotReady => unregister_from_run s
  | Go.SendPanic p => panic_with p
  end.

(** [select { case s.cout <- cmt: default: srv.unregister <- s }] *)
Definition offer_comment (cmt : string) (s : sub_ptr) : M unit :=
  sub ← load s;
  match Go.send (cout sub) cmt with
  | Go.Sent c => store s (with_cout c sub)
  | Go.NotReady => unregister_from_run s
  | Go.SendPanic p => panic_with p
  end.

(** [for s := range subs[c] { body s }].  Go leaves the order of a map range
    unspecified; the model ranges in the order of [elements]. *)
Definition range_subs (c : string) (body : sub_ptr → M unit) : M unit := λ w,
  for_each (elements (subscribers c w)) body w.

(** [go replay(repo, sub)] *)
Definition go_replay (repo : Repository) (s : sub_ptr) : M unit :=
  sub ← load s;
  modify (λ w, with_replays
    (replays w ++ [{| target := s;
                      pending := Replay repo (channel sub) (lastEventId sub) |}])
    w).

Definition close_all (v : Server) : Go.panic + Server :=
  match Go.close (registrations v) with inl p => inl p | inr c1 =>
  match Go.close (pub v) with inl p => inl p | inr c2 =>
  match Go.close (comments v) with inl p => inl p | inr c3 =>
  match Go.close (subs v) with inl p => inl p | inr c4 =>
  match Go.close (unregister v) with inl p => inl p | inr c5 =>
  match Go.close (quit v) with inl p => inl p | inr c6 =>
  match Go.close (kill v) with inl p => inl p | inr c7 =>
  inr {| AllowCORS := AllowCORS v; ReplayAll := ReplayAll v;
         BufferSize := BufferSize v; registrations := c1; pub := c2;
         subs := c4; comments := c3; unregister := c5; quit := c6; kill := c7;
         deadChannels := deadChannels v; dead := true |}
  end end end end end end end.

Definition run (m : message) : M unit :=
  match m with
  | Registration reg =>
      modify (λ w, with_repos
        (<[reg_channel reg := repository reg]> (run.repos (locals w))) w)
  | Unregister s =>
      destroy s;;
      sub ← load s;
      delete_sub (channel sub) s
  | Pub p =>
      for_each (channels p) (λ c, range_subs c (offer_event (event p)))
  | Comment cmt =>
      for_each (cmt_channels cmt)
        (λ c, range_subs c (offer_comment (comment cmt)))
  | Kill die =>
      range_subs die (λ s, destroy s;; delete_sub die s);;
      modify (λ w, with_srv
        (with_deadChannels (<[die := true]> (deadChannels (srv w))) (srv w)) w)
  | Subs s =>
      sub ← load s;
      modify (λ w, with_subs
        (<[channel sub := {[s]} ∪ subscribers (channel sub) w]>
           (run.subs (locals w))) w);;
      w ← get;
      if ReplayAll (srv w) || (0 <? Z.of_nat (String.length (lastEventId sub)))
      then match run.repos (locals w) !! channel sub with
           | Some repo => go_replay repo s
           | None => mret tt
           end
      else mret tt
  | Quit =>
      w ← get;
      for_each (map_to_list (run.subs (locals w)))
        (λ cs, for_each (elements cs.2) destroy);;
      w ← get;
      v ← lift (close_all (srv w));
      put (with_running false (with_srv v w))
  end.

(** ** The exported API: senders on the hub's channels *)

(** [srv.ch <- m] on one of the unbuffered channels [run] selects on: the
    send panics when the channel is closed, and otherwise completes by handing
    [m] to [run], which then executes the matching case.  The case is taken
    to be executed at the hand-over: [run] receives nothing else before it
    has ended, and what a handler reads of [srv.dead] and
    [srv.deadChannels] while it executes is what the handler would have read
    before the hand-over or after the end of the case. *)
Definition deliver {A} (ch : Server → Go.chan A) (m : message) : M unit :=
  w ← get;
  if Go.closed (ch (srv w)) then panic_with Go.SendOnClosedChannel
  else if running w then run m else block.

(** [NewServer()], with the goroutine [srv.run()] started. *)
Definition NewServer : world :=
  {| heap := ∅;
     srv := {| AllowCORS := false; ReplayAll := false; BufferSize := 128;
               registrations := Go.Chan [] 0 false;
               pub := Go.Chan [] 0 false;
               subs := Go.Chan [] 0 false;
               comments := Go.Chan [] 0 false;
               unregister := Go.Chan [] 2 false;
               quit := Go.Chan [] 0 false;
               kill := Go.Chan [] 0 false;
               deadChannels := ∅;
               dead := false |};
     locals := {| run.subs := ∅; run.repos := ∅ |};
     running := true;
     replays := [] |}.

(** [srv.quit <- true] *)
Definition Close : M unit := deliver quit Quit.

(** [srv.registrations <- &registration{...}] *)
Definition Register (channel : string) (repo : Repository) : M unit :=
  deliver registrations
    (Registration {| reg_channel := channel; repository := repo |}).

(** [srv.pub <- &outbound{...}] *)
Definition Publish (channels : list string) (ev : Event) : M unit :=
  deliver pub (Pub {| channels := channels; event := ev |}).

(** [srv.comments <- &outComment{...}] *)
Definition PublishComment (channels : list string) (comment : string)
  : M unit :=
  deliver comments (Comment {| cmt_channels := channels; comment := comment |}).

(** [srv.kill <- channel] *)
Definition CloseChannel (channel : string) : M unit :=
  deliver kill (Kill channel).

(** [&subscription{...}] *)
Definition new (sub : subscription) : M sub_ptr :=
  w ← get;
  let s := fresh (dom (heap w)) in
  store s sub;; mret s.

(** What the request made to [srv.Handler(channel)] is answered with. *)
Inductive response :=
| NoLongerAvailable
| HasBeenClosed
| EventStream (s : sub_ptr).

(** [srv.Handler(channel)] serving a request whose Last-Event-ID header is
    [lastEventId], from its first line to [sub := &subscription{...}]
    (server.go:74-99): the handler reads [srv.dead] and [srv.deadChannels]
    in its own goroutine, and creates the subscription when neither is
    set. *)
Definition Handler_create (channel lastEventId : string) : M response :=
  w ← get;
  if dead (srv w) then mret NoLongerAvailable
  else if default false (deadChannels (srv w) !! channel)
  then mret HasBeenClosed
  else
    o ← lift (Go.make Event (BufferSize (srv w)));
    c ← lift (Go.make string (BufferSize (srv w)));
    s ← new {| channel := channel; lastEventId := lastEventId;
               out := o; cout := c |};
    mret (EventStream s).

(** [srv.subs <- sub] (server.go:100): the handler hands the subscription it
    has created to [run].  Whatever [run] has been handed since the handler
    read the flags has been executed by then. *)
Definition Handler_send (s : sub_ptr) : M unit := deliver subs (Subs s).

(** The handler up to the start of its streaming loop when [run] is handed
    nothing between the handler's reads of the flags and its send on
    [srv.subs].  The executions in which it is are those of [HandlerCreate]
    and [HandlerSend] below. *)
Definition Handler (channel lastEventId : string) : M response :=
  r ← Handler_create channel lastEventId;
  match r with
  | EventStream s => Handler_send s;; mret r
  | _ => mret r
  end.

(** The streaming loop of the handler, [case ev, ok := <-sub.out]. *)
Definition receive_event (s : sub_ptr) : M unit :=
  sub ← load s;
  match Go.recv (out sub) with
  | Some (_, c) => store s (with_out c sub)
  | None => if Go.closed (out sub) then mret tt else block
  end.

(** The streaming loop of the handler, [case comment, ok := <-sub.cout]. *)
Definition receive_comment (s : sub_ptr) : M unit :=
  sub ← load s;
  match Go.recv (cout sub) with
  | Some (_, c) => store s (with_cout c sub)
  | None => if Go.closed (cout sub) then mret tt else block
  end.

(** The streaming loop of the handler, [srv.unregister <- sub]: a send on
    the buffered channel, which waits while the buffer is full. *)
Definition handler_unregister (s : sub_ptr) : M unit :=
  w ← get;
  match Go.send (unregister (srv w)) s with
  | Go.Sent c => put (with_srv (with_unregister c (srv w)) w)
  | Go.NotReady => block
  | Go.SendPanic p => panic_with p
  end.

(** [run] selecting [case sub := <-srv.unregister]. *)
Definition run_unregister : M unit :=
  w ← get;
  if running w then
    match Go.recv (unregister (srv w)) with
    | Some (s, c) =>
        put (with_srv (with_unregister c (srv w)) w);;
        run (Unregister s)
    | None => block
    end
  else block.

(** One iteration of the loop of the [i]-th [replay] goroutine,
    [sub.out <- ev]; the goroutine returns when the sequence is exhausted. *)
Definition replay (i : nat) : M unit :=
  w ← get;
  match replays w !! i with
  | None => block
  | Some t =>
      match pending t with
      | [] => mret tt
      | ev :: rest =>
          sub ← load (target t);
          match Go.send (out sub) ev with
          | Go.Sent c =>
              store (target t) (with_out c sub);;
              modify (λ w, with_replays
                (<[i := {| target := target t; pending := rest |}]> (replays w))
                w)
          | Go.NotReady => block
          | Go.SendPanic p => panic_with p
          end
      end
  end.

(** ** Executions *)

Inductive op :=
| SetOptions (allowCORS replayAll : bool) (bufferSize : Z)
| DoRegister (channel : string) (repo : Repository)
| DoRequest (channel lastEventId : string)
| DoPublish (channels : list string) (ev : Event)
| DoPublishComment (channels : list string) (comment : string)
| DoCloseChannel (channel : string)
| DoClose
| HandlerReceive (s : sub_ptr)
| HandlerReceiveComment (s : sub_ptr)
| HandlerUnregister (s : sub_ptr)
| RunUnregister
| ReplayNext (i : nat)
| HandlerCreate (channel lastEventId : string)
| HandlerSend (s : sub_ptr).

(** The handler that created [s] has not sent it on [srv.subs] yet: [s] is
    in no subscriber set and nothing has closed its queues.  (A subscription
    that has been sent is in the set of its channel until [run] removes it,
    and [run] removes a subscription only as it destroys it.) *)
Definition unsent (s : sub_ptr) (sub : subscription) (w : world) : bool :=
  negb (Go.closed (out sub)) && negb (Go.closed (cout sub))
  && bool_decide (s ∉ subscribers (channel sub) w).

Definition step (o : op) : M unit :=
  match o with
  | SetOptions cors all n =>
      modify (λ w, with_srv (with_options cors all n (srv w)) w)
  | DoRegister c r => Register c r
  | DoRequest c l => Handler c l;; mret tt
  | DoPublish cs ev => Publish cs ev
  | DoPublishComment cs cmt => PublishComment cs cmt
  | DoCloseChannel c => CloseChannel c
  | DoClose => Close
  | HandlerReceive s => receive_event s
  | HandlerReceiveComment s => receive_comment s
  | HandlerUnregister s => handler_unregister s
  | RunUnregister => run_unregister
  | ReplayNext i => replay i
  | HandlerCreate c l => Handler_create c l;; mret tt
  | HandlerSend s =>
      sub ← load s;
      w ← get;
      if unsent s sub w then Handler_send s else block
  end.

Definition exec (ops : list op) : M unit := for_each ops step.

(** The states a program can be in: those obtained from a new server by
    operations that completed.  [DoRequest] is a request whose handler is
    not overtaken between its check and its send; [HandlerCreate] followed,
    after any other operations, by [HandlerSend] is a request whose handler
    is. *)
Inductive reachable : world → Prop :=
| reachable_new : reachable NewServer
| reachable_step w o w' :
    reachable w → step o w = Done tt w' → reachable w'.

(** ** Observations *)

(** Both queues of the subscription are open. *)
Definition is_open (s : sub_ptr) (w : world) : Prop :=
  ∃ sub, heap w !! s = Some sub
         ∧ Go.closed (out sub) = false ∧ Go.closed (cout sub) = false.

(** Both queues of the subscription are closed. *)
Definition destroyed (s : sub_ptr) (w : world) : Prop :=
  ∃ sub, heap w !! s = Some sub
         ∧ Go.closed (out sub) = true ∧ Go.closed (cout sub) = true.

(** [srv.deadChannels[c]]: a missing key reads as false. *)
Definition channel_dead (c : string) (w : world) : bool :=
  default false (deadChannels (srv w) !! c).

(** An event like the [TimeEvent] of the example. *)
Definition tick (n : string) : Event :=
  {| Id := n; EventName := "Tick"; Data := n |}.

(** ** Vocabulary of the proofs *)

(** [ends_in o w']: the computation stopped in state [w'], having completed
    or being blocked there. *)
Definition ends_in {A} (o : outcome A) (w' : world) : Prop :=
  o = Blocked w' ∨ ∃ a, o = Done a w'.

(** Every state the computation can stop in is related to the initial
    one. *)
Definition respects (R : relation world) {A} (m : M A) : Prop :=
  ∀ w w', ends_in (m w) w' → R w w'.

(** Of a subscription: its channel and whether its queues are closed. *)
Definition shape (sub : subscription) : string * bool * bool :=
  (channel sub, Go.closed (out sub), Go.closed (cout sub)).

(** Of the server: its dead flags and which of its channels are closed. *)
Definition flags (v : Server) : bool * gmap string bool * list bool :=
  (dead v, deadChannels v,
   [Go.closed (registrations v); Go.closed (pub v); Go.closed (subs v);
    Go.closed (comments v); Go.closed (unregister v); Go.closed (quit v);
    Go.closed (kill v)]).

(** The steps that leave the bookkeeping alone: queues are written to and
    read from, options, repositories and replay goroutines change, but the
    subscriber sets, the flags and the shape of every subscription stay. *)
Record evolves (w w' : world) : Prop := {
  ev_running : running w' = running w;
  ev_subs : run.subs (locals w') = run.subs (locals w);
  ev_flags : flags (srv w') = flags (srv w);
  ev_heap : ∀ s, shape <$> heap w' !! s = shape <$> heap w !! s;
}.

(** What holds of every reachable state: run is alive exactly while the hub
    is not marked dead; while it is, the server's channels are open and every
    listed subscriber is on the channel it is listed under with both queues
    open.  (That a dead channel has no subscriber does not hold: [run] admits
    a subscription without reading [srv.deadChannels].) *)
Record inv (w : world) : Prop := {
  inv_run : running w = negb (dead (srv w));
  inv_open : running w = true → (flags (srv w)).2 = replicate 7 false;
  inv_subs : running w = true → ∀ c s,
    s ∈ subscribers c w → shape <$> heap w !! s = Some (c, false, false);
}.

(** The state transformers that the cases of [run] are proved to compute
    ([run_Unregister_eq], [run_Subs_eq], [run_Kill_eq], [Handler_eq]). *)

Definition closed_chan {A} (c : Go.chan A) : Go.chan A :=
  Go.Chan (Go.buf c) (Go.cap c) true.

Definition closed_sub (sub : subscription) : subscription :=
  with_cout (closed_chan (cout sub)) (with_out (closed_chan (out sub)) sub).

(** After [case sub := <-srv.unregister] for an open subscription. *)
Definition unregistered (s : sub_ptr) (sub : subscription) (w : world)
  : world :=
  with_subs (alter (λ X, X ∖ {[s]}) (channel sub) (run.subs (locals w)))
    (with_heap (<[s := closed_sub sub]> (heap w)) w).

(** The replay decision of [case sub := <-srv.subs]. *)
Definition spawn (s : sub_ptr) (sub : subscription) (w : world) : world :=
  if ReplayAll (srv w) || (0 <? Z.of_nat (String.length (lastEventId sub)))
  then match run.repos (locals w) !! channel sub with
       | Some repo =>
           with_replays
             (replays w ++
                [{| target := s;
                    pending := Replay repo (channel sub) (lastEventId sub) |}])
             w
       | None => w
       end
  else w.

(** After [case sub := <-srv.subs]. *)
Definition admitted (s : sub_ptr) (sub : subscription) (w : world) : world :=
  spawn s sub
    (with_subs (<[channel sub := {[s]} ∪ subscribers (channel sub) w]>
                  (run.subs (locals w))) w).

(** After one iteration of the loop of [case die := <-srv.kill]. *)
Definition killed_one (die : string) (w : world) (s : sub_ptr) : world :=
  with_subs (alter (λ X, X ∖ {[s]}) die (run.subs (locals w)))
    (with_heap (alter closed_sub s (heap w)) w).

Definition marked_dead (die : string) (w : world) : world :=
  with_srv (with_deadChannels (<[die := true]> (deadChannels (srv w))) (srv w))
    w.

(** After [case die := <-srv.kill]. *)
Definition closed_channel (die : string) (w : world) : world :=
  marked_dead die (foldl (killed_one die) w (elements (subscribers die w))).

(** The subscription [Handler] creates, and the heap once it is allocated. *)
Definition new_sub (c lid : string) (w : world) : subscription :=
  {| channel := c; lastEventId := lid;
     out := Go.Chan [] (BufferSize (srv w)) false;
     cout := Go.Chan [] (BufferSize (srv w)) false |}.

Definition allocated (c lid : string) (w : world) : world :=
  with_heap (<[fresh (dom (heap w)) := new_sub c lid w]> (heap w)) w.

(** [destroy] and the loops over it touch nothing but the heap. *)
Record heap_only (w w' : world) : Prop := {
  ho_srv : srv w' = srv w;
  ho_locals : locals w' = locals w;
  ho_running : running w' = running w;
  ho_replays : replays w' = replays w;
}.

(** Along a publish that names the channels [cs]: the bookkeeping evolves,
    and a subscription outside the subscriber sets of [cs] is not written
    to. *)
Definition passes_by (cs : list string) (s : sub_ptr) (w w' : world) : Prop :=
  evolves w w'
  ∧ ((∀ c, c ∈ cs → s ∉ subscribers c w) → heap w' !! s = heap w !! s).

(** After one [s.destroy()] of the loops of [case <-srv.quit]. *)
Definition destroyed_one (w : world) (s : sub_ptr) : world :=
  with_heap (alter closed_sub s (heap w)) w.

(** The event queue and the comment queue are written by the same code up to
    the field: a lane names the field and the [select] that offers to it. *)
Record lane (A : Type) := Lane {
  queue : subscription → Go.chan A;
  with_queue : Go.chan A → subscription → subscription;
  offer : A → sub_ptr → M unit;
}.
Arguments Lane {A} _ _ _.
Arguments queue {A} _ _.
Arguments with_queue {A} _ _ _.
Arguments offer {A} _ _ _.

Definition event_lane : lane Event := Lane out with_out offer_event.
Definition comment_lane : lane string := Lane cout with_cout offer_comment.

(** [c] after a send of [x] that found a free slot. *)
Definition enqueued {A} (x : A) (c : Go.chan A) : Go.chan A :=
  Go.Chan (Go.buf c ++ [x]) (Go.cap c) (Go.closed c).

(** The free slots of [srv.unregister]. *)
Definition free_slots (w : world) : Z :=
  Go.cap (unregister (srv w))
  - Z.of_nat (length (Go.buf (unregister (srv w)))).

(** The queue of subscription [s] on the lane has no free slot. *)
Definition is_full {A} (L : lane A) (w : world) (s : sub_ptr) : bool :=
  match heap w !! s with
  | Some sub => Go.full (queue L sub)
  | None => false
  end.

(** After one [select] of a publish loop that did not block. *)
Definition offered {A} (L : lane A) (x : A) (w : world) (s : sub_ptr)
  : world :=
  match heap w !! s with
  | None => w
  | Some sub =>
      if Go.full (queue L sub)
      then with_srv (with_unregister (enqueued s (unregister (srv w))) (srv w))
             w
      else with_heap (<[s := with_queue L (enqueued x (queue L sub)) sub]>
                        (heap w)) w
  end.

(** What the code of a lane has to satisfy: the [select] is the one of
    [run], and the field is a field. *)
Record lane_ok {A} (L : lane A) : Prop := {
  offer_unfold : ∀ x s w,
    offer L x s w =
    match heap w !! s with
    | None => Panicked Go.NilPointerDereference
    | Some sub =>
        match Go.send (queue L sub) x with
        | Go.Sent c => Done tt (with_heap (<[s := with_queue L c sub]> (heap w)) w)
        | Go.NotReady => unregister_from_run s w
        | Go.SendPanic p => Panicked p
        end
    end;
  queue_with_queue : ∀ c sub, queue L (with_queue L c sub) = c;
  lane_shape : ∀ c sub,
    Go.closed c = Go.closed (queue L sub) →
    shape (with_queue L c sub) = shape sub;
  lane_open : ∀ sub c,
    shape sub = (c, false, false) → Go.closed (queue L sub) = false;
}.

(** The subscriptions of [l] are allocated with the lane's queue open. *)
Definition lane_open_in {A} (L : lane A) (w : world) (l : list sub_ptr)
  : Prop :=
  ∀ s, s ∈ l →
       ∃ sub, heap w !! s = Some sub ∧ Go.closed (queue L sub) = false.

Definition within_capacity {A} (c : Go.chan A) : Prop :=
  Z.of_nat (length (Go.buf c)) ≤ Go.cap c.

(** No queue holds more than its capacity, and [srv.unregister] is the
    channel of capacity 2 that [NewServer] made. *)
Record bounded (w : world) : Prop := {
  bounded_out : ∀ s sub, heap w !! s = Some sub → within_capacity (out sub);
  bounded_cout : ∀ s sub, heap w !! s = Some sub → within_capacity (cout sub);
  bounded_unregister : within_capacity (unregister (srv w));
  unregister_cap : Go.cap (unregister (srv w)) = 2;
}.

Definition keeps_bounded (w w' : world) : Prop := bounded w → bounded w'.

(** Every subscriber of [c] has a queue with a buffer on the lane: its
    capacity is at least 1. *)
Definition buffered {A} (L : lane A) (c : string) (w : world) : Prop :=
  ∀ s sub, s ∈ subscribers c w → heap w !! s = Some sub →
           0 < Go.cap (queue L sub).

(** The subscribers of [c] whose queue on the lane has no free slot, in the
    order the model ranges over them. *)
Definition full_subscribers {A} (L : lane A) (c : string) (w : world)
  : list sub_ptr :=
  filter (λ s, is_full L w s = true) (elements (subscribers c w)).

(** The state after the fan-out of one value to the subscribers of [c]. *)
Definition fanned_out {A} (L : lane A) (x : A) (c : string) (w : world)
  : world :=
  foldl (offered L x) w (elements (subscribers c w)).

(** Between [w] and [w']: the locals of run, the replay goroutines and the
    flags of the server are the same, every subscription is the same up to
    the contents of one queue ([rest] is all but those contents), and those
    contents ([items]) have only been extended. *)
Record grows {B C} (rest : subscription → B) (items : subscription → list C)
    (w w' : world) : Prop := {
  grows_locals : locals w' = locals w;
  grows_replays : replays w' = replays w;
  grows_flags : flags (srv w') = flags (srv w);
  grows_rest : ∀ s, rest <$> heap w' !! s = rest <$> heap w !! s;
  grows_items : ∀ s sub sub',
    heap w !! s = Some sub → heap w' !! s = Some sub' →
    items sub `prefix_of` items sub';
}.

(** All of a subscription but the contents of its event queue. *)
Definition but_events (sub : subscription)
  : string * string * Go.chan string * bool * Z :=
  (channel sub, lastEventId sub, cout sub, Go.closed (out sub),
   Go.cap (out sub)).

(** All of a subscription but the contents of its comment queue. *)
Definition but_comments (sub : subscription)
  : string * string * Go.chan Event * bool * Z :=
  (channel sub, lastEventId sub, out sub, Go.closed (cout sub),
   Go.cap (cout sub)).

(** ** Concrete hubs and executions *)

(** A hub on which channel "t", with one subscriber, has been closed. *)
Definition closed_t_ops : list op :=
  [DoRequest "t" ""; DoCloseChannel "t"].

Definition closed_t : world :=
  match exec closed_t_ops NewServer with Done _ w => w | _ => NewServer end.

(** BufferSize 1, three handlers on channel "t" that do not drain, and a
    first event that fills their queues. *)
Definition three_full_ops : list op :=
  [SetOptions false false 1;
   DoRequest "t" ""; DoRequest "t" ""; DoRequest "t" "";
   DoPublish ["t"] (tick "A")].

Definition three_full : world :=
  match exec three_full_ops NewServer with Done _ w => w | _ => NewServer end.

(** BufferSize 1 and one handler on "t" that does not drain: the second
    event finds the queue full, so run sends the subscription on
    srv.unregister; the client disconnects, so the handler sends it too; run
    then takes the first of the two. *)
Definition twice_ops : list op :=
  [SetOptions false false 1; DoRequest "t" "";
   DoPublish ["t"] (tick "A"); DoPublish ["t"] (tick "B");
   HandlerUnregister 0%nat; RunUnregister].

Definition unregistered_once : world :=
  match exec twice_ops NewServer with Done _ w => w | _ => NewServer end.

(** A new hub on which Close has been called. *)
Definition shut_down : world :=
  match Close NewServer with Done _ w => w | _ => NewServer end.

(** A repository holding events 6 and 7 after event 5 of "news". *)
Definition news : Repository :=
  {| Replay := λ c lid,
       if bool_decide (c = "news" ∧ lid = "5") then [tick "6"; tick "7"]
       else [] |}.

(** A repository for "news", a request resuming after event 5 whose replay
    goroutine has forwarded the first event when the client disconnects and
    run unregisters the subscription. *)
Definition replay_ops : list op :=
  [DoRegister "news" news; DoRequest "news" "5"; ReplayNext 0%nat;
   HandlerUnregister 0%nat; RunUnregister].

Definition mid_replay : world :=
  match exec replay_ops NewServer with Done _ w => w | _ => NewServer end.

(** One handler streaming channel "t". *)
Definition one_sub : world :=
  match exec [DoRequest "t" ""] NewServer with
  | Done _ w => w
  | _ => NewServer
  end.

(** A hub with the repository [news] registered for "news". *)
Definition with_news : world :=
  match exec [DoRegister "news" news] NewServer with
  | Done _ w => w
  | _ => NewServer
  end.

(** One handler on "a" and one on "b", and the state after an event has been
    published to "a" alone. *)
Definition two_channels : world :=
  match exec [DoRequest "a" ""; DoRequest "b" ""] NewServer with
  | Done _ w => w
  | _ => NewServer
  end.

Definition published_to_a : world :=
  match Publish ["a"] (tick "1") two_channels with
  | Done _ w => w
  | _ => NewServer
  end.

(** A subscription the handler has allocated but that run has not been handed
    yet: there is no subscriber set for its channel. *)
Definition unlisted : world := allocated "t" "" NewServer.

(** BufferSize 1 and one handler on "t" whose event queue holds one event:
    the queue is full. *)
Definition one_full_ops : list op :=
  [SetOptions false false 1; DoRequest "t" ""; DoPublish ["t"] (tick "A")].

Definition one_full : world :=
  match exec one_full_ops NewServer with Done _ w => w | _ => NewServer end.

(** A request resuming after event 5 of "news" has been admitted and its
    replay goroutine has not run yet. *)
Definition replaying_ops : list op :=
  [DoRegister "news" news; DoRequest "news" "5"].

Definition replaying : world :=
  match exec replaying_ops NewServer with Done _ w => w | _ => NewServer end.

(** A request for "t" is being served, and its handler has read the flags
    and created subscription 0, when CloseChannel("t") is called; the handler
    then sends the subscription on srv.subs. *)
Definition overtaken_ops : list op :=
  [HandlerCreate "t" ""; DoCloseChannel "t"; HandlerSend 0%nat].

Definition overtaken : world :=
  match exec overtaken_ops NewServer with Done _ w => w | _ => NewServer end.

(** One handler streams "t" (subscription 0), and the handler of a second
    request for "t" has read the flags and created subscription 1. *)
Definition second_request_ops : list op :=
  [DoRequest "t" ""; HandlerCreate "t" ""].

Definition second_request : world :=
  match exec second_request_ops NewServer with
  | Done _ w => w
  | _ => NewServer
  end.

(** BufferSize 1, and a request resuming after event 5 of "news" whose
    replay goroutine has forwarded event 6 to a handler that does not
    drain. *)
Definition replay_waiting_ops : list op :=
  [SetOptions false false 1; DoRegister "news" news; DoRequest "news" "5";
   ReplayNext 0%nat].

Definition replay_waiting : world :=
  match exec replay_waiting_ops NewServer with
  | Done _ w => w
  | _ => NewServer
  end.

(** ** Reasoning about monadic code *)

Lemma ends_in_Done {A} (a : A) w w' : ends_in (Done a w) w' → w' = w.
Proof. intros [H | [b H]]; congruence. Qed.

Lemma ends_in_Blocked {A} w w' : ends_in (@Blocked A w) w' → w' = w.
Proof. intros [H | [b H]]; congruence. Qed.

Lemma ends_in_Panicked {A} p w' : ¬ ends_in (@Panicked A p) w'.
Proof. intros [H | [b H]]; congruence. Qed.

Lemma bind_Done {A B} (m : M A) (f : A → M B) w a w' :
  m w = Done a w' → (m ≫= f) w = f a w'.
Proof. intros H. unfold mbind, M_bind. by rewrite H. Qed.

Lemma bind_inv_Done {A B} (m : M A) (f : A → M B) w b w'' :
  (m ≫= f) w = Done b w'' →
  ∃ a w', m w = Done a w' ∧ f a w' = Done b w''.
Proof.
  unfold mbind, M_bind. destruct (m w) as [a w' | w' | p]; try discriminate.
  eauto.
Qed.

Lemma bind_ends_in {A B} (m : M A) (f : A → M B) w w'' :
  ends_in ((m ≫= f) w) w'' →
  ends_in (m w) w'' ∨ ∃ a w', m w = Done a w' ∧ ends_in (f a w') w''.
Proof.
  unfold mbind, M_bind. destruct (m w) as [a w' | w' | p]; intros H.
  - right. eauto.
  - left. apply ends_in_Blocked in H. subst. by left.
  - by apply ends_in_Panicked in H.
Qed.

Section respects.
Context (R : relation world) `{!PreOrder R}.

Lemma respects_ret {A} (a : A) : respects R (mret a).
Proof. intros w w' H. apply ends_in_Done in H. by subst. Qed.

Lemma respects_block {A} : respects R (@block A).
Proof. intros w w' H. apply ends_in_Blocked in H. by subst. Qed.

Lemma respects_panic {A} p : respects R (@panic_with A p).
Proof. intros w w' H. by apply ends_in_Panicked in H. Qed.

Lemma respects_lift {A} (r : Go.panic + A) : respects R (lift r).
Proof. destruct r; [apply respects_panic | apply respects_ret]. Qed.

Lemma respects_modify (f : world → world) :
  (∀ w, R w (f w)) → respects R (modify f).
Proof. intros Hf w w' H. apply ends_in_Done in H. subst. apply Hf. Qed.

Lemma respects_bind {A B} (m : M A) (f : A → M B) :
  respects R m → (∀ a, respects R (f a)) → respects R (m ≫= f).
Proof.
  intros Hm Hf w w'' H. apply bind_ends_in in H as [H | (a & w' & H1 & H2)].
  - by apply Hm.
  - trans w'; [apply Hm; right; eauto | by eapply Hf].
Qed.

Lemma respects_load s : respects R (load s).
Proof.
  intros w w' H. unfold load in H. destruct (heap w !! s).
  - apply ends_in_Done in H. by subst.
  - by apply ends_in_Panicked in H.
Qed.

Lemma respects_for_each {A} (l : list A) (body : A → M unit) :
  (∀ x, x ∈ l → respects R (body x)) → respects R (for_each l body).
Proof.
  induction l as [| x l IH]; intros Hb; simpl.
  - apply respects_ret.
  - apply respects_bind.
    + apply Hb. by left.
    + intros _. apply IH. intros y Hy. apply Hb. by right.
Qed.

Lemma respects_range_subs c (body : sub_ptr → M unit) :
  (∀ w s, s ∈ subscribers c w → ∀ w', ends_in (body s w) w' → R w w') →
  (∀ w w', R w w' → subscribers c w' = subscribers c w) →
  respects R (range_subs c body).
Proof.
  intros Hb Hsubs w. unfold range_subs.
  assert (Hl : ∀ s, s ∈ elements (subscribers c w) → s ∈ subscribers c w)
    by (intros s; apply elem_of_elements).
  revert Hl. generalize (elements (subscribers c w)) as l.
  intros l. pose (w0 := w). assert (Hw : R w0 w) by reflexivity.
  change (subscribers c w) with (subscribers c w0).
  clearbody w0. revert w Hw.
  induction l as [| x l IH]; intros w Hw Hl w' H; simpl in H.
  - apply ends_in_Done in H. by subst.
  - apply bind_ends_in in H as [H | (a & w1 & H1 & H2)].
    + eapply Hb; [| done]. rewrite (Hsubs _ _ Hw). apply Hl. by left.
    + assert (R w w1).
      { eapply Hb; [| right; eauto]. rewrite (Hsubs _ _ Hw). apply Hl. by left. }
      trans w1; [done |]. eapply IH; [| | done].
      * by trans w.
      * intros s Hs. apply Hl. by right.
Qed.

End respects.

(** ** What the hub's bookkeeping depends on *)

#[global] Instance evolves_preorder : PreOrder evolves.
Proof.
  split.
  - intros w. by split.
  - intros w1 w2 w3 [] []. split; intros; congruence.
Qed.

Lemma evolves_subscribers c w w' :
  evolves w w' → subscribers c w' = subscribers c w.
Proof. intros []. unfold subscribers. congruence. Qed.

Lemma send_Sent {A} (c c' : Go.chan A) x :
  Go.send c x = Go.Sent c' →
  Go.closed c = false ∧ Go.closed c' = false ∧ Go.cap c' = Go.cap c
  ∧ Go.buf c' = Go.buf c ++ [x] ∧ Go.full c = false.
Proof.
  unfold Go.send. destruct (Go.closed c) eqn:Hc; [discriminate |].
  destruct (Go.full c) eqn:Hf; [discriminate |].
  intros [= <-]. by simpl.
Qed.

Lemma send_NotReady {A} (c : Go.chan A) x :
  Go.send c x = Go.NotReady → Go.closed c = false ∧ Go.full c = true.
Proof.
  unfold Go.send. destruct (Go.closed c); [discriminate |].
  by destruct (Go.full c).
Qed.

Lemma send_SendPanic {A} (c : Go.chan A) x p :
  Go.send c x = Go.SendPanic p →
  Go.closed c = true ∧ p = Go.SendOnClosedChannel.
Proof.
  unfold Go.send. destruct (Go.closed c); [by intros [= <-] |].
  by destruct (Go.full c).
Qed.

Lemma recv_Some {A} (c c' : Go.chan A) x :
  Go.recv c = Some (x, c') →
  Go.closed c' = Go.closed c ∧ Go.cap c' = Go.cap c ∧ Go.buf c = x :: Go.buf c'.
Proof.
  unfold Go.recv. destruct (Go.buf c); [discriminate |].
  by intros [= <- <-].
Qed.

Lemma evolves_store w s sub sub' :
  heap w !! s = Some sub → shape sub' = shape sub →
  evolves w (with_heap (<[s := sub']> (heap w)) w).
Proof.
  intros Hs Hsh. split; try done. intros s'. simpl.
  destruct (decide (s = s')) as [<- | Hne].
  - rewrite lookup_insert_eq, Hs. simpl. by f_equal.
  - by rewrite lookup_insert_ne.
Qed.

Lemma evolves_unregister w c :
  Go.closed c = Go.closed (unregister (srv w)) →
  evolves w (with_srv (with_unregister c (srv w)) w).
Proof. intros Hc. split; try done. unfold flags. simpl. by rewrite Hc. Qed.

Lemma unregister_from_run_evolves s : respects evolves (unregister_from_run s).
Proof.
  intros w w' H. unfold unregister_from_run in H.
  destruct (Go.send _ _) as [c | | p] eqn:Hsend.
  - apply ends_in_Done in H. subst. apply evolves_unregister.
    apply send_Sent in Hsend as (? & ? & _). congruence.
  - apply ends_in_Blocked in H. by subst.
  - by apply ends_in_Panicked in H.
Qed.

Lemma offer_event_evolves ev s : respects evolves (offer_event ev s).
Proof.
  intros w w' H. unfold offer_event in H.
  apply bind_ends_in in H as [H | (sub & w1 & H1 & H2)].
  { by apply (respects_load evolves) in H. }
  unfold load in H1. destruct (heap w !! s) as [sub0 |] eqn:Hs; [| discriminate].
  injection H1 as <- <-.
  destruct (Go.send _ _) as [c | | p] eqn:Hsend.
  - apply ends_in_Done in H2. subst. apply evolves_store with sub0; [done |].
    apply send_Sent in Hsend as (? & ? & _). unfold shape. simpl. congruence.
  - by apply (unregister_from_run_evolves s w w').
  - by apply ends_in_Panicked in H2.
Qed.

Lemma offer_comment_evolves cmt s : respects evolves (offer_comment cmt s).
Proof.
  intros w w' H. unfold offer_comment in H.
  apply bind_ends_in in H as [H | (sub & w1 & H1 & H2)].
  { by apply (respects_load evolves) in H. }
  unfold load in H1. destruct (heap w !! s) as [sub0 |] eqn:Hs; [| discriminate].
  injection H1 as <- <-.
  destruct (Go.send _ _) as [c | | p] eqn:Hsend.
  - apply ends_in_Done in H2. subst. apply evolves_store with sub0; [done |].
    apply send_Sent in Hsend as (? & ? & _). unfold shape. simpl. congruence.
  - by apply (unregister_from_run_evolves s w w').
  - by apply ends_in_Panicked in H2.
Qed.

Lemma range_subs_evolves c body :
  (∀ s, respects evolves (body s)) → respects evolves (range_subs c body).
Proof.
  intros Hb. apply respects_range_subs; [apply _ | |].
  - intros w s _ w'. apply Hb.
  - intros w w'. apply evolves_subscribers.
Qed.

Lemma run_Pub_evolves p : respects evolves (run (Pub p)).
Proof.
  simpl. apply respects_for_each; [apply _ |]. intros c _.
  apply range_subs_evolves, offer_event_evolves.
Qed.

Lemma run_Comment_evolves cmt : respects evolves (run (Comment cmt)).
Proof.
  simpl. apply respects_for_each; [apply _ |]. intros c _.
  apply range_subs_evolves, offer_comment_evolves.
Qed.

(** ** The hub's invariant *)

Lemma evolves_inv w w' : evolves w w' → inv w → inv w'.
Proof.
  intros Hev [H1 H2 H3].
  pose proof (ev_flags _ _ Hev) as Hf. pose proof (ev_running _ _ Hev) as Hr.
  assert (Hd : dead (srv w') = dead (srv w)) by (unfold flags in Hf; congruence).
  split.
  - congruence.
  - intros Hrun. rewrite Hf. apply H2. congruence.
  - intros Hrun c s Hs. rewrite (ev_heap _ _ Hev).
    rewrite (evolves_subscribers _ _ _ Hev) in Hs. apply H3; congruence.
Qed.

Lemma is_open_shape s w :
  is_open s w ↔ ∃ c, shape <$> heap w !! s = Some (c, false, false).
Proof.
  unfold is_open, shape. split.
  - intros (sub & -> & Ho & Hc). exists (channel sub). simpl. congruence.
  - intros (c & H). destruct (heap w !! s) as [sub |]; [| discriminate].
    exists sub. simpl in H. split; [done |]. split; congruence.
Qed.

Lemma inv_is_open w c s :
  inv w → running w = true → s ∈ subscribers c w → is_open s w.
Proof.
  intros Hinv Hrun Hs. apply is_open_shape. exists c. by apply Hinv.
Qed.

Lemma inv_channel w c s sub :
  inv w → running w = true → s ∈ subscribers c w →
  heap w !! s = Some sub → channel sub = c.
Proof.
  intros Hinv Hrun Hs Hsub. pose proof (inv_subs _ Hinv Hrun c s Hs) as H.
  rewrite Hsub in H. simpl in H. unfold shape in H. congruence.
Qed.

(** ** The effect of [destroy] *)

Lemma destroy_eq s w :
  destroy s w =
  match heap w !! s with
  | None => Panicked Go.NilPointerDereference
  | Some sub =>
      if Go.closed (out sub) || Go.closed (cout sub)
      then Panicked Go.CloseOfClosedChannel
      else Done tt (with_heap (<[s := closed_sub sub]> (heap w)) w)
  end.
Proof.
  unfold destroy, load, mbind, M_bind.
  destruct (heap w !! s) as [sub |]; [| done].
  unfold Go.close. destruct (Go.closed (out sub)); [done |].
  destruct (Go.closed (cout sub)); done.
Qed.

Lemma destroy_open s w sub :
  heap w !! s = Some sub →
  Go.closed (out sub) = false → Go.closed (cout sub) = false →
  destroy s w = Done tt (with_heap (<[s := closed_sub sub]> (heap w)) w).
Proof. intros Hs Ho Hc. by rewrite destroy_eq, Hs, Ho, Hc. Qed.

Lemma destroy_closed s w sub :
  heap w !! s = Some sub →
  Go.closed (out sub) = true ∨ Go.closed (cout sub) = true →
  destroy s w = Panicked Go.CloseOfClosedChannel.
Proof.
  intros Hs H. rewrite destroy_eq, Hs.
  destruct H as [-> | ->]; [done | by rewrite orb_true_r].
Qed.

Lemma destroy_Done s w w' :
  destroy s w = Done tt w' →
  ∃ sub, heap w !! s = Some sub
         ∧ Go.closed (out sub) = false ∧ Go.closed (cout sub) = false
         ∧ w' = with_heap (<[s := closed_sub sub]> (heap w)) w.
Proof.
  rewrite destroy_eq. destruct (heap w !! s) as [sub |]; [| discriminate].
  destruct (Go.closed (out sub)) eqn:Ho; [discriminate |].
  destruct (Go.closed (cout sub)) eqn:Hc; [discriminate |].
  intros [= <-]. eauto.
Qed.

(** ** Sends that reach [run] *)

Lemma deliver_eq {A} (ch : Server → Go.chan A) m w :
  deliver ch m w =
  if Go.closed (ch (srv w)) then Panicked Go.SendOnClosedChannel
  else if running w then run m w else Blocked w.
Proof.
  unfold deliver, get, mbind, M_bind.
  destruct (Go.closed (ch (srv w))); [done |]. by destruct (running w).
Qed.

Lemma deliver_closed {A} (ch : Server → Go.chan A) m w :
  Go.closed (ch (srv w)) = true →
  deliver ch m w = Panicked Go.SendOnClosedChannel.
Proof. intros H. by rewrite deliver_eq, H. Qed.

Lemma deliver_Done {A} (ch : Server → Go.chan A) m w w' :
  deliver ch m w = Done tt w' → running w = true ∧ run m w = Done tt w'.
Proof.
  rewrite deliver_eq. destruct (Go.closed (ch (srv w))); [discriminate |].
  by destruct (running w).
Qed.

Lemma deliver_ends_in {A} (ch : Server → Go.chan A) m w w' :
  ends_in (deliver ch m w) w' → w' = w ∨ ends_in (run m w) w'.
Proof.
  rewrite deliver_eq. destruct (Go.closed (ch (srv w))).
  - intros H. by apply ends_in_Panicked in H.
  - destruct (running w); [by right |].
    intros H. apply ends_in_Blocked in H. by left.
Qed.

Lemma inv_flags w :
  inv w → running w = true →
  dead (srv w) = false
  ∧ Go.closed (registrations (srv w)) = false
  ∧ Go.closed (pub (srv w)) = false
  ∧ Go.closed (subs (srv w)) = false
  ∧ Go.closed (comments (srv w)) = false
  ∧ Go.closed (unregister (srv w)) = false
  ∧ Go.closed (quit (srv w)) = false
  ∧ Go.closed (kill (srv w)) = false.
Proof.
  intros Hinv Hrun. pose proof (inv_open _ Hinv Hrun) as H.
  pose proof (inv_run _ Hinv) as Hd. rewrite Hrun in Hd.
  unfold flags in H. simpl in H. injection H as -> -> -> -> -> -> ->.
  by destruct (dead (srv w)).
Qed.

Lemma inv_running w : inv w → dead (srv w) = false → running w = true.
Proof. intros Hinv Hd. rewrite (inv_run _ Hinv), Hd. done. Qed.

Lemma deliver_live {A} (ch : Server → Go.chan A) m w :
  Go.closed (ch (srv w)) = false → running w = true →
  deliver ch m w = run m w.
Proof. intros Hc Hr. by rewrite deliver_eq, Hc, Hr. Qed.

(** ** The cases of [run] as state transformers *)

Lemma run_Unregister_eq s w :
  run (Unregister s) w =
  match heap w !! s with
  | None => Panicked Go.NilPointerDereference
  | Some sub =>
      if Go.closed (out sub) || Go.closed (cout sub)
      then Panicked Go.CloseOfClosedChannel
      else Done tt (unregistered s sub w)
  end.
Proof.
  simpl. unfold mbind, M_bind at 1. rewrite destroy_eq.
  destruct (heap w !! s) as [sub |] eqn:Hs; [| done].
  destruct (Go.closed (out sub) || Go.closed (cout sub)); [done |].
  unfold mbind, M_bind, load. simpl. by rewrite lookup_insert_eq.
Qed.

Lemma run_Subs_eq s sub w :
  heap w !! s = Some sub → run (Subs s) w = Done tt (admitted s sub w).
Proof.
  intros Hs. simpl. unfold mbind, M_bind at 1. unfold load at 1. rewrite Hs.
  unfold admitted, spawn, mbind, M_bind, modify, get. simpl.
  destruct (ReplayAll (srv w) || _); [| done].
  destruct (run.repos (locals w) !! channel sub) as [repo |]; [| done].
  unfold go_replay, mbind, M_bind, load, modify. simpl. by rewrite Hs.
Qed.

Lemma run_Subs_nil s w :
  heap w !! s = None → run (Subs s) w = Panicked Go.NilPointerDereference.
Proof.
  intros Hs. simpl. unfold mbind, M_bind at 1. unfold load at 1. by rewrite Hs.
Qed.

Lemma insert_as_alter {K A} `{Countable K} (f : A → A) (m : gmap K A) i x :
  m !! i = Some x → <[i := f x]> m = alter f i m.
Proof.
  intros Hi. apply map_eq. intros j. destruct (decide (i = j)) as [<- | Hne].
  - by rewrite lookup_insert_eq, lookup_alter_eq, Hi.
  - by rewrite lookup_insert_ne, lookup_alter_ne.
Qed.

Lemma kill_body_open die s w :
  is_open s w →
  (destroy s;; delete_sub die s) w = Done tt (killed_one die w s).
Proof.
  intros (sub & Hs & Ho & Hc). unfold mbind, M_bind.
  rewrite (destroy_open _ _ _ Hs Ho Hc). unfold delete_sub, modify, killed_one.
  simpl. by rewrite (insert_as_alter closed_sub _ _ _ Hs).
Qed.

Lemma killed_one_heap_ne die w s s' :
  s ≠ s' → heap (killed_one die w s) !! s' = heap w !! s'.
Proof. intros Hne. simpl. by rewrite lookup_alter_ne. Qed.

Lemma is_open_killed_ne die w s s' :
  s ≠ s' → is_open s' w → is_open s' (killed_one die w s).
Proof.
  intros Hne (sub & Hs & H). exists sub. by rewrite killed_one_heap_ne.
Qed.

Lemma kill_loop die l w :
  NoDup l → (∀ s, s ∈ l → is_open s w) →
  for_each l (λ s, destroy s;; delete_sub die s) w
  = Done tt (foldl (killed_one die) w l).
Proof.
  revert w. induction l as [| x l IH]; intros w Hnd Hopen; [done |].
  apply NoDup_cons in Hnd as [Hx Hnd]. simpl.
  erewrite bind_Done; [| apply kill_body_open, Hopen; by left].
  apply IH; [done |]. intros s Hs. apply is_open_killed_ne.
  - intros ->. done.
  - apply Hopen. by right.
Qed.

Lemma killed_heap_notin die l w s :
  s ∉ l → heap (foldl (killed_one die) w l) !! s = heap w !! s.
Proof.
  revert w. induction l as [| x l IH]; intros w Hs; [done |].
  apply not_elem_of_cons in Hs as [Hne Hs]. cbn [foldl].
  rewrite IH by done. by apply killed_one_heap_ne.
Qed.

Lemma killed_heap_in die l w s :
  s ∈ l → heap (foldl (killed_one die) w l) !! s = closed_sub <$> heap w !! s.
Proof.
  revert w. induction l as [| x l IH]; intros w Hs.
  { by apply elem_of_nil in Hs. }
  cbn [foldl]. destruct (decide (s ∈ l)) as [Hl | Hl].
  - rewrite IH by done. cbn [killed_one with_subs with_locals with_heap heap].
    destruct (decide (x = s)) as [<- | Hne].
    + rewrite lookup_alter_eq. by destruct (heap w !! x).
    + by rewrite lookup_alter_ne.
  - apply elem_of_cons in Hs as [-> | Hs]; [| done].
    rewrite killed_heap_notin by done.
    cbn [killed_one with_subs with_locals with_heap heap].
    by rewrite lookup_alter_eq.
Qed.

Lemma killed_subs_ne die l w c :
  c ≠ die →
  run.subs (locals (foldl (killed_one die) w l)) !! c
  = run.subs (locals w) !! c.
Proof.
  intros Hc. revert w. induction l as [| x l IH]; intros w; [done |].
  cbn [foldl]. rewrite IH. simpl. by rewrite lookup_alter_ne.
Qed.

Lemma killed_subs_eq die l w :
  run.subs (locals (foldl (killed_one die) w l)) !! die
  = (λ X, X ∖ list_to_set l) <$> run.subs (locals w) !! die.
Proof.
  revert w. induction l as [| x l IH]; intros w; cbn [foldl].
  - destruct (run.subs (locals w) !! die) as [X |]; [| done]. simpl.
    by rewrite difference_empty_L.
  - rewrite IH. simpl. rewrite lookup_alter_eq.
    destruct (run.subs (locals w) !! die) as [X |]; [| done]. simpl.
    by rewrite difference_difference_l_L.
Qed.

Lemma killed_rest die l w :
  srv (foldl (killed_one die) w l) = srv w
  ∧ running (foldl (killed_one die) w l) = running w
  ∧ replays (foldl (killed_one die) w l) = replays w
  ∧ run.repos (locals (foldl (killed_one die) w l)) = run.repos (locals w).
Proof.
  revert w. induction l as [| x l IH]; intros w; [done |].
  simpl. destruct (IH (killed_one die w x)) as (-> & -> & -> & ->). done.
Qed.

(** ** Preservation of the invariant *)

Lemma subscribers_unregistered c s sub w :
  subscribers c (unregistered s sub w)
  = if decide (c = channel sub) then subscribers c w ∖ {[s]}
    else subscribers c w.
Proof.
  unfold subscribers, unregistered. simpl. case_decide as Hc.
  - subst c. rewrite lookup_alter_eq.
    destruct (run.subs (locals w) !! channel sub); simpl; [done |].
    apply set_eq. intros y. rewrite elem_of_difference, elem_of_empty.
    tauto.
  - by rewrite lookup_alter_ne.
Qed.

Lemma inv_unregistered s sub w :
  inv w → heap w !! s = Some sub → inv (unregistered s sub w).
Proof.
  intros Hinv Hs. split.
  - apply Hinv.
  - apply Hinv.
  - intros Hrun c s' Hs'. rewrite subscribers_unregistered in Hs'.
    assert (s' ∈ subscribers c w ∧ s' ≠ s) as [Hin Hne].
    { case_decide as Hc.
      - apply elem_of_difference in Hs' as [H1 H2]. split; [done |].
        by rewrite elem_of_singleton in H2.
      - split; [done |]. intros ->.
        apply Hc. symmetry. by eapply inv_channel. }
    change (heap (unregistered s sub w)) with (<[s := closed_sub sub]> (heap w)).
    rewrite lookup_insert_ne by done. by apply Hinv.
Qed.

Lemma subscribers_killed die w c :
  subscribers c (foldl (killed_one die) w (elements (subscribers die w)))
  = if decide (c = die) then ∅ else subscribers c w.
Proof.
  unfold subscribers at 1. case_decide as Hc.
  - subst c. rewrite killed_subs_eq. unfold subscribers.
    destruct (run.subs (locals w) !! die) as [X |]; [| done]. simpl.
    by rewrite list_to_set_elements_L, difference_diag_L.
  - by rewrite killed_subs_ne.
Qed.

Lemma run_Kill_eq die w :
  inv w → running w = true →
  run (Kill die) w = Done tt (closed_channel die w).
Proof.
  intros Hinv Hrun. simpl.
  rewrite (bind_Done _ _ w tt
             (foldl (killed_one die) w (elements (subscribers die w))));
    [done |].
  unfold range_subs. apply kill_loop.
  - apply NoDup_elements.
  - intros s Hs. apply elem_of_elements in Hs. by eapply inv_is_open.
Qed.

Lemma subscribers_closed_channel die w c :
  subscribers c (closed_channel die w)
  = if decide (c = die) then ∅ else subscribers c w.
Proof. apply subscribers_killed. Qed.

Lemma channel_dead_closed_channel die w c :
  channel_dead c (closed_channel die w)
  = if decide (c = die) then true else channel_dead c w.
Proof.
  unfold channel_dead, closed_channel, marked_dead. simpl.
  destruct (killed_rest die (elements (subscribers die w)) w) as (-> & _).
  case_decide as Hc.
  - subst. by rewrite lookup_insert_eq.
  - by rewrite lookup_insert_ne.
Qed.

Lemma inv_closed_channel die w :
  inv w → running w = true → inv (closed_channel die w).
Proof.
  intros Hinv Hrun.
  destruct (killed_rest die (elements (subscribers die w)) w)
    as (Hsrv & Hr & _ & _).
  split.
  - unfold closed_channel, marked_dead. simpl. rewrite Hr, Hsrv. apply Hinv.
  - unfold closed_channel, marked_dead. simpl. rewrite Hr, Hsrv.
    intros H. by apply (inv_open _ Hinv) in H.
  - intros _ c s Hs. rewrite subscribers_closed_channel in Hs.
    case_decide as Hc; [set_solver |].
    change (heap (closed_channel die w))
      with (heap (foldl (killed_one die) w (elements (subscribers die w)))).
    rewrite killed_heap_notin; [by apply Hinv |].
    intros Hin. apply elem_of_elements in Hin.
    pose proof (inv_subs _ Hinv Hrun _ _ Hs) as H1.
    pose proof (inv_subs _ Hinv Hrun _ _ Hin) as H2. congruence.
Qed.

Lemma run_Quit_Done w w' :
  run Quit w = Done tt w' → running w' = false ∧ dead (srv w') = true.
Proof.
  simpl. intros H.
  apply bind_inv_Done in H as (w0 & w1 & H0 & H). injection H0 as <- <-.
  apply bind_inv_Done in H as ([] & w2 & _ & H).
  apply bind_inv_Done in H as (w3 & w4 & H3 & H). injection H3 as <- <-.
  apply bind_inv_Done in H as (v & w5 & H5 & H).
  unfold put in H. injection H as <-.
  unfold lift in H5. destruct (close_all (srv w2)) as [p | v'] eqn:Hc;
    [discriminate |].
  injection H5 as <- <-. split; [done |]. simpl.
  unfold close_all in Hc.
  repeat match type of Hc with
         | match ?x with _ => _ end = _ => destruct x; [discriminate |]
         end.
  by injection Hc as <-.
Qed.

Lemma inv_stopped w :
  running w = false → dead (srv w) = true → inv w.
Proof.
  intros Hr Hd. split; try (intros H; congruence). by rewrite Hr, Hd.
Qed.

Lemma evolves_options cors all n w :
  evolves w (with_srv (with_options cors all n (srv w)) w).
Proof. by split. Qed.

Lemma evolves_repos m w : evolves w (with_repos m w).
Proof. by split. Qed.

Lemma evolves_replays l w : evolves w (with_replays l w).
Proof. by split. Qed.

Lemma receive_event_evolves s : respects evolves (receive_event s).
Proof.
  intros w w' H. unfold receive_event in H.
  apply bind_ends_in in H as [H | (sub & w1 & H1 & H2)].
  { by apply (respects_load evolves) in H. }
  unfold load in H1. destruct (heap w !! s) as [sub0 |] eqn:Hs; [| discriminate].
  injection H1 as <- <-.
  destruct (Go.recv _) as [[x c] |] eqn:Hrecv.
  - apply ends_in_Done in H2. subst. apply evolves_store with sub0; [done |].
    apply recv_Some in Hrecv as (? & _). unfold shape. simpl. congruence.
  - destruct (Go.closed (out sub0)).
    + apply ends_in_Done in H2. by subst.
    + apply ends_in_Blocked in H2. by subst.
Qed.

Lemma receive_comment_evolves s : respects evolves (receive_comment s).
Proof.
  intros w w' H. unfold receive_comment in H.
  apply bind_ends_in in H as [H | (sub & w1 & H1 & H2)].
  { by apply (respects_load evolves) in H. }
  unfold load in H1. destruct (heap w !! s) as [sub0 |] eqn:Hs; [| discriminate].
  injection H1 as <- <-.
  destruct (Go.recv _) as [[x c] |] eqn:Hrecv.
  - apply ends_in_Done in H2. subst. apply evolves_store with sub0; [done |].
    apply recv_Some in Hrecv as (? & _). unfold shape. simpl. congruence.
  - destruct (Go.closed (cout sub0)).
    + apply ends_in_Done in H2. by subst.
    + apply ends_in_Blocked in H2. by subst.
Qed.

Lemma handler_unregister_evolves s : respects evolves (handler_unregister s).
Proof.
  intros w w' H. unfold handler_unregister, mbind, M_bind, get in H.
  destruct (Go.send _ _) as [c | | p] eqn:Hsend.
  - apply ends_in_Done in H. subst. apply evolves_unregister.
    apply send_Sent in Hsend as (? & ? & _). congruence.
  - apply ends_in_Blocked in H. by subst.
  - by apply ends_in_Panicked in H.
Qed.

Lemma replay_evolves i : respects evolves (replay i).
Proof.
  intros w w' H. unfold replay, mbind, M_bind, get in H.
  destruct (replays w !! i) as [t |].
  2: { apply ends_in_Blocked in H. by subst. }
  destruct (pending t) as [| ev rest].
  { apply ends_in_Done in H. by subst. }
  unfold load in H. destruct (heap w !! target t) as [sub |] eqn:Hs.
  2: { by apply ends_in_Panicked in H. }
  destruct (Go.send _ _) as [c | | p] eqn:Hsend.
  - unfold store, modify in H. apply ends_in_Done in H. subst.
    trans (with_heap (<[target t := with_out c sub]> (heap w)) w).
    + apply evolves_store with sub; [done |].
      apply send_Sent in Hsend as (? & ? & _). unfold shape. simpl. congruence.
    + apply evolves_replays.
  - apply ends_in_Blocked in H. by subst.
  - by apply ends_in_Panicked in H.
Qed.

(** ** The handler's admission *)

Lemma new_eq sub w :
  new sub w
  = Done (fresh (dom (heap w)))
      (with_heap (<[fresh (dom (heap w)) := sub]> (heap w)) w).
Proof. done. Qed.

(** [make] refuses the size. *)
Definition out_of_range (n : Z) : bool := (n <? 0) || (Go.max_chan_size <? n).

Lemma out_of_range_false n :
  out_of_range n = false ↔ 0 ≤ n ≤ Go.max_chan_size.
Proof. unfold out_of_range. rewrite orb_false_iff, !Z.ltb_ge. lia. Qed.

Lemma Handler_create_eq c lid w :
  Handler_create c lid w =
  if dead (srv w) then Done NoLongerAvailable w
  else if channel_dead c w then Done HasBeenClosed w
  else if out_of_range (BufferSize (srv w))
  then Panicked Go.MakechanSizeOutOfRange
  else Done (EventStream (fresh (dom (heap w)))) (allocated c lid w).
Proof.
  unfold Handler_create, channel_dead, out_of_range.
  unfold mbind at 1, M_bind at 1, get at 1.
  destruct (dead (srv w)); [done |].
  destruct (default false (deadChannels (srv w) !! c)); [done |].
  unfold Go.make. destruct (_ || _) eqn:Hn; [done |].
  unfold lift. unfold mbind at 1 2, M_bind at 1 2, mret at 1 2, M_ret at 1 2.
  by erewrite bind_Done by apply new_eq.
Qed.

Lemma Handler_send_eq s sub w :
  heap w !! s = Some sub →
  Handler_send s w =
  if Go.closed (subs (srv w)) then Panicked Go.SendOnClosedChannel
  else if running w then Done tt (admitted s sub w) else Blocked w.
Proof.
  intros Hs. unfold Handler_send. rewrite deliver_eq.
  destruct (Go.closed (subs (srv w))); [done |].
  destruct (running w); [| done]. by apply run_Subs_eq.
Qed.

Lemma Handler_eq c lid w :
  Handler c lid w =
  if dead (srv w) then Done NoLongerAvailable w
  else if channel_dead c w then Done HasBeenClosed w
  else if out_of_range (BufferSize (srv w))
  then Panicked Go.MakechanSizeOutOfRange
  else if Go.closed (subs (srv w)) then Panicked Go.SendOnClosedChannel
  else if running w
  then Done (EventStream (fresh (dom (heap w))))
         (admitted (fresh (dom (heap w))) (new_sub c lid w) (allocated c lid w))
  else Blocked (allocated c lid w).
Proof.
  unfold Handler. unfold mbind at 1, M_bind at 1. rewrite Handler_create_eq.
  destruct (dead (srv w)); [done |].
  destruct (channel_dead c w); [done |].
  destruct (out_of_range _); [done |].
  unfold mbind, M_bind.
  rewrite (Handler_send_eq _ (new_sub c lid w))
    by (unfold allocated; simpl; apply lookup_insert_eq).
  change (srv (allocated c lid w)) with (srv w).
  change (running (allocated c lid w)) with (running w).
  destruct (Go.closed (subs (srv w))); [done |].
  by destruct (running w).
Qed.

Lemma spawn_evolves s sub w : evolves w (spawn s sub w).
Proof.
  unfold spawn. destruct (_ || _); [| done].
  destruct (run.repos (locals w) !! channel sub); [| done].
  apply evolves_replays.
Qed.

Lemma subscribers_admitted c' s sub w :
  subscribers c' (admitted s sub w)
  = if decide (c' = channel sub) then {[s]} ∪ subscribers c' w
    else subscribers c' w.
Proof.
  unfold admitted. rewrite (evolves_subscribers _ _ _ (spawn_evolves _ _ _)).
  unfold subscribers. simpl. case_decide as Hc.
  - subst. by rewrite lookup_insert_eq.
  - by rewrite lookup_insert_ne.
Qed.

Lemma heap_admitted s sub w : heap (admitted s sub w) = heap w.
Proof.
  unfold admitted, spawn. destruct (_ || _); [| done]. simpl.
  by destruct (run.repos (locals w) !! channel sub).
Qed.

Lemma srv_admitted s sub w : srv (admitted s sub w) = srv w.
Proof.
  unfold admitted, spawn. destruct (_ || _); [| done]. simpl.
  by destruct (run.repos (locals w) !! channel sub).
Qed.

Lemma running_admitted s sub w : running (admitted s sub w) = running w.
Proof.
  unfold admitted, spawn. destruct (_ || _); [| done]. simpl.
  by destruct (run.repos (locals w) !! channel sub).
Qed.

Lemma fresh_not_allocated w s sub :
  heap w !! s = Some sub → s ≠ fresh (dom (heap w)).
Proof.
  intros Hs ->. apply (is_fresh (dom (heap w))).
  apply elem_of_dom. by exists sub.
Qed.

Lemma inv_allocated c lid w : inv w → inv (allocated c lid w).
Proof.
  intros Hinv. split.
  - apply Hinv.
  - apply Hinv.
  - intros Hrun c' s' Hs'.
    change (subscribers c' (allocated c lid w)) with (subscribers c' w) in Hs'.
    change (running (allocated c lid w)) with (running w) in Hrun.
    pose proof (inv_subs _ Hinv Hrun _ _ Hs') as Hsh.
    unfold allocated. cbn [heap with_heap].
    rewrite lookup_insert_ne; [done |]. intros <-.
    destruct (heap w !! fresh (dom (heap w))) as [sub |] eqn:Hs; [| done].
    by apply fresh_not_allocated in Hs.
Qed.

Lemma inv_admitted s sub w :
  inv w → heap w !! s = Some sub →
  Go.closed (out sub) = false → Go.closed (cout sub) = false →
  inv (admitted s sub w).
Proof.
  intros Hinv Hs Ho Hc. split.
  - rewrite running_admitted, srv_admitted. apply Hinv.
  - rewrite running_admitted, srv_admitted. apply Hinv.
  - rewrite running_admitted. intros Hrun c' s' Hs'.
    rewrite subscribers_admitted in Hs'. rewrite heap_admitted.
    assert (s' = s ∧ c' = channel sub ∨ s' ∈ subscribers c' w)
      as [[-> ->] | Hin].
    { case_decide as Hcc; [| by right].
      apply elem_of_union in Hs' as [Hs' | Hs']; [| by right].
      apply elem_of_singleton in Hs'. by left. }
    + rewrite Hs. unfold shape. simpl. by rewrite Ho, Hc.
    + by apply Hinv.
Qed.

Lemma inv_Handler c lid w :
  inv w →
  inv (admitted (fresh (dom (heap w))) (new_sub c lid w) (allocated c lid w)).
Proof.
  intros Hinv. apply inv_admitted; [by apply inv_allocated | | done | done].
  unfold allocated. simpl. apply lookup_insert_eq.
Qed.

Lemma HandlerSend_Done s w w' :
  step (HandlerSend s) w = Done tt w' →
  ∃ sub, heap w !! s = Some sub
         ∧ Go.closed (out sub) = false ∧ Go.closed (cout sub) = false
         ∧ (s ∉ subscribers (channel sub) w)
         ∧ running w = true ∧ w' = admitted s sub w.
Proof.
  simpl. unfold mbind, M_bind, load, get. intros H.
  destruct (heap w !! s) as [sub |] eqn:Hs; [| discriminate].
  unfold unsent in H.
  destruct (Go.closed (out sub)) eqn:Ho; [discriminate |].
  destruct (Go.closed (cout sub)) eqn:Hc; [discriminate |].
  simpl in H. case_bool_decide as Hin; [| discriminate].
  rewrite (Handler_send_eq _ sub) in H by done.
  destruct (Go.closed (subs (srv w))); [discriminate |].
  destruct (running w); [| discriminate].
  injection H as <-. by exists sub.
Qed.

Lemma HandlerCreate_Done c lid w w' :
  step (HandlerCreate c lid) w = Done tt w' →
  w' = w ∨ (out_of_range (BufferSize (srv w)) = false ∧ w' = allocated c lid w).
Proof.
  simpl. intros H. apply bind_inv_Done in H as (r & w1 & Hh & Hret).
  injection Hret as <-. rewrite Handler_create_eq in Hh.
  destruct (dead (srv w)); [left; congruence |].
  destruct (channel_dead c w); [left; congruence |].
  destruct (out_of_range _); [discriminate |].
  right. split; [done | congruence].
Qed.

Lemma inv_NewServer : inv NewServer.
Proof.
  split; done.
Qed.

Lemma step_inv o w w' : inv w → step o w = Done tt w' → inv w'.
Proof.
  intros Hinv Hstep. destruct o; simpl in Hstep.
  - injection Hstep as <-. eapply evolves_inv; [apply evolves_options | done].
  - apply deliver_Done in Hstep as [_ Hstep]. injection Hstep as <-.
    eapply evolves_inv; [apply evolves_repos | done].
  - apply bind_inv_Done in Hstep as (r & w1 & Hh & Hret).
    injection Hret as <-. rewrite Handler_eq in Hh.
    destruct (dead (srv w)) eqn:Hd; [by injection Hh as _ <- |].
    destruct (channel_dead channel0 w) eqn:Hc; [by injection Hh as _ <- |].
    destruct (out_of_range _); [discriminate |].
    destruct (Go.closed (subs (srv w))); [discriminate |].
    destruct (running w) eqn:Hrun; [| discriminate].
    injection Hh as _ <-. by apply inv_Handler.
  - apply deliver_Done in Hstep as [_ Hstep].
    eapply evolves_inv; [| done]. eapply run_Pub_evolves. right. eauto.
  - apply deliver_Done in Hstep as [_ Hstep].
    eapply evolves_inv; [| done]. eapply run_Comment_evolves. right. eauto.
  - apply deliver_Done in Hstep as [Hrun Hstep].
    rewrite run_Kill_eq in Hstep by done. injection Hstep as <-.
    by apply inv_closed_channel.
  - apply deliver_Done in Hstep as [_ Hstep].
    apply run_Quit_Done in Hstep as [Hr Hd]. by apply inv_stopped.
  - eapply evolves_inv; [| done]. eapply receive_event_evolves. right. eauto.
  - eapply evolves_inv; [| done]. eapply receive_comment_evolves. right. eauto.
  - eapply evolves_inv; [| done]. eapply handler_unregister_evolves.
    right. eauto.
  - unfold run_unregister, mbind, M_bind, get in Hstep.
    destruct (running w) eqn:Hrun; [| discriminate].
    destruct (Go.recv _) as [[s c] |] eqn:Hrecv; [| discriminate].
    unfold put in Hstep.
    assert (Hinv1 : inv (with_srv (with_unregister c (srv w)) w)).
    { eapply evolves_inv; [| done]. apply evolves_unregister.
      by apply recv_Some in Hrecv as (? & _). }
    rewrite run_Unregister_eq in Hstep. cbn [heap with_srv] in Hstep.
    destruct (heap w !! s) as [sub |] eqn:Hs; [| discriminate].
    destruct (_ || _); [discriminate |]. injection Hstep as <-.
    by apply inv_unregistered.
  - eapply evolves_inv; [| done]. eapply replay_evolves. right. eauto.
  - apply HandlerCreate_Done in Hstep as [-> | [_ ->]]; [done |].
    by apply inv_allocated.
  - apply HandlerSend_Done in Hstep as (sub & Hs & Ho & Hc & _ & _ & ->).
    by apply inv_admitted.
Qed.

Lemma reachable_inv w : reachable w → inv w.
Proof.
  induction 1 as [| w o w' _ IH Hstep].
  - apply inv_NewServer.
  - by eapply step_inv.
Qed.

Lemma exec_inv_Done ops w w' : exec ops w = Done tt w' →
  ∀ P : world → Prop,
    P w → (∀ o w1 w2, P w1 → step o w1 = Done tt w2 → P w2) → P w'.
Proof.
  revert w. induction ops as [| o ops IH]; intros w H P HP Hstep.
  - by injection H as <-.
  - unfold exec in H. simpl in H.
    apply bind_inv_Done in H as ([] & w1 & H1 & H2).
    eapply IH; [exact H2 | | exact Hstep]. by eapply Hstep.
Qed.

Lemma exec_reachable ops w w' :
  reachable w → exec ops w = Done tt w' → reachable w'.
Proof.
  intros Hw H. apply (exec_inv_Done _ _ _ H reachable); [done |].
  intros o w1 w2 H1 H2. by eapply reachable_step.
Qed.

(** ** Dead markers only grow *)

#[global] Instance heap_only_preorder : PreOrder heap_only.
Proof.
  split.
  - intros w. by split.
  - intros w1 w2 w3 [] []. split; congruence.
Qed.

Lemma destroy_heap_only s : respects heap_only (destroy s).
Proof.
  intros w w' H. rewrite destroy_eq in H.
  destruct (heap w !! s) as [sub |]; [| by apply ends_in_Panicked in H].
  destruct (_ || _); [by apply ends_in_Panicked in H |].
  apply ends_in_Done in H. by subst.
Qed.

Lemma close_all_inr v v' :
  close_all v = inr v' →
  dead v' = true ∧ deadChannels v' = deadChannels v
  ∧ (flags v').2 = replicate 7 true
  ∧ (flags v).2 = replicate 7 false
  ∧ BufferSize v' = BufferSize v ∧ ReplayAll v' = ReplayAll v.
Proof.
  unfold close_all, Go.close, flags.
  destruct (Go.closed (registrations v)); [discriminate |].
  destruct (Go.closed (pub v)); [discriminate |].
  destruct (Go.closed (comments v)); [discriminate |].
  destruct (Go.closed (subs v)); [discriminate |].
  destruct (Go.closed (unregister v)); [discriminate |].
  destruct (Go.closed (quit v)); [discriminate |].
  destruct (Go.closed (kill v)); [discriminate |].
  by intros [= <-].
Qed.

Lemma run_Quit_inv_Done w w' :
  run Quit w = Done tt w' →
  ∃ w1 v, heap_only w w1 ∧ close_all (srv w) = inr v
          ∧ w' = with_running false (with_srv v w1).
Proof.
  simpl. intros H.
  apply bind_inv_Done in H as (w0 & w1 & H0 & H). injection H0 as <- <-.
  apply bind_inv_Done in H as ([] & w2 & Hloop & H).
  apply bind_inv_Done in H as (w3 & w4 & H3 & H). injection H3 as <- <-.
  apply bind_inv_Done in H as (v & w5 & H5 & H).
  unfold put in H. injection H as <-.
  unfold lift in H5. destruct (close_all (srv w2)) as [p | v'] eqn:Hc;
    [discriminate |].
  injection H5 as <- <-.
  assert (Hho : heap_only w w2).
  { eapply (respects_for_each heap_only); [| right; eauto].
    intros cs _. apply respects_for_each; [apply _ |].
    intros s _. apply destroy_heap_only. }
  exists w2, v'. split; [done |]. split; [| done].
  by rewrite <- (ho_srv _ _ Hho).
Qed.

Lemma step_channel_dead o w w' c :
  inv w → step o w = Done tt w' →
  channel_dead c w = true → channel_dead c w' = true.
Proof.
  intros Hinv Hstep Hc.
  assert (Hev : evolves w w' → channel_dead c w' = true).
  { intros Hev. pose proof (ev_flags _ _ Hev) as Hf. unfold flags in Hf.
    unfold channel_dead in *. congruence. }
  destruct o; simpl in Hstep.
  - injection Hstep as <-. apply Hev, evolves_options.
  - apply deliver_Done in Hstep as [_ Hstep]. injection Hstep as <-.
    apply Hev, evolves_repos.
  - apply bind_inv_Done in Hstep as (r & w1 & Hh & Hret).
    injection Hret as <-. rewrite Handler_eq in Hh.
    destruct (dead (srv w)) eqn:Hd; [by injection Hh as _ <- |].
    destruct (channel_dead channel0 w); [by injection Hh as _ <- |].
    destruct (out_of_range _); [discriminate |].
    destruct (Go.closed (subs (srv w))); [discriminate |].
    destruct (running w) eqn:Hrun; [| discriminate].
    injection Hh as _ <-. unfold channel_dead. by rewrite srv_admitted.
  - apply deliver_Done in Hstep as [_ Hstep].
    apply Hev. eapply run_Pub_evolves. right. eauto.
  - apply deliver_Done in Hstep as [_ Hstep].
    apply Hev. eapply run_Comment_evolves. right. eauto.
  - apply deliver_Done in Hstep as [Hrun Hstep].
    rewrite run_Kill_eq in Hstep by done. injection Hstep as <-.
    rewrite channel_dead_closed_channel. by case_decide.
  - apply deliver_Done in Hstep as [_ Hstep].
    apply run_Quit_inv_Done in Hstep as (w1 & v & Hho & Hcl & ->).
    apply close_all_inr in Hcl as (_ & Hdc & _).
    unfold channel_dead in *. simpl. by rewrite Hdc.
  - apply Hev. eapply receive_event_evolves. right. eauto.
  - apply Hev. eapply receive_comment_evolves. right. eauto.
  - apply Hev. eapply handler_unregister_evolves. right. eauto.
  - unfold run_unregister, mbind, M_bind, get in Hstep.
    destruct (running w) eqn:Hrun; [| discriminate].
    destruct (Go.recv _) as [[s c'] |] eqn:Hrecv; [| discriminate].
    unfold put in Hstep. rewrite run_Unregister_eq in Hstep.
    cbn [heap with_srv] in Hstep.
    destruct (heap w !! s) as [sub |] eqn:Hs; [| discriminate].
    destruct (_ || _); [discriminate |]. by injection Hstep as <-.
  - apply Hev. eapply replay_evolves. right. eauto.
  - by apply HandlerCreate_Done in Hstep as [-> | [_ ->]].
  - apply HandlerSend_Done in Hstep as (sub & _ & _ & _ & _ & _ & ->).
    unfold channel_dead. by rewrite srv_admitted.
Qed.

Lemma exec_channel_dead ops w w' c :
  inv w → exec ops w = Done tt w' →
  channel_dead c w = true → inv w' ∧ channel_dead c w' = true.
Proof.
  intros Hinv H Hc.
  apply (exec_inv_Done _ _ _ H (λ w, inv w ∧ channel_dead c w = true));
    [done |].
  intros o w1 w2 [H1 H2] Hstep. split.
  - by eapply step_inv.
  - by eapply step_channel_dead.
Qed.

(** ** Subscribing to a dead channel *)

Lemma Handler_dead_channel c lid w :
  channel_dead c w = true →
  ∃ r, Handler c lid w = Done r w
       ∧ (∀ s, r ≠ EventStream s)
       ∧ (dead (srv w) = false → r = HasBeenClosed).
Proof.
  intros Hc. rewrite Handler_eq, Hc. destruct (dead (srv w)).
  - exists NoLongerAvailable. by split.
  - exists HasBeenClosed. by split.
Qed.

Lemma nonempty_string (lid : string) :
  (0 <? Z.of_nat (String.length lid)) = true ↔ lid ≠ "".
Proof. destruct lid; simpl; split; intros H; done. Qed.

(** ** Publishing to a channel without subscribers *)

Lemma range_subs_empty c body w :
  subscribers c w = ∅ → range_subs c body w = Done tt w.
Proof. intros H. unfold range_subs. by rewrite H, elements_empty. Qed.

Lemma closed_t_reachable : reachable closed_t.
Proof.
  apply (exec_reachable closed_t_ops NewServer); [apply reachable_new |].
  vm_compute. reflexivity.
Qed.

(** ** Closing a channel *)

Lemma destroyed_closed_channel die w s :
  is_open s w → s ∈ subscribers die w → destroyed s (closed_channel die w).
Proof.
  intros (sub & Hs & Ho & Hc) Hin. exists (closed_sub sub).
  change (heap (closed_channel die w))
    with (heap (foldl (killed_one die) w (elements (subscribers die w)))).
  rewrite killed_heap_in by by apply elem_of_elements.
  by rewrite Hs.
Qed.

(** On a hub that has not been shut down, CloseChannel(c) completes: every
    subscriber of c has both of its queues closed and is no longer in the
    subscriber set of c, which is left empty, and c is marked dead. *)
Lemma CloseChannel_destroys (w : world) (c : string) :
  reachable w → dead (srv w) = false →
  ∃ w', CloseChannel c w = Done tt w'
        ∧ (∀ s, s ∈ subscribers c w →
                destroyed s w' ∧ s ∉ subscribers c w')
        ∧ subscribers c w' = ∅
        ∧ channel_dead c w' = true.
Proof.
  intros Hreach Hd. apply reachable_inv in Hreach as Hinv.
  pose proof (inv_running _ Hinv Hd) as Hrun.
  destruct (inv_flags _ Hinv Hrun) as (_ & _ & _ & _ & _ & _ & _ & Hkill).
  exists (closed_channel c w).
  assert (Hempty : subscribers c (closed_channel c w) = ∅).
  { rewrite subscribers_closed_channel. by rewrite decide_True. }
  assert (Hdead : channel_dead c (closed_channel c w) = true).
  { rewrite channel_dead_closed_channel. by rewrite decide_True. }
  split; [| split; [| split]]; try done.
  - unfold CloseChannel. rewrite deliver_live by done. by apply run_Kill_eq.
  - intros s Hs. split.
    + apply destroyed_closed_channel; [| done]. by eapply inv_is_open.
    + rewrite Hempty. apply not_elem_of_empty.
Qed.

(** ** Admission and replay *)

Lemma Handler_admits c lid w :
  inv w → dead (srv w) = false → channel_dead c w = false →
  0 ≤ BufferSize (srv w) ≤ Go.max_chan_size →
  Handler c lid w
  = Done (EventStream (fresh (dom (heap w))))
      (admitted (fresh (dom (heap w))) (new_sub c lid w) (allocated c lid w)).
Proof.
  intros Hinv Hd Hc Hn. pose proof (inv_running _ Hinv Hd) as Hrun.
  destruct (inv_flags _ Hinv Hrun) as (_ & _ & _ & Hsubs & _).
  rewrite Handler_eq, Hd, Hc, Hsubs, Hrun.
  by rewrite (proj2 (out_of_range_false _) Hn).
Qed.

Lemma Handler_Done c lid w s w' :
  Handler c lid w = Done (EventStream s) w' →
  s = fresh (dom (heap w))
  ∧ w' = admitted s (new_sub c lid w) (allocated c lid w)
  ∧ dead (srv w) = false ∧ channel_dead c w = false
  ∧ 0 ≤ BufferSize (srv w) ≤ Go.max_chan_size.
Proof.
  rewrite Handler_eq. intros H.
  destruct (dead (srv w)); [discriminate |].
  destruct (channel_dead c w); [discriminate |].
  destruct (out_of_range _) eqn:Hn; [discriminate |].
  destruct (Go.closed (subs (srv w))); [discriminate |].
  destruct (running w); [| discriminate].
  injection H as <- <-. by apply out_of_range_false in Hn.
Qed.

(** The replay goroutines after [case sub := <-srv.subs]. *)
Lemma replays_admitted s sub w :
  (∀ repo, ReplayAll (srv w) = true ∨ lastEventId sub ≠ "" →
           run.repos (locals w) !! channel sub = Some repo →
           replays (admitted s sub w) = replays w ++
             [{| target := s;
                 pending := Replay repo (channel sub) (lastEventId sub) |}])
  ∧ (run.repos (locals w) !! channel sub = None →
     replays (admitted s sub w) = replays w)
  ∧ (ReplayAll (srv w) = false → lastEventId sub = "" →
     replays (admitted s sub w) = replays w).
Proof.
  assert (Hcond : (ReplayAll (srv w)
                   || (0 <? Z.of_nat (String.length (lastEventId sub))))
                  = true ↔ ReplayAll (srv w) = true ∨ lastEventId sub ≠ "").
  { rewrite orb_true_iff, nonempty_string. done. }
  unfold admitted, spawn.
  cbn [srv locals replays run.repos with_subs with_locals].
  destruct (ReplayAll (srv w)
            || (0 <? Z.of_nat (String.length (lastEventId sub)))) eqn:Hb.
  - destruct (run.repos (locals w) !! channel sub) as [repo |] eqn:Hrepo.
    + cbn [replays with_replays with_subs with_locals].
      split; [| split].
      * by intros repo' _ [= <-].
      * done.
      * intros Hall Hlid. destruct (proj1 Hcond eq_refl); congruence.
    + by cbn [replays with_replays with_subs with_locals].
  - cbn [replays with_replays with_subs with_locals].
    split; [| done]. intros repo Hor _. apply Hcond in Hor. congruence.
Qed.

(** C7: when run receives a subscription on srv.subs, the case completes with
    the subscription in the subscriber set of its channel and its record
    untouched, and a replay goroutine is started exactly when (ReplayAll is
    set or lastEventId is not empty) and a repository is registered for the
    channel: it then replays that repository's sequence for (channel,
    lastEventId); when no repository is registered, and when ReplayAll is
    off and lastEventId is empty, no goroutine is started.  So every request
    the handler admits yields a subscription with both queues open in the
    subscriber set of its channel, with or without a replay. *)
Theorem Handler_replays_iff (w : world) :
  (∀ s sub, heap w !! s = Some sub →
     ∃ w', run (Subs s) w = Done tt w'
           ∧ s ∈ subscribers (channel sub) w'
           ∧ heap w' = heap w
           ∧ ((∃ t, replays w' = replays w ++ [t])
              ↔ (ReplayAll (srv w) = true ∨ lastEventId sub ≠ "")
                ∧ is_Some (run.repos (locals w) !! channel sub))
           ∧ (∀ repo, ReplayAll (srv w) = true ∨ lastEventId sub ≠ "" →
                      run.repos (locals w) !! channel sub = Some repo →
                      replays w' = replays w ++
                        [{| target := s;
                            pending :=
                              Replay repo (channel sub) (lastEventId sub) |}])
           ∧ (run.repos (locals w) !! channel sub = None →
              replays w' = replays w)
           ∧ (ReplayAll (srv w) = false → lastEventId sub = "" →
              replays w' = replays w))
  ∧ (∀ c lid s w',
       Handler c lid w = Done (EventStream s) w' →
       s ∈ subscribers c w' ∧ is_open s w'
       ∧ ((∃ t, replays w' = replays w ++ [t])
          ↔ (ReplayAll (srv w) = true ∨ lid ≠ "")
            ∧ is_Some (run.repos (locals w) !! c))
       ∧ (∀ repo, ReplayAll (srv w) = true ∨ lid ≠ "" →
                  run.repos (locals w) !! c = Some repo →
                  replays w' = replays w ++
                    [{| target := s; pending := Replay repo c lid |}])
       ∧ (run.repos (locals w) !! c = None → replays w' = replays w)
       ∧ (ReplayAll (srv w) = false → lid = "" → replays w' = replays w)).
Proof.
  assert (Hiff : ∀ s sub w0,
    replays w0 = replays w → srv w0 = srv w → locals w0 = locals w →
    (∃ t, replays (admitted s sub w0) = replays w ++ [t])
    ↔ (ReplayAll (srv w) = true ∨ lastEventId sub ≠ "")
      ∧ is_Some (run.repos (locals w) !! channel sub)).
  { intros s sub w0 Hr Hsrv Hloc.
    destruct (replays_admitted s sub w0) as (Hyes & Hnone & Hoff).
    rewrite Hr, Hsrv, Hloc in *. split.
    - intros [t Ht].
      assert (Hne : replays (admitted s sub w0) ≠ replays w).
      { rewrite Ht. intros Heq. apply (f_equal length) in Heq.
        rewrite length_app in Heq. simpl in Heq. lia. }
      destruct (run.repos (locals w) !! channel sub) as [repo |] eqn:Hrepo;
        [| by destruct Hne; apply Hnone].
      split; [| by eexists].
      destruct (ReplayAll (srv w)) eqn:Hall; [by left |]. right.
      intros Hlid. by destruct Hne; apply Hoff.
    - intros [Hor [repo Hrepo]]. eexists. by apply Hyes. }
  split.
  - intros s sub Hs. exists (admitted s sub w).
    destruct (replays_admitted s sub w) as (Hyes & Hnone & Hoff).
    split; [by apply run_Subs_eq |].
    split; [| split; [apply heap_admitted |]].
    { rewrite subscribers_admitted, decide_True by done.
      apply elem_of_union_l. by apply elem_of_singleton. }
    split; [by apply Hiff |]. done.
  - intros c lid s w' H.
    apply Handler_Done in H as (-> & -> & _).
    set (s := fresh (dom (heap w))).
    destruct (replays_admitted s (new_sub c lid w) (allocated c lid w))
      as (Hyes & Hnone & Hoff).
    split; [| split].
    { rewrite subscribers_admitted, decide_True by done.
      apply elem_of_union_l. by apply elem_of_singleton. }
    { exists (new_sub c lid w). rewrite heap_admitted. unfold allocated. simpl.
      by rewrite lookup_insert_eq. }
    split; [by apply (Hiff s (new_sub c lid w) (allocated c lid w)) |]. done.
Qed.

(** C9: a new server has BufferSize 128, and the event queue and the comment
    queue of every subscription a request is admitted with are created empty
    with capacity BufferSize, as read when the request is served. *)
Theorem queues_have_BufferSize :
  BufferSize (srv NewServer) = 128
  ∧ ∀ w c lid s w',
      Handler c lid w = Done (EventStream s) w' →
      ∃ sub, heap w' !! s = Some sub
             ∧ Go.cap (out sub) = BufferSize (srv w)
             ∧ Go.cap (cout sub) = BufferSize (srv w)
             ∧ Go.buf (out sub) = [] ∧ Go.buf (cout sub) = [].
Proof.
  split; [done |]. intros w c lid s w' H. rewrite Handler_eq in H.
  destruct (dead (srv w)); [discriminate |].
  destruct (channel_dead c w); [discriminate |].
  destruct (out_of_range _); [discriminate |].
  destruct (Go.closed (subs (srv w))); [discriminate |].
  destruct (running w); [| discriminate].
  injection H as <- <-. exists (new_sub c lid w).
  rewrite heap_admitted. unfold allocated. simpl.
  by rewrite lookup_insert_eq.
Qed.

(** ** Unregistering a subscription the hub does not list *)

Lemma alter_absent {A} (f : A → A) (m : gmap string A) c :
  m !! c = None → alter f c m = m.
Proof.
  intros H. apply map_eq. intros c'. destruct (decide (c = c')) as [<- | Hne].
  - by rewrite lookup_alter_eq, H.
  - by rewrite lookup_alter_ne.
Qed.

(** C10: for a subscription whose queues are both open and whose channel has
    no subscriber set in the hub's map, the unregister case of run completes:
    both queues are closed, and the subscriber sets, the repositories and the
    server value (its dead markers included) are left as they were. *)
Theorem Unregister_unlisted (w : world) (s : sub_ptr) (sub : subscription) :
  heap w !! s = Some sub →
  Go.closed (out sub) = false → Go.closed (cout sub) = false →
  run.subs (locals w) !! channel sub = None →
  ∃ w', run (Unregister s) w = Done tt w'
        ∧ destroyed s w'
        ∧ run.subs (locals w') = run.subs (locals w)
        ∧ run.repos (locals w') = run.repos (locals w)
        ∧ deadChannels (srv w') = deadChannels (srv w)
        ∧ srv w' = srv w
        ∧ ∀ s', s' ≠ s → heap w' !! s' = heap w !! s'.
Proof.
  intros Hs Ho Hc Hnone. exists (unregistered s sub w).
  split; [| split; [| split; [| split; [| split; [| split]]]]]; try done.
  - by rewrite run_Unregister_eq, Hs, Ho, Hc.
  - exists (closed_sub sub). simpl. by rewrite lookup_insert_eq.
  - simpl. by apply alter_absent.
  - intros s' Hne. simpl. by rewrite lookup_insert_ne.
Qed.

(** ** Channel isolation *)

Lemma offer_event_heap ev s' w w' s :
  ends_in (offer_event ev s' w) w' → s ≠ s' → heap w' !! s = heap w !! s.
Proof.
  intros H Hne. unfold offer_event, mbind, M_bind, load in H.
  destruct (heap w !! s') as [sub |]; [| by apply ends_in_Panicked in H].
  destruct (Go.send _ _) as [c | | p].
  - apply ends_in_Done in H. subst. simpl. by rewrite lookup_insert_ne.
  - unfold unregister_from_run in H. destruct (Go.send _ _).
    + apply ends_in_Done in H. by subst.
    + apply ends_in_Blocked in H. by subst.
    + by apply ends_in_Panicked in H.
  - by apply ends_in_Panicked in H.
Qed.

#[global] Instance passes_by_preorder cs s : PreOrder (passes_by cs s).
Proof.
  split.
  - intros w. by split.
  - intros w1 w2 w3 [He1 H1] [He2 H2]. split; [by trans w2 |].
    intros Hout. rewrite H2, H1; [done | done |].
    intros c Hc. rewrite (evolves_subscribers _ _ _ He1). by apply Hout.
Qed.

Lemma run_Pub_passes_by cs ev s :
  respects (passes_by cs s) (run (Pub {| channels := cs; event := ev |})).
Proof.
  simpl. apply respects_for_each; [apply _ |]. intros c Hc.
  apply respects_range_subs; [apply _ | |].
  - intros w s' Hs' w' H. split; [by eapply offer_event_evolves |].
    intros Hout. eapply offer_event_heap; [done |].
    intros ->. by apply (Hout c).
  - intros w w' [Hev _]. by apply evolves_subscribers.
Qed.

(** C8: whether a Publish completes or blocks, a subscription that is in the
    subscriber set of none of the channels it names has its queues (its whole
    record) left as they were; on a reachable hub this holds for every
    subscriber of a channel that the Publish does not name. *)
Theorem Publish_channel_isolation
    (w : world) (cs : list string) (ev : Event) (w' : world) :
  ends_in (Publish cs ev w) w' →
  (∀ s, (∀ c, c ∈ cs → s ∉ subscribers c w) → heap w' !! s = heap w !! s)
  ∧ (reachable w →
     ∀ b s, s ∈ subscribers b w → b ∉ cs → heap w' !! s = heap w !! s).
Proof.
  intros H.
  assert (Hframe : ∀ s, (∀ c, c ∈ cs → s ∉ subscribers c w) →
                        heap w' !! s = heap w !! s).
  { intros s Hout. unfold Publish in H.
    destruct (deliver_ends_in _ _ _ _ H) as [Heq | Hr]; [by rewrite Heq |].
    apply (run_Pub_passes_by cs ev s) in Hr as [_ Hr]. by apply Hr. }
  split; [done |].
  intros Hreach b s Hb Hcs. apply reachable_inv in Hreach as Hinv.
  destruct (running w) eqn:Hrun.
  - apply Hframe. intros c Hc Hin.
    pose proof (inv_subs _ Hinv Hrun _ _ Hb) as H1.
    pose proof (inv_subs _ Hinv Hrun _ _ Hin) as H2.
    rewrite H1 in H2. injection H2 as ->. done.
  - unfold Publish in H. rewrite deliver_eq, Hrun in H.
    destruct (Go.closed _); [by apply ends_in_Panicked in H |].
    apply ends_in_Blocked in H. by subst.
Qed.

(** ** What the publish and shutdown paths do deliver *)

Lemma offer_event_eq ev s w :
  offer_event ev s w =
  match heap w !! s with
  | None => Panicked Go.NilPointerDereference
  | Some sub =>
      if Go.closed (out sub) then Panicked Go.SendOnClosedChannel
      else if Go.full (out sub)
      then if Go.closed (unregister (srv w))
           then Panicked Go.SendOnClosedChannel
           else if Go.full (unregister (srv w)) then Blocked w
           else Done tt
                  (with_srv
                     (with_unregister
                        (Go.Chan (Go.buf (unregister (srv w)) ++ [s])
                           (Go.cap (unregister (srv w))) false)
                        (srv w)) w)
      else Done tt
             (with_heap
                (<[s := with_out
                          (Go.Chan (Go.buf (out sub) ++ [ev])
                             (Go.cap (out sub)) false) sub]> (heap w)) w)
  end.
Proof.
  unfold offer_event, mbind, M_bind, load.
  destruct (heap w !! s) as [sub |]; [| done].
  unfold Go.send. destruct (Go.closed (out sub)) eqn:Ho; [done |].
  destruct (Go.full (out sub)); [| done].
  unfold unregister_from_run, Go.send.
  destruct (Go.closed (unregister (srv w))) eqn:Hu; [done |].
  by destruct (Go.full (unregister (srv w))).
Qed.

(** The scenario of the specification: BufferSize 1, one subscriber that does
    not drain, events A then B.  The subscriber holds A, B is not queued, and
    once run has taken the unregister request the subscription is destroyed
    and gone from the subscriber set. *)
Example slow_consumer_is_unregistered :
  ∃ w, exec [SetOptions false false 1; DoRequest "t" "";
             DoPublish ["t"] (tick "A"); DoPublish ["t"] (tick "B");
             RunUnregister] NewServer = Done tt w
       ∧ (∃ sub, heap w !! 0%nat = Some sub
                 ∧ Go.buf (out sub) = [tick "A"]
                 ∧ Go.closed (out sub) = true ∧ Go.closed (cout sub) = true)
       ∧ subscribers "t" w = ∅.
Proof.
  eexists. split; [vm_compute; reflexivity |]. split.
  - eexists. split; [by vm_compute |]. by split.
  - by vm_compute.
Qed.

Lemma for_each_app {A} (l1 l2 : list A) body w :
  for_each (l1 ++ l2) body w = (for_each l1 body;; for_each l2 body) w.
Proof.
  revert w. induction l1 as [| x l1 IH]; intros w; [done |].
  cbn [for_each app]. unfold mbind, M_bind.
  destruct (body x w) as [[] w1 | w1 | p]; [apply IH | done | done].
Qed.

Lemma for_each_nested {A B} (l : list A) (f : A → list B) body w :
  for_each l (λ x, for_each (f x) body) w
  = for_each (mjoin (f <$> l)) body w.
Proof.
  revert w. induction l as [| x l IH]; intros w; [done |].
  cbn [for_each fmap list_fmap mjoin list_join]. rewrite for_each_app.
  unfold mbind, M_bind.
  destruct (for_each (f x) body w) as [[] w1 | w1 | p];
    [apply IH | done | done].
Qed.

Lemma destroy_loop l w :
  NoDup l → (∀ s, s ∈ l → is_open s w) →
  for_each l destroy w = Done tt (foldl destroyed_one w l).
Proof.
  revert w. induction l as [| x l IH]; intros w Hnd Hopen; [done |].
  apply NoDup_cons in Hnd as [Hx Hnd]. cbn [for_each foldl].
  destruct (Hopen x) as (sub & Hs & Ho & Hc); [by left |].
  rewrite (bind_Done _ _ w tt (destroyed_one w x)).
  - apply IH; [done |]. intros s Hs'.
    destruct (Hopen s) as (sub' & Hs'' & H'); [by right |].
    exists sub'. split; [| done]. simpl. rewrite lookup_alter_ne; [done |].
    by intros ->.
  - rewrite (destroy_open _ _ _ Hs Ho Hc). unfold destroyed_one.
    by rewrite (insert_as_alter closed_sub _ _ _ Hs).
Qed.

Lemma destroyed_all_heap l w s :
  s ∈ l → heap (foldl destroyed_one w l) !! s = closed_sub <$> heap w !! s.
Proof.
  revert w. induction l as [| x l IH]; intros w Hs.
  { by apply elem_of_nil in Hs. }
  cbn [foldl]. destruct (decide (s ∈ l)) as [Hl | Hl].
  - rewrite IH by done. simpl. destruct (decide (x = s)) as [<- | Hne].
    + rewrite lookup_alter_eq. by destruct (heap w !! x).
    + by rewrite lookup_alter_ne.
  - apply elem_of_cons in Hs as [-> | Hs]; [| done].
    assert (Hnotin : ∀ w', heap (foldl destroyed_one w' l) !! x = heap w' !! x).
    { clear IH. induction l as [| y l IH]; intros w'; [done |].
      apply not_elem_of_cons in Hl as [Hne Hl]. cbn [foldl].
      rewrite IH by done. simpl. by rewrite lookup_alter_ne. }
    rewrite Hnotin. simpl. by rewrite lookup_alter_eq.
Qed.

Lemma destroyed_all_rest l w :
  srv (foldl destroyed_one w l) = srv w
  ∧ locals (foldl destroyed_one w l) = locals w.
Proof.
  revert w. induction l as [| x l IH]; intros w; [done |].
  cbn [foldl]. destruct (IH (destroyed_one w x)) as [-> ->]. done.
Qed.

Lemma NoDup_subscriber_sets (key : sub_ptr → option string)
    (l : list (string * gset sub_ptr)) :
  NoDup l.*1 →
  (∀ c X s, (c, X) ∈ l → s ∈ X → key s = Some c) →
  NoDup (mjoin ((λ cs, elements cs.2) <$> l)).
Proof.
  induction l as [| [c X] l IH]; intros Hnd Hkey; [constructor |].
  cbn [fmap list_fmap mjoin list_join]. simpl in Hnd.
  apply NoDup_cons in Hnd as [Hc Hnd]. apply NoDup_app. split; [| split].
  - apply NoDup_elements.
  - intros s Hs Hin. apply elem_of_elements in Hs.
    apply list_elem_of_join in Hin as (l' & Hs' & Hl').
    apply list_elem_of_fmap in Hl' as ([c' X'] & -> & Hin').
    apply elem_of_elements in Hs'. simpl in Hs'.
    assert (key s = Some c) as H1 by (eapply Hkey; [by left | done]).
    assert (key s = Some c') as H2 by (eapply Hkey; [by right | done]).
    rewrite H1 in H2. injection H2 as <-.
    apply Hc. apply list_elem_of_fmap. by exists (c, X').
  - apply IH; [done |]. intros c' X' s Hin Hs. eapply Hkey; [by right | done].
Qed.

(** X8: shutdown does destroy: Close completes on a reachable hub that is not
    shut down, destroys every subscriber of every channel, marks the hub
    dead, and run returns.  But the hub is then not inert: a Publish that
    follows panics. *)
Lemma Close_destroys_all (w : world) :
  reachable w → dead (srv w) = false →
  ∃ w', Close w = Done tt w'
        ∧ dead (srv w') = true ∧ running w' = false
        ∧ (∀ c s, s ∈ subscribers c w → destroyed s w')
        ∧ ∀ cs ev, Publish cs ev w' = Panicked Go.SendOnClosedChannel.
Proof.
  intros Hreach Hd. apply reachable_inv in Hreach as Hinv.
  pose proof (inv_running _ Hinv Hd) as Hrun.
  pose proof (inv_flags _ Hinv Hrun) as (_ & H1 & H2 & H3 & H4 & H5 & H6 & H7).
  set (l := mjoin ((λ cs : string * gset sub_ptr, elements cs.2)
                      <$> map_to_list (run.subs (locals w)))).
  assert (Hin : ∀ s, s ∈ l ↔ ∃ c, s ∈ subscribers c w).
  { intros s. unfold l. rewrite list_elem_of_join. split.
    - intros (l' & Hs & Hl').
      apply list_elem_of_fmap in Hl' as ([c X] & -> & HcX).
      apply elem_of_map_to_list in HcX. apply elem_of_elements in Hs.
      exists c. unfold subscribers. by rewrite HcX.
    - intros (c & Hs). unfold subscribers in Hs.
      destruct (run.subs (locals w) !! c) as [X |] eqn:HX; [| set_solver].
      exists (elements X). split; [by apply elem_of_elements |].
      apply list_elem_of_fmap. exists (c, X). split; [done |].
      by apply elem_of_map_to_list. }
  assert (Hloop : for_each l destroy w = Done tt (foldl destroyed_one w l)).
  { apply destroy_loop.
    - apply (NoDup_subscriber_sets (λ s, channel <$> heap w !! s)).
      + apply NoDup_fst_map_to_list.
      + intros c X s HcX Hs. apply elem_of_map_to_list in HcX.
        assert (Hsub : s ∈ subscribers c w)
          by (unfold subscribers; by rewrite HcX).
        pose proof (inv_subs _ Hinv Hrun _ _ Hsub) as Hsh.
        destruct (heap w !! s) as [sub |]; [| done].
        simpl in *. unfold shape in Hsh. congruence.
    - intros s Hs. apply Hin in Hs as [c Hs]. by eapply inv_is_open. }
  destruct (destroyed_all_rest l w) as [Hsrv Hloc].
  destruct (close_all (srv w)) as [p | v] eqn:Hclose.
  { unfold close_all, Go.close in Hclose.
    rewrite H1, H2, H3, H4, H5, H6, H7 in Hclose. discriminate. }
  exists (with_running false (with_srv v (foldl destroyed_one w l))).
  split; [| split; [| split; [| split]]].
  - unfold Close. rewrite deliver_live by done. simpl.
    unfold mbind at 1, M_bind at 1, get at 1.
    rewrite (bind_Done _ _ w tt (foldl destroyed_one w l))
      by by rewrite for_each_nested.
    unfold mbind, M_bind, get, lift, put. rewrite Hsrv, Hclose. done.
  - simpl. by apply close_all_inr in Hclose as (? & _).
  - done.
  - intros c s Hs. destruct (inv_is_open _ _ _ Hinv Hrun Hs) as (sub & Hh & Ho).
    exists (closed_sub sub). split; [| done]. simpl.
    rewrite destroyed_all_heap by (apply Hin; eauto). by rewrite Hh.
  - intros cs ev. apply deliver_closed. simpl.
    apply close_all_inr in Hclose as (_ & _ & Hfl & _).
    unfold flags in Hfl. simpl in Hfl. by injection Hfl as _ -> _.
Qed.

(** ** Executions on which the code departs from its specification *)

(** C1: with three subscribers whose event queues are full, the publish case
    of run does not complete: the third [srv.unregister <- s] finds the
    buffer of capacity 2 full, and run, the only receiver of that channel,
    stays blocked in it; the third subscriber got neither the event nor an
    unregister request. *)
Theorem Publish_blocks_run :
  exec three_full_ops NewServer = Done tt three_full
  ∧ size (subscribers "t" three_full) = 3%nat
  ∧ ∃ s w', Publish ["t"] (tick "B") three_full = Blocked w'
            ∧ length (Go.buf (unregister (srv w'))) = 2%nat
            ∧ Go.cap (unregister (srv w')) = 2
            ∧ s ∈ subscribers "t" three_full
            ∧ (s ∉ Go.buf (unregister (srv w')))
            ∧ heap w' !! s = heap three_full !! s.
Proof.
  split; [by vm_compute |]. split; [by vm_compute |].
  exists 0%nat. eexists. split; [vm_compute; reflexivity |].
  split; [done |]. split; [done |].
  split; [| split].
  - apply (bool_decide_unpack _). by vm_compute.
  - apply (bool_decide_unpack _). by vm_compute.
  - by vm_compute.
Qed.

(** C2: the second Unregister of a subscription is not a no-op: run calls
    destroy again, and closing the closed event queue panics. *)
Theorem second_Unregister_panics :
  exec twice_ops NewServer = Done tt unregistered_once
  ∧ destroyed 0%nat unregistered_once
  ∧ Go.buf (unregister (srv unregistered_once)) = [0%nat]
  ∧ run_unregister unregistered_once = Panicked Go.CloseOfClosedChannel
  ∧ run (Unregister 0%nat) unregistered_once
    = Panicked Go.CloseOfClosedChannel.
Proof.
  split; [by vm_compute |]. split.
  { eexists. split; [by vm_compute |]. by split. }
  split; [by vm_compute |]. split; by vm_compute.
Qed.

(** C3: after Close the handler answers "no longer available", but every
    other operation sends on a closed channel and panics. *)
Theorem operations_after_Close_panic :
  Close NewServer = Done tt shut_down
  ∧ dead (srv shut_down) = true
  ∧ (∀ c lid, Handler c lid shut_down = Done NoLongerAvailable shut_down)
  ∧ (∀ cs ev, Publish cs ev shut_down = Panicked Go.SendOnClosedChannel)
  ∧ (∀ cs cmt,
       PublishComment cs cmt shut_down = Panicked Go.SendOnClosedChannel)
  ∧ (∀ c repo, Register c repo shut_down = Panicked Go.SendOnClosedChannel)
  ∧ (∀ c, CloseChannel c shut_down = Panicked Go.SendOnClosedChannel)
  ∧ (∀ s, handler_unregister s shut_down = Panicked Go.SendOnClosedChannel)
  ∧ Close shut_down = Panicked Go.SendOnClosedChannel.
Proof.
  split; [by vm_compute |]. split; [by vm_compute |].
  split; [intros c lid; by rewrite Handler_eq |].
  repeat split; intros; by apply deliver_closed.
Qed.

(** C4: the dead marker does not keep subscribers off a channel.  The handler
    of a request for "t" reads the flags and creates its subscription
    (server.go:74-99); CloseChannel("t") is then received by run, which marks
    "t" dead; the handler then sends the subscription on srv.subs
    (server.go:100), and run, which does not read srv.deadChannels in that
    case (server.go:212-216), admits it.  The hub is then not shut down, "t"
    is marked dead, and the subscription is in the subscriber set of "t" with
    both queues open: the request is answered with an event stream.  A
    Publish and a PublishComment naming "t" are not no-ops: each writes to
    the queue of that subscriber. *)
Theorem admitted_on_dead_channel :
  Handler_create "t" "" NewServer = Done (EventStream 0%nat) unlisted
  ∧ exec overtaken_ops NewServer = Done tt overtaken
  ∧ dead (srv overtaken) = false
  ∧ channel_dead "t" overtaken = true
  ∧ subscribers "t" overtaken = {[0%nat]}
  ∧ is_open 0%nat overtaken
  ∧ heap overtaken !! 0%nat = Some (new_sub "t" "" NewServer)
  ∧ (∃ w', Publish ["t"] (tick "A") overtaken = Done tt w'
           ∧ heap w' !! 0%nat
             = Some (with_out (Go.Chan [tick "A"] 128 false)
                       (new_sub "t" "" NewServer)))
  ∧ (∃ w', PublishComment ["t"] "keep-alive" overtaken = Done tt w'
           ∧ heap w' !! 0%nat
             = Some (with_cout (Go.Chan ["keep-alive"] 128 false)
                       (new_sub "t" "" NewServer))).
Proof.
  split; [by vm_compute |]. split; [by vm_compute |].
  split; [by vm_compute |]. split; [by vm_compute |].
  split; [by vm_compute |]. split.
  { eexists. split; [by vm_compute |]. by split. }
  split; [by vm_compute |]. split.
  - eexists. split; by vm_compute.
  - eexists. split; by vm_compute.
Qed.

(** C6: CloseChannel does destroy the subscribers of the channel and mark it
    dead, but a Subscribe that reaches run after it is still given a live
    handle.
    With one handler streaming "t" (subscription 0) and a second request for
    "t" whose handler has read the flags and created subscription 1
    (server.go:74-99), CloseChannel("t") completes: subscription 0 has both
    queues closed, the subscriber set of "t" is empty and "t" is marked
    dead.  The second handler then sends its subscription on srv.subs
    (server.go:100): run admits it without reading srv.deadChannels
    (server.go:212-216), so that subscription 1 is in the subscriber set of
    the dead channel with both queues open, and the next Publish to "t" is
    delivered to it. *)
Theorem Subscribe_after_CloseChannel_is_live :
  exec second_request_ops NewServer = Done tt second_request
  ∧ subscribers "t" second_request = {[0%nat]}
  ∧ is_open 0%nat second_request ∧ is_open 1%nat second_request
  ∧ ∃ w1 w2 w3,
      CloseChannel "t" second_request = Done tt w1
      ∧ destroyed 0%nat w1
      ∧ subscribers "t" w1 = ∅
      ∧ channel_dead "t" w1 = true
      ∧ step (HandlerSend 1%nat) w1 = Done tt w2
      ∧ Handler_send 1%nat w1 = Done tt w2
      ∧ dead (srv w2) = false
      ∧ channel_dead "t" w2 = true
      ∧ subscribers "t" w2 = {[1%nat]}
      ∧ is_open 1%nat w2
      ∧ Publish ["t"] (tick "A") w2 = Done tt w3
      ∧ heap w3 !! 1%nat
        = Some (with_out (Go.Chan [tick "A"] 128 false)
                  (new_sub "t" "" NewServer)).
Proof.
  split; [by vm_compute |]. split; [by vm_compute |].
  split.
  { eexists. split; [by vm_compute |]. by split. }
  split.
  { eexists. split; [by vm_compute |]. by split. }
  eexists. eexists. eexists.
  split; [by vm_compute |].
  split.
  { eexists. split; [by vm_compute |]. by split. }
  split; [by vm_compute |]. split; [by vm_compute |].
  split; [by vm_compute |]. split; [by vm_compute |].
  split; [by vm_compute |]. split; [by vm_compute |].
  split; [by vm_compute |].
  split.
  { eexists. split; [by vm_compute |]. by split. }
  split; by vm_compute.
Qed.

(** C5: when the subscription is destroyed while its replay goroutine still
    has events to forward, the next [sub.out <- ev] of the goroutine panics. *)
Theorem replay_into_destroyed_panics :
  exec replay_ops NewServer = Done tt mid_replay
  ∧ replays mid_replay = [{| target := 0%nat; pending := [tick "7"] |}]
  ∧ destroyed 0%nat mid_replay
  ∧ replay 0%nat mid_replay = Panicked Go.SendOnClosedChannel.
Proof.
  split; [by vm_compute |]. split; [by vm_compute |]. split.
  { eexists. split; [by vm_compute |]. by split. }
  by vm_compute.
Qed.

(** ** The theorems at concrete hubs *)

Lemma exec_new_reachable ops w :
  exec ops NewServer = Done tt w → reachable w.
Proof. apply exec_reachable, reachable_new. Qed.

Lemma one_sub_reachable : reachable one_sub.
Proof. apply (exec_new_reachable [DoRequest "t" ""]). by vm_compute. Qed.

Lemma with_news_reachable : reachable with_news.
Proof.
  apply (exec_new_reachable [DoRegister "news" news]). by vm_compute.
Qed.

Lemma Handler_replays_iff_witness :
  ∃ w', Handler "news" "5" with_news = Done (EventStream 0%nat) w'
        ∧ 0%nat ∈ subscribers "news" w' ∧ is_open 0%nat w'
        ∧ replays w' = replays with_news ++
            [{| target := 0%nat; pending := [tick "6"; tick "7"] |}].
Proof.
  eexists. split; [by vm_compute |].
  destruct (proj2 (Handler_replays_iff with_news) "news" "5" 0%nat _ eq_refl)
    as (Hin & Hopen & _ & Hyes & _).
  split; [exact Hin |]. split; [exact Hopen |].
  apply (Hyes news); [by right | by vm_compute].
Defined.

Lemma Publish_channel_isolation_witness :
  ends_in (Publish ["a"] (tick "1") two_channels) published_to_a
  ∧ (∀ s, (∀ c, c ∈ ["a"] → s ∉ subscribers c two_channels) →
          heap published_to_a !! s = heap two_channels !! s)
  ∧ (reachable two_channels →
     ∀ b s, s ∈ subscribers b two_channels → b ∉ ["a"] →
            heap published_to_a !! s = heap two_channels !! s).
Proof.
  assert (H : ends_in (Publish ["a"] (tick "1") two_channels) published_to_a).
  { right. exists tt. by vm_compute. }
  split; [exact H |].
  exact (Publish_channel_isolation two_channels ["a"] (tick "1")
           published_to_a H).
Defined.

Lemma queues_have_BufferSize_witness :
  Handler "t" "" NewServer = Done (EventStream 0%nat) one_sub
  ∧ ∃ sub, heap one_sub !! 0%nat = Some sub
           ∧ Go.cap (out sub) = BufferSize (srv NewServer)
           ∧ Go.cap (cout sub) = BufferSize (srv NewServer)
           ∧ Go.buf (out sub) = [] ∧ Go.buf (cout sub) = [].
Proof.
  assert (H : Handler "t" "" NewServer = Done (EventStream 0%nat) one_sub)
    by by vm_compute.
  split; [exact H |].
  exact (proj2 queues_have_BufferSize NewServer "t" "" 0%nat one_sub H).
Defined.

Lemma Unregister_unlisted_witness :
  heap unlisted !! 0%nat = Some (new_sub "t" "" NewServer)
  ∧ run.subs (locals unlisted) !! "t" = None
  ∧ ∃ w', run (Unregister 0%nat) unlisted = Done tt w'
          ∧ destroyed 0%nat w'
          ∧ run.subs (locals w') = run.subs (locals unlisted)
          ∧ run.repos (locals w') = run.repos (locals unlisted)
          ∧ deadChannels (srv w') = deadChannels (srv unlisted)
          ∧ srv w' = srv unlisted
          ∧ ∀ s', s' ≠ 0%nat → heap w' !! s' = heap unlisted !! s'.
Proof.
  assert (H : heap unlisted !! 0%nat = Some (new_sub "t" "" NewServer))
    by by vm_compute.
  split; [exact H |]. split; [by vm_compute |].
  apply (Unregister_unlisted unlisted 0%nat (new_sub "t" "" NewServer) H).
  - reflexivity.
  - reflexivity.
  - by vm_compute.
Defined.

(** ** The two delivery paths of a subscription *)

Lemma event_lane_ok : lane_ok event_lane.
Proof.
  split.
  - intros x s w. simpl. unfold offer_event, mbind, M_bind, load.
    destruct (heap w !! s) as [sub |]; [| done].
    by destruct (Go.send (out sub) x).
  - done.
  - intros c sub Hc. unfold shape. simpl in *. by rewrite Hc.
  - intros sub c [= _ H _]. done.
Qed.

Lemma comment_lane_ok : lane_ok comment_lane.
Proof.
  split.
  - intros x s w. simpl. unfold offer_comment, mbind, M_bind, load.
    destruct (heap w !! s) as [sub |]; [| done].
    by destruct (Go.send (cout sub) x).
  - done.
  - intros c sub Hc. unfold shape. simpl in *. by rewrite Hc.
  - intros sub c [= _ _ H]. done.
Qed.

Lemma full_free_slots w :
  Go.full (unregister (srv w)) = false ↔ 0 < free_slots w.
Proof.
  unfold Go.full, free_slots. rewrite Z.leb_gt. lia.
Qed.

Lemma filter_ext_in {B} (P Q : B → Prop)
    `{∀ x, Decision (P x)} `{∀ x, Decision (Q x)} (l : list B) :
  (∀ x, x ∈ l → (P x ↔ Q x)) → filter P l = filter Q l.
Proof.
  induction l as [| x l IH]; intros Hext; [done |].
  rewrite !filter_cons.
  rewrite IH by (intros y Hy; apply Hext; by right).
  destruct (decide (P x)) as [HP | HP].
  - rewrite decide_True; [done |]. apply Hext; [by left | done].
  - rewrite decide_False; [done |]. intros HQ. apply HP.
    apply Hext; [by left | done].
Qed.

Section lane.
Context {A : Type} (L : lane A) (HL : lane_ok L).

Lemma offer_free x s w sub :
  heap w !! s = Some sub →
  Go.closed (queue L sub) = false → Go.full (queue L sub) = false →
  offer L x s w = Done tt (offered L x w s).
Proof.
  intros Hs Hc Hf. rewrite (offer_unfold L HL), Hs. unfold offered.
  rewrite Hs, Hf. unfold Go.send, enqueued. by rewrite Hc, Hf.
Qed.

Lemma offer_full x s w sub :
  heap w !! s = Some sub →
  Go.closed (queue L sub) = false → Go.full (queue L sub) = true →
  Go.closed (unregister (srv w)) = false →
  offer L x s w
  = if Go.full (unregister (srv w)) then Blocked w
    else Done tt (offered L x w s).
Proof.
  intros Hs Hc Hf Hu. rewrite (offer_unfold L HL), Hs. unfold offered.
  rewrite Hs, Hf. unfold Go.send. rewrite Hc, Hf.
  unfold unregister_from_run, Go.send, enqueued. rewrite Hu.
  by destruct (Go.full (unregister (srv w))).
Qed.

Lemma offered_heap_ne x w s s' :
  s ≠ s' → heap (offered L x w s) !! s' = heap w !! s'.
Proof.
  intros Hne. unfold offered. destruct (heap w !! s) as [sub |]; [| done].
  destruct (Go.full (queue L sub)); [done |]. simpl.
  by rewrite lookup_insert_ne.
Qed.

Lemma offered_is_full_ne x w s s' :
  s ≠ s' → is_full L (offered L x w s) s' = is_full L w s'.
Proof. intros Hne. unfold is_full. by rewrite offered_heap_ne. Qed.

Lemma offered_evolves x w s :
  (∀ sub, heap w !! s = Some sub → Go.closed (queue L sub) = false) →
  evolves w (offered L x w s).
Proof.
  intros Hopen. unfold offered. destruct (heap w !! s) as [sub |] eqn:Hs;
    [| done].
  destruct (Go.full (queue L sub)).
  - by apply evolves_unregister.
  - apply evolves_store with sub; [done |]. by apply (lane_shape L HL).
Qed.

Lemma offered_free_slots x w s :
  free_slots (offered L x w s)
  = if is_full L w s then free_slots w - 1 else free_slots w.
Proof.
  unfold offered, is_full. destruct (heap w !! s) as [sub |]; [| done].
  destruct (Go.full (queue L sub)); [| done].
  unfold free_slots. simpl. rewrite length_app. simpl. lia.
Qed.

Lemma filter_full_ext x w s (l : list sub_ptr) :
  s ∉ l →
  filter (λ s', is_full L (offered L x w s) s' = true) l
  = filter (λ s', is_full L w s' = true) l.
Proof.
  intros Hs. apply filter_ext_in. intros s' Hs'.
  rewrite offered_is_full_ne; [done |]. by intros ->.
Qed.

Lemma lane_open_in_offered x w s l :
  s ∉ l → lane_open_in L w l → lane_open_in L (offered L x w s) l.
Proof.
  intros Hs Hopen s' Hs'. rewrite offered_heap_ne; [by apply Hopen |].
  by intros ->.
Qed.

Lemma offered_unregister_closed x w s :
  Go.closed (unregister (srv (offered L x w s)))
  = Go.closed (unregister (srv w)).
Proof.
  unfold offered. destruct (heap w !! s) as [sub |]; [| done].
  by destruct (Go.full (queue L sub)).
Qed.

Lemma offer_loop_Done x l w :
  NoDup l → lane_open_in L w l →
  Go.closed (unregister (srv w)) = false →
  Z.of_nat (length (filter (λ s, is_full L w s = true) l)) ≤ free_slots w →
  for_each l (offer L x) w = Done tt (foldl (offered L x) w l).
Proof.
  revert w. induction l as [| s l IH]; intros w Hnd Hopen Hu Hroom; [done |].
  apply NoDup_cons in Hnd as [Hs Hnd].
  destruct (Hopen s) as (sub & Hsub & Hc); [by left |].
  assert (Hstep : offer L x s w = Done tt (offered L x w s)
                  ∧ Z.of_nat (length (filter (λ s', is_full L w s' = true) l))
                    ≤ free_slots (offered L x w s)).
  { assert (Hfull : is_full L w s = Go.full (queue L sub))
      by (unfold is_full; by rewrite Hsub).
    rewrite offered_free_slots, Hfull. rewrite filter_cons, Hfull in Hroom.
    destruct (Go.full (queue L sub)) eqn:Hf.
    - rewrite decide_True in Hroom by done. simpl in Hroom.
      rewrite (offer_full _ _ _ _ Hsub Hc Hf Hu).
      rewrite (proj2 (full_free_slots w)) by lia. split; [done | lia].
    - rewrite decide_False in Hroom by done.
      by rewrite (offer_free _ _ _ _ Hsub Hc Hf). }
  destruct Hstep as [Hoffer Hroom']. cbn [for_each foldl].
  rewrite (bind_Done _ _ w tt (offered L x w s)) by done.
  apply IH.
  - done.
  - apply lane_open_in_offered; [done |].
    intros s' Hs'. apply Hopen. by right.
  - by rewrite offered_unregister_closed.
  - by rewrite filter_full_ext.
Qed.

Lemma offer_loop_Blocked x l w :
  NoDup l → lane_open_in L w l →
  Go.closed (unregister (srv w)) = false →
  0 ≤ free_slots w →
  free_slots w < Z.of_nat (length (filter (λ s, is_full L w s = true) l)) →
  ∃ w', for_each l (offer L x) w = Blocked w'.
Proof.
  revert w. induction l as [| s l IH]; intros w Hnd Hopen Hu Hpos Hroom.
  { simpl in Hroom. lia. }
  apply NoDup_cons in Hnd as [Hs Hnd].
  destruct (Hopen s) as (sub & Hsub & Hc); [by left |].
  rewrite filter_cons in Hroom. cbn [for_each].
  assert (Hrest : offer L x s w = Done tt (offered L x w s) →
            0 ≤ free_slots (offered L x w s) →
            free_slots (offered L x w s)
            < Z.of_nat (length (filter (λ s', is_full L w s' = true) l)) →
            ∃ w', (offer L x s;; for_each l (offer L x)) w = Blocked w').
  { intros Hoffer Hpos' Hlt. rewrite (bind_Done _ _ w tt _ Hoffer).
    apply IH.
    - done.
    - apply lane_open_in_offered; [done |].
      intros s' Hs'. apply Hopen. by right.
    - by rewrite offered_unregister_closed.
    - done.
    - by rewrite filter_full_ext. }
  assert (Hfull : is_full L w s = Go.full (queue L sub))
    by (unfold is_full; by rewrite Hsub).
  rewrite Hfull in Hroom. rewrite offered_free_slots, Hfull in Hrest.
  destruct (Go.full (queue L sub)) eqn:Hf.
  - rewrite decide_True in Hroom by done. simpl in Hroom.
    pose proof (offer_full x _ _ _ Hsub Hc Hf Hu) as Hoffer.
    destruct (Go.full (unregister (srv w))) eqn:Hfu.
    + exists w. unfold mbind, M_bind. by rewrite Hoffer.
    + apply full_free_slots in Hfu. apply Hrest; [done | lia | lia].
  - rewrite decide_False in Hroom by done.
    apply Hrest; [by apply (offer_free x s w sub) | done | done].
Qed.

Lemma offered_all_heap_notin x l w s :
  s ∉ l → heap (foldl (offered L x) w l) !! s = heap w !! s.
Proof.
  revert w. induction l as [| s' l IH]; intros w Hs; [done |].
  apply not_elem_of_cons in Hs as [Hne Hs]. cbn [foldl].
  rewrite IH by done. by apply offered_heap_ne.
Qed.

Lemma offered_all_heap_in x l w s sub :
  NoDup l → s ∈ l → heap w !! s = Some sub →
  heap (foldl (offered L x) w l) !! s
  = Some (if Go.full (queue L sub) then sub
          else with_queue L (enqueued x (queue L sub)) sub).
Proof.
  revert w. induction l as [| s' l IH]; intros w Hnd Hs Hsub.
  { by apply elem_of_nil in Hs. }
  apply NoDup_cons in Hnd as [Hs' Hnd]. cbn [foldl].
  apply elem_of_cons in Hs as [-> | Hs].
  - rewrite offered_all_heap_notin by done. unfold offered. rewrite Hsub.
    destruct (Go.full (queue L sub)); [done |]. simpl.
    by rewrite lookup_insert_eq.
  - apply IH; [done | done |]. rewrite offered_heap_ne; [done |].
    by intros ->.
Qed.

Lemma offered_all_unregister x l w :
  NoDup l →
  Go.buf (unregister (srv (foldl (offered L x) w l)))
  = Go.buf (unregister (srv w)) ++ filter (λ s, is_full L w s = true) l.
Proof.
  revert w. induction l as [| s l IH]; intros w Hnd.
  { simpl. rewrite app_nil_r. reflexivity. }
  apply NoDup_cons in Hnd as [Hs Hnd]. cbn [foldl]. rewrite IH by done.
  rewrite filter_full_ext by done. rewrite filter_cons.
  assert (Hfull : is_full L w s
                  = match heap w !! s with
                    | Some sub => Go.full (queue L sub)
                    | None => false
                    end) by done.
  rewrite Hfull. unfold offered. destruct (heap w !! s) as [sub |].
  - destruct (Go.full (queue L sub)).
    + rewrite decide_True by done. simpl. by rewrite <- app_assoc.
    + by rewrite decide_False by done.
  - by rewrite decide_False by done.
Qed.

Lemma offered_all_rest x l w :
  lane_open_in L w l → NoDup l →
  locals (foldl (offered L x) w l) = locals w
  ∧ replays (foldl (offered L x) w l) = replays w
  ∧ running (foldl (offered L x) w l) = running w
  ∧ evolves w (foldl (offered L x) w l).
Proof.
  revert w. induction l as [| s l IH]; intros w Hopen Hnd; [done |].
  apply NoDup_cons in Hnd as [Hs Hnd]. cbn [foldl].
  destruct (IH (offered L x w s)) as (-> & -> & -> & Hev).
  { apply lane_open_in_offered; [done |]. intros s' Hs'. apply Hopen.
    by right. }
  { done. }
  assert (Hev1 : evolves w (offered L x w s)).
  { apply offered_evolves. intros sub Hsub.
    destruct (Hopen s) as (sub' & Hsub' & Hc); [by left |]. congruence. }
  split; [| split; [| split]].
  - unfold offered. destruct (heap w !! s) as [sub |]; [| done].
    by destruct (Go.full (queue L sub)).
  - unfold offered. destruct (heap w !! s) as [sub |]; [| done].
    by destruct (Go.full (queue L sub)).
  - apply Hev1.
  - by trans (offered L x w s).
Qed.

End lane.

(** ** Queues stay within their capacity *)

#[global] Instance keeps_bounded_preorder : PreOrder keeps_bounded.
Proof.
  split.
  - intros w H. exact H.
  - intros w1 w2 w3 H1 H2 H. by apply H2, H1.
Qed.

Lemma within_capacity_sent {A} (c c' : Go.chan A) x :
  Go.send c x = Go.Sent c' → within_capacity c' ∧ Go.cap c' = Go.cap c.
Proof.
  intros H. apply send_Sent in H as (_ & _ & Hcap & Hbuf & Hfull).
  split; [| done]. unfold within_capacity, Go.full in *.
  rewrite Hbuf, Hcap, length_app. simpl. apply Z.leb_gt in Hfull. lia.
Qed.

Lemma within_capacity_recv {A} (c c' : Go.chan A) x :
  Go.recv c = Some (x, c') → within_capacity c →
  within_capacity c' ∧ Go.cap c' = Go.cap c.
Proof.
  intros H Hc. apply recv_Some in H as (_ & Hcap & Hbuf).
  split; [| done]. unfold within_capacity in *.
  rewrite Hbuf in Hc. simpl in Hc. lia.
Qed.

Lemma bounded_store w s sub' :
  within_capacity (out sub') → within_capacity (cout sub') →
  bounded w → bounded (with_heap (<[s := sub']> (heap w)) w).
Proof.
  intros Ho Hc [H1 H2 H3 H4]. split; try done.
  - intros s' sub Hs. simpl in Hs. destruct (decide (s = s')) as [<- | Hne].
    + rewrite lookup_insert_eq in Hs. by injection Hs as <-.
    + rewrite lookup_insert_ne in Hs by done. by eapply H1.
  - intros s' sub Hs. simpl in Hs. destruct (decide (s = s')) as [<- | Hne].
    + rewrite lookup_insert_eq in Hs. by injection Hs as <-.
    + rewrite lookup_insert_ne in Hs by done. by eapply H2.
Qed.

Lemma bounded_with_unregister w c :
  within_capacity c → Go.cap c = 2 →
  bounded w → bounded (with_srv (with_unregister c (srv w)) w).
Proof. intros Hc Hcap [H1 H2 H3 H4]. by split. Qed.

Lemma unregister_from_run_bounded s :
  respects keeps_bounded (unregister_from_run s).
Proof.
  intros w w' H Hb. unfold unregister_from_run in H.
  destruct (Go.send _ _) as [c | | p] eqn:Hsend.
  - apply ends_in_Done in H. subst.
    apply within_capacity_sent in Hsend as [Hc Hcap].
    apply bounded_with_unregister; [done | | done].
    rewrite Hcap. apply Hb.
  - apply ends_in_Blocked in H. by subst.
  - by apply ends_in_Panicked in H.
Qed.

Lemma offer_event_bounded ev s : respects keeps_bounded (offer_event ev s).
Proof.
  intros w w' H Hb. unfold offer_event, mbind, M_bind, load in H.
  destruct (heap w !! s) as [sub |] eqn:Hs; [| by apply ends_in_Panicked in H].
  destruct (Go.send _ _) as [c | | p] eqn:Hsend.
  - apply ends_in_Done in H. subst.
    apply within_capacity_sent in Hsend as [Hc _].
    apply bounded_store; [done | | done]. simpl. by eapply bounded_cout.
  - by apply (unregister_from_run_bounded s w w').
  - by apply ends_in_Panicked in H.
Qed.

Lemma offer_comment_bounded cmt s :
  respects keeps_bounded (offer_comment cmt s).
Proof.
  intros w w' H Hb. unfold offer_comment, mbind, M_bind, load in H.
  destruct (heap w !! s) as [sub |] eqn:Hs; [| by apply ends_in_Panicked in H].
  destruct (Go.send _ _) as [c | | p] eqn:Hsend.
  - apply ends_in_Done in H. subst.
    apply within_capacity_sent in Hsend as [Hc _].
    apply bounded_store; [| done | done]. simpl. by eapply bounded_out.
  - by apply (unregister_from_run_bounded s w w').
  - by apply ends_in_Panicked in H.
Qed.

Lemma destroy_bounded s : respects keeps_bounded (destroy s).
Proof.
  intros w w' H Hb. rewrite destroy_eq in H.
  destruct (heap w !! s) as [sub |] eqn:Hs; [| by apply ends_in_Panicked in H].
  destruct (_ || _); [by apply ends_in_Panicked in H |].
  apply ends_in_Done in H. subst. apply bounded_store; [| | done].
  - pose proof (bounded_out _ Hb s sub Hs) as Ho. exact Ho.
  - pose proof (bounded_cout _ Hb s sub Hs) as Hc. exact Hc.
Qed.

Lemma respects_range_subs_all (R : relation world) `{!PreOrder R} c body :
  (∀ s, respects R (body s)) → respects R (range_subs c body).
Proof.
  intros Hb w w' H. unfold range_subs in H.
  eapply (respects_for_each R); [| exact H]. intros s _. apply Hb.
Qed.

Lemma delete_sub_bounded c s : respects keeps_bounded (delete_sub c s).
Proof.
  apply respects_modify. intros w [H1 H2 H3 H4]. by split.
Qed.

Lemma close_all_unregister v v' :
  close_all v = inr v' →
  Go.buf (unregister v') = Go.buf (unregister v)
  ∧ Go.cap (unregister v') = Go.cap (unregister v).
Proof.
  unfold close_all, Go.close.
  destruct (Go.closed (registrations v)); [discriminate |].
  destruct (Go.closed (pub v)); [discriminate |].
  destruct (Go.closed (comments v)); [discriminate |].
  destruct (Go.closed (subs v)); [discriminate |].
  destruct (Go.closed (unregister v)); [discriminate |].
  destruct (Go.closed (quit v)); [discriminate |].
  destruct (Go.closed (kill v)); [discriminate |].
  by intros [= <-].
Qed.

Lemma run_bounded m : respects keeps_bounded (run m).
Proof.
  destruct m as [reg | s | p | cmt | die | s |]; simpl.
  - apply respects_modify. intros w [H1 H2 H3 H4]. by split.
  - apply respects_bind; [apply _ | apply destroy_bounded |]. intros _.
    apply respects_bind; [apply _ | apply (respects_load keeps_bounded) |].
    intros sub.
    apply delete_sub_bounded.
  - apply respects_for_each; [apply _ |]. intros c _.
    apply respects_range_subs_all; [apply _ |]. apply offer_event_bounded.
  - apply respects_for_each; [apply _ |]. intros c _.
    apply respects_range_subs_all; [apply _ |]. apply offer_comment_bounded.
  - apply respects_bind; [apply _ | |].
    + apply respects_range_subs_all; [apply _ |]. intros s.
      apply respects_bind; [apply _ | apply destroy_bounded |]. intros _.
      apply delete_sub_bounded.
    + intros _. apply respects_modify.
      intros w [H1 H2 H3 H4]. by split.
  - intros w w' H Hb. destruct (heap w !! s) as [sub |] eqn:Hs.
    + pose proof (run_Subs_eq s sub w Hs) as Heq. simpl in Heq.
      rewrite Heq in H. apply ends_in_Done in H. subst.
      destruct Hb as [H1 H2 H3 H4].
      split; rewrite ?heap_admitted, ?srv_admitted; done.
    + pose proof (run_Subs_nil s w Hs) as Heq. simpl in Heq.
      rewrite Heq in H. by apply ends_in_Panicked in H.
  - intros w w' H Hb.
    apply bind_ends_in in H as [H | (w0 & w1 & H0 & H)].
    { apply ends_in_Done in H. by subst. }
    injection H0 as <- <-.
    apply bind_ends_in in H as [H | ([] & w2 & Hloop & H)].
    { revert Hb. eapply (respects_for_each keeps_bounded); [| exact H].
      intros cs _. apply respects_for_each; [apply _ |].
      intros s _. apply destroy_bounded. }
    assert (Hb2 : bounded w2).
    { revert Hb. eapply (respects_for_each keeps_bounded);
        [| right; eexists; exact Hloop].
      intros cs _. apply respects_for_each; [apply _ |].
      intros s _. apply destroy_bounded. }
    unfold mbind, M_bind, get, lift, put in H.
    destruct (close_all (srv w2)) as [p | v] eqn:Hclose;
      [by apply ends_in_Panicked in H |].
    apply ends_in_Done in H. subst.
    assert (Hu : Go.buf (unregister v) = Go.buf (unregister (srv w2))
                 ∧ Go.cap (unregister v) = Go.cap (unregister (srv w2))).
    { by apply close_all_unregister. }
    destruct Hu as [Hbuf Hcap]. destruct Hb2 as [H1 H2 H3 H4].
    split; try done.
    + unfold within_capacity in *. simpl. by rewrite Hbuf, Hcap.
    + simpl. by rewrite Hcap.
Qed.

Lemma bounded_allocated c lid w :
  out_of_range (BufferSize (srv w)) = false →
  bounded w → bounded (allocated c lid w).
Proof.
  intros Hn Hb. apply out_of_range_false in Hn.
  apply bounded_store; [| | done].
  - unfold within_capacity. simpl. lia.
  - unfold within_capacity. simpl. lia.
Qed.

Lemma bounded_admitted s sub w : bounded w → bounded (admitted s sub w).
Proof.
  intros [H1 H2 H3 H4]. split; rewrite ?heap_admitted, ?srv_admitted; done.
Qed.

Lemma Handler_bounded c lid : respects keeps_bounded (Handler c lid).
Proof.
  intros w w' H Hb. rewrite Handler_eq in H.
  destruct (dead (srv w)); [apply ends_in_Done in H; by subst |].
  destruct (channel_dead c w); [apply ends_in_Done in H; by subst |].
  destruct (out_of_range _) eqn:Hn; [by apply ends_in_Panicked in H |].
  destruct (Go.closed (subs (srv w))); [by apply ends_in_Panicked in H |].
  destruct (running w).
  - apply ends_in_Done in H. subst. by apply bounded_admitted, bounded_allocated.
  - apply ends_in_Blocked in H. subst. by apply bounded_allocated.
Qed.

Lemma Handler_create_bounded c lid :
  respects keeps_bounded (Handler_create c lid).
Proof.
  intros w w' H Hb. rewrite Handler_create_eq in H.
  destruct (dead (srv w)); [apply ends_in_Done in H; by subst |].
  destruct (channel_dead c w); [apply ends_in_Done in H; by subst |].
  destruct (out_of_range _) eqn:Hn; [by apply ends_in_Panicked in H |].
  apply ends_in_Done in H. subst. by apply bounded_allocated.
Qed.

Lemma deliver_bounded {A} (ch : Server → Go.chan A) m :
  respects keeps_bounded (deliver ch m).
Proof.
  intros w w' H. apply deliver_ends_in in H as [-> | H]; [done |].
  by apply run_bounded in H.
Qed.

Lemma receive_event_bounded s : respects keeps_bounded (receive_event s).
Proof.
  intros w w' H Hb. unfold receive_event, mbind, M_bind, load in H.
  destruct (heap w !! s) as [sub |] eqn:Hs; [| by apply ends_in_Panicked in H].
  destruct (Go.recv _) as [[x c] |] eqn:Hrecv.
  - apply ends_in_Done in H. subst.
    apply within_capacity_recv in Hrecv as [Hc _]; [| by eapply bounded_out].
    apply bounded_store; [done | | done]. simpl. by eapply bounded_cout.
  - destruct (Go.closed (out sub)).
    + apply ends_in_Done in H. by subst.
    + apply ends_in_Blocked in H. by subst.
Qed.

Lemma receive_comment_bounded s : respects keeps_bounded (receive_comment s).
Proof.
  intros w w' H Hb. unfold receive_comment, mbind, M_bind, load in H.
  destruct (heap w !! s) as [sub |] eqn:Hs; [| by apply ends_in_Panicked in H].
  destruct (Go.recv _) as [[x c] |] eqn:Hrecv.
  - apply ends_in_Done in H. subst.
    apply within_capacity_recv in Hrecv as [Hc _]; [| by eapply bounded_cout].
    apply bounded_store; [| done | done]. simpl. by eapply bounded_out.
  - destruct (Go.closed (cout sub)).
    + apply ends_in_Done in H. by subst.
    + apply ends_in_Blocked in H. by subst.
Qed.

Lemma handler_unregister_bounded s :
  respects keeps_bounded (handler_unregister s).
Proof.
  intros w w' H Hb. unfold handler_unregister, mbind, M_bind, get in H.
  destruct (Go.send _ _) as [c | | p] eqn:Hsend.
  - apply ends_in_Done in H. subst.
    apply within_capacity_sent in Hsend as [Hc Hcap].
    apply bounded_with_unregister; [done | | done]. rewrite Hcap. apply Hb.
  - apply ends_in_Blocked in H. by subst.
  - by apply ends_in_Panicked in H.
Qed.

Lemma run_unregister_bounded : respects keeps_bounded run_unregister.
Proof.
  intros w w' H Hb. unfold run_unregister, mbind, M_bind, get in H.
  destruct (running w); [| apply ends_in_Blocked in H; by subst].
  destruct (Go.recv _) as [[s c] |] eqn:Hrecv;
    [| apply ends_in_Blocked in H; by subst].
  unfold put in H.
  apply within_capacity_recv in Hrecv as [Hc Hcap];
    [| apply Hb].
  eapply (run_bounded (Unregister s)); [exact H |].
  apply bounded_with_unregister; [done | | done]. rewrite Hcap. apply Hb.
Qed.

Lemma replay_bounded i : respects keeps_bounded (replay i).
Proof.
  intros w w' H Hb. unfold replay, mbind, M_bind, get in H.
  destruct (replays w !! i) as [t |];
    [| apply ends_in_Blocked in H; by subst].
  destruct (pending t) as [| ev rest]; [apply ends_in_Done in H; by subst |].
  unfold load in H. destruct (heap w !! target t) as [sub |] eqn:Hs;
    [| by apply ends_in_Panicked in H].
  destruct (Go.send _ _) as [c | | p] eqn:Hsend.
  - unfold store, modify in H. apply ends_in_Done in H. subst.
    apply within_capacity_sent in Hsend as [Hc _].
    assert (Hb1 : bounded (with_heap (<[target t := with_out c sub]> (heap w)) w)).
    { apply bounded_store; [done | | done]. simpl. by eapply bounded_cout. }
    destruct Hb1 as [H1 H2 H3 H4]. by split.
  - apply ends_in_Blocked in H. by subst.
  - by apply ends_in_Panicked in H.
Qed.

Lemma step_bounded o : respects keeps_bounded (step o).
Proof.
  destruct o; simpl.
  - apply respects_modify. intros w [H1 H2 H3 H4]. by split.
  - apply deliver_bounded.
  - apply respects_bind; [apply _ | apply Handler_bounded |].
    intros r. apply (respects_ret keeps_bounded).
  - apply deliver_bounded.
  - apply deliver_bounded.
  - apply deliver_bounded.
  - apply deliver_bounded.
  - apply receive_event_bounded.
  - apply receive_comment_bounded.
  - apply handler_unregister_bounded.
  - apply run_unregister_bounded.
  - apply replay_bounded.
  - apply respects_bind; [apply _ | apply Handler_create_bounded |].
    intros r. apply (respects_ret keeps_bounded).
  - apply respects_bind; [apply _ | apply (respects_load keeps_bounded) |].
    intros sub w w' H. unfold mbind, M_bind, get in H.
    destruct (unsent s sub w).
    + by apply deliver_bounded in H.
    + apply ends_in_Blocked in H. by subst.
Qed.

Lemma bounded_NewServer : bounded NewServer.
Proof.
  split; done.
Qed.

Lemma reachable_bounded w : reachable w → bounded w.
Proof.
  induction 1 as [| w o w' _ IH Hstep].
  - apply bounded_NewServer.
  - apply (step_bounded o w w'); [right; eauto | done].
Qed.

(** X14: in every state a program can reach, no event queue and no comment
    queue holds more values than its capacity, and srv.unregister holds at
    most the 2 requests of its capacity. *)
Theorem queues_within_capacity (w : world) :
  reachable w →
  (∀ s sub, heap w !! s = Some sub →
            Z.of_nat (length (Go.buf (out sub))) ≤ Go.cap (out sub)
            ∧ Z.of_nat (length (Go.buf (cout sub))) ≤ Go.cap (cout sub))
  ∧ (length (Go.buf (unregister (srv w))) ≤ 2)%nat.
Proof.
  intros Hreach. apply reachable_bounded in Hreach as Hb.
  split.
  - intros s sub Hs. split.
    + by apply (bounded_out _ Hb s).
    + by apply (bounded_cout _ Hb s).
  - pose proof (bounded_unregister _ Hb) as Hu.
    pose proof (unregister_cap _ Hb) as Hcap.
    unfold within_capacity in Hu. lia.
Qed.

(** ** The fan-out of a publish *)

Lemma bounded_free_slots w : bounded w → 0 ≤ free_slots w.
Proof.
  intros Hb. pose proof (bounded_unregister _ Hb) as Hu.
  unfold within_capacity, free_slots in *. lia.
Qed.

Section fanout.
Context {A : Type} (L : lane A) (HL : lane_ok L).

Lemma lane_open_in_subscribers c w :
  inv w → running w = true → lane_open_in L w (elements (subscribers c w)).
Proof.
  intros Hinv Hrun s Hs. apply elem_of_elements in Hs.
  pose proof (inv_subs _ Hinv Hrun _ _ Hs) as Hsh.
  destruct (heap w !! s) as [sub |]; [| done]. exists sub. split; [done |].
  apply (lane_open L HL sub c). simpl in Hsh. congruence.
Qed.

Lemma range_offer_Done x c w :
  inv w → running w = true →
  Z.of_nat (length (full_subscribers L c w)) ≤ free_slots w →
  range_subs c (offer L x) w = Done tt (fanned_out L x c w).
Proof.
  intros Hinv Hrun Hroom. unfold range_subs. apply (offer_loop_Done L HL).
  - apply NoDup_elements.
  - by apply lane_open_in_subscribers.
  - by apply inv_flags.
  - done.
Qed.

Lemma range_offer_Blocked x c w :
  inv w → running w = true → bounded w →
  free_slots w < Z.of_nat (length (full_subscribers L c w)) →
  ∃ w', range_subs c (offer L x) w = Blocked w'.
Proof.
  intros Hinv Hrun Hb Hroom. unfold range_subs.
  apply (offer_loop_Blocked L HL).
  - apply NoDup_elements.
  - by apply lane_open_in_subscribers.
  - by apply inv_flags.
  - by apply bounded_free_slots.
  - done.
Qed.

Lemma fanned_out_evolves x c w :
  inv w → running w = true → evolves w (fanned_out L x c w).
Proof.
  intros Hinv Hrun. apply (offered_all_rest L HL).
  - by apply lane_open_in_subscribers.
  - apply NoDup_elements.
Qed.

Lemma fanned_out_locals x c w :
  inv w → running w = true → locals (fanned_out L x c w) = locals w.
Proof.
  intros Hinv Hrun. apply (offered_all_rest L HL).
  - by apply lane_open_in_subscribers.
  - apply NoDup_elements.
Qed.

Lemma fanned_out_replays x c w :
  inv w → running w = true → replays (fanned_out L x c w) = replays w.
Proof.
  intros Hinv Hrun. apply (offered_all_rest L HL).
  - by apply lane_open_in_subscribers.
  - apply NoDup_elements.
Qed.

Lemma fanned_out_subscriber x c w s sub :
  s ∈ subscribers c w → heap w !! s = Some sub →
  heap (fanned_out L x c w) !! s
  = Some (if Go.full (queue L sub) then sub
          else with_queue L (enqueued x (queue L sub)) sub).
Proof.
  intros Hs Hsub. apply (offered_all_heap_in L).
  - apply NoDup_elements.
  - by apply elem_of_elements.
  - done.
Qed.

Lemma fanned_out_other x c w s :
  s ∉ subscribers c w → heap (fanned_out L x c w) !! s = heap w !! s.
Proof.
  intros Hs. apply (offered_all_heap_notin L). by rewrite elem_of_elements.
Qed.

Lemma fanned_out_unregister x c w :
  Go.buf (unregister (srv (fanned_out L x c w)))
  = Go.buf (unregister (srv w)) ++ full_subscribers L c w.
Proof. apply (offered_all_unregister L). apply NoDup_elements. Qed.

Lemma full_subscribers_spec c w :
  NoDup (full_subscribers L c w)
  ∧ ∀ s, s ∈ full_subscribers L c w
         ↔ s ∈ subscribers c w ∧ is_full L w s = true.
Proof.
  split.
  - apply NoDup_filter, NoDup_elements.
  - intros s. unfold full_subscribers.
    rewrite list_elem_of_filter, elem_of_elements. tauto.
Qed.

End fanout.

Lemma Publish_one_live c cs ev w :
  inv w → running w = true →
  Publish (c :: cs) ev w
  = (range_subs c (offer event_lane ev);;
     for_each cs (λ c, range_subs c (offer event_lane ev))) w.
Proof.
  intros Hinv Hrun. unfold Publish. rewrite deliver_live; [done | | done].
  by apply inv_flags.
Qed.

Lemma PublishComment_one_live c cs cmt w :
  inv w → running w = true →
  PublishComment (c :: cs) cmt w
  = (range_subs c (offer comment_lane cmt);;
     for_each cs (λ c, range_subs c (offer comment_lane cmt))) w.
Proof.
  intros Hinv Hrun. unfold PublishComment.
  rewrite deliver_live; [done | | done]. by apply inv_flags.
Qed.

(** X1: on a reachable hub that is not shut down, whose subscribers of c have
    event queues of capacity at least 1, when srv.unregister has a free slot
    for every subscriber of c whose event queue is full, Publish([c], ev)
    completes; ev is appended to the event queue of every subscriber of c
    that has a free slot; a subscriber whose queue is full keeps its record
    and is sent, once, on srv.unregister behind the requests already there;
    no other subscription is written to and no subscriber set, repository or
    replay goroutine changes. *)
Theorem Publish_delivers (w : world) (c : string) (ev : Event) :
  reachable w → dead (srv w) = false →
  buffered event_lane c w →
  Z.of_nat (length (full_subscribers event_lane c w)) ≤ free_slots w →
  ∃ w', Publish [c] ev w = Done tt w'
        ∧ (∀ s sub, s ∈ subscribers c w → heap w !! s = Some sub →
             heap w' !! s
             = Some (if Go.full (out sub) then sub
                     else with_out (enqueued ev (out sub)) sub))
        ∧ (∀ s, s ∉ subscribers c w → heap w' !! s = heap w !! s)
        ∧ (∃ fulls,
             Go.buf (unregister (srv w'))
             = Go.buf (unregister (srv w)) ++ fulls
             ∧ NoDup fulls
             ∧ ∀ s, s ∈ fulls
                    ↔ s ∈ subscribers c w ∧ is_full event_lane w s = true)
        ∧ locals w' = locals w ∧ replays w' = replays w.
Proof.
  intros Hreach Hd _ Hroom. apply reachable_inv in Hreach as Hinv.
  pose proof (inv_running _ Hinv Hd) as Hrun.
  exists (fanned_out event_lane ev c w).
  split; [| split; [| split; [| split; [| split]]]].
  - rewrite Publish_one_live by done.
    by rewrite (bind_Done _ _ w tt _
                  (range_offer_Done _ event_lane_ok ev c w Hinv Hrun Hroom)).
  - intros s sub Hs Hsub.
    by apply (fanned_out_subscriber event_lane ev c w s sub).
  - intros s Hs. by apply fanned_out_other.
  - exists (full_subscribers event_lane c w). split.
    + apply fanned_out_unregister.
    + apply full_subscribers_spec.
  - by apply (fanned_out_locals _ event_lane_ok).
  - by apply (fanned_out_replays _ event_lane_ok).
Qed.

(** X3: the same fan-out for comments: on a reachable hub that is not shut
    down, whose subscribers of c have comment queues of capacity at least 1,
    when srv.unregister has a free slot for every subscriber of c whose
    comment queue is full, PublishComment([c], cmt) completes, appends cmt to
    the comment queue of every subscriber of c that has a free slot and sends
    the others on srv.unregister. *)
Theorem PublishComment_delivers (w : world) (c : string) (cmt : string) :
  reachable w → dead (srv w) = false →
  buffered comment_lane c w →
  Z.of_nat (length (full_subscribers comment_lane c w)) ≤ free_slots w →
  ∃ w', PublishComment [c] cmt w = Done tt w'
        ∧ (∀ s sub, s ∈ subscribers c w → heap w !! s = Some sub →
             heap w' !! s
             = Some (if Go.full (cout sub) then sub
                     else with_cout (enqueued cmt (cout sub)) sub))
        ∧ (∀ s, s ∉ subscribers c w → heap w' !! s = heap w !! s)
        ∧ (∃ fulls,
             Go.buf (unregister (srv w'))
             = Go.buf (unregister (srv w)) ++ fulls
             ∧ NoDup fulls
             ∧ ∀ s, s ∈ fulls
                    ↔ s ∈ subscribers c w ∧ is_full comment_lane w s = true)
        ∧ locals w' = locals w ∧ replays w' = replays w.
Proof.
  intros Hreach Hd _ Hroom. apply reachable_inv in Hreach as Hinv.
  pose proof (inv_running _ Hinv Hd) as Hrun.
  exists (fanned_out comment_lane cmt c w).
  split; [| split; [| split; [| split; [| split]]]].
  - rewrite PublishComment_one_live by done.
    by rewrite (bind_Done _ _ w tt _
                  (range_offer_Done _ comment_lane_ok cmt c w Hinv Hrun Hroom)).
  - intros s sub Hs Hsub.
    by apply (fanned_out_subscriber comment_lane cmt c w s sub).
  - intros s Hs. by apply fanned_out_other.
  - exists (full_subscribers comment_lane c w). split.
    + apply fanned_out_unregister.
    + apply full_subscribers_spec.
  - by apply (fanned_out_locals _ comment_lane_ok).
  - by apply (fanned_out_replays _ comment_lane_ok).
Qed.

(** X2: on a reachable hub that is not shut down, when the subscribers of the
    first channel named have event queues of capacity at least 1 and more of
    them have a full event queue than srv.unregister has free slots, the
    publish case of run blocks in its own send on srv.unregister and does
    not complete; likewise PublishComment with the comment queues. *)
Theorem Publish_blocks_when_unregister_is_short
    (w : world) (c : string) (cs : list string) :
  reachable w → dead (srv w) = false →
  (buffered event_lane c w →
   free_slots w < Z.of_nat (length (full_subscribers event_lane c w)) →
   ∀ ev, ∃ w', Publish (c :: cs) ev w = Blocked w')
  ∧ (buffered comment_lane c w →
     free_slots w < Z.of_nat (length (full_subscribers comment_lane c w)) →
     ∀ cmt, ∃ w', PublishComment (c :: cs) cmt w = Blocked w').
Proof.
  intros Hreach Hd. apply reachable_inv in Hreach as Hinv.
  apply reachable_bounded in Hreach as Hb.
  pose proof (inv_running _ Hinv Hd) as Hrun.
  split.
  - intros _ Hroom ev.
    destruct (range_offer_Blocked _ event_lane_ok ev c w Hinv Hrun Hb Hroom)
      as [w' Hw'].
    exists w'. rewrite Publish_one_live by done.
    unfold mbind, M_bind. by rewrite Hw'.
  - intros _ Hroom cmt.
    destruct (range_offer_Blocked _ comment_lane_ok cmt c w Hinv Hrun Hb Hroom)
      as [w' Hw'].
    exists w'. rewrite PublishComment_one_live by done.
    unfold mbind, M_bind. by rewrite Hw'.
Qed.

Section fanout_total.
Context {A : Type} (L : lane A) (HL : lane_ok L).
Context (HB : ∀ x s, respects keeps_bounded (offer L x s)).

Lemma fanout_ends x cs w :
  inv w → running w = true → bounded w →
  ∃ w', ends_in (for_each cs (λ c, range_subs c (offer L x)) w) w'.
Proof.
  revert w. induction cs as [| c cs IH]; intros w Hinv Hrun Hb.
  { exists w. right. by exists tt. }
  cbn [for_each].
  destruct (decide (Z.of_nat (length (full_subscribers L c w)) ≤ free_slots w))
    as [Hroom | Hroom].
  - pose proof (range_offer_Done L HL x c w Hinv Hrun Hroom) as Hdone.
    rewrite (bind_Done _ _ w tt _ Hdone).
    pose proof (fanned_out_evolves L HL x c w Hinv Hrun) as Hev.
    apply IH.
    + by eapply evolves_inv.
    + by rewrite (ev_running _ _ Hev).
    + apply (respects_range_subs_all keeps_bounded c (offer L x) (HB x)
               w (fanned_out L x c w)); [| done].
      right. by exists tt.
  - destruct (range_offer_Blocked L HL x c w Hinv Hrun Hb) as [w' Hw'];
      [lia |].
    exists w'. left. unfold mbind, M_bind. by rewrite Hw'.
Qed.

End fanout_total.

(** X5: on a reachable hub that is not shut down, Publish and PublishComment
    never panic, whatever channels they name: each completes or leaves run
    blocked. *)
Theorem Publish_completes_or_blocks
    (w : world) (cs : list string) (ev : Event) (cmt : string) :
  reachable w → dead (srv w) = false →
  (∃ w', ends_in (Publish cs ev w) w')
  ∧ (∃ w', ends_in (PublishComment cs cmt w) w').
Proof.
  intros Hreach Hd. apply reachable_inv in Hreach as Hinv.
  apply reachable_bounded in Hreach as Hb.
  pose proof (inv_running _ Hinv Hd) as Hrun.
  destruct (inv_flags _ Hinv Hrun) as (_ & _ & Hpub & _ & Hcmt & _).
  split.
  - unfold Publish. rewrite deliver_live by done.
    apply (fanout_ends event_lane event_lane_ok offer_event_bounded); done.
  - unfold PublishComment. rewrite deliver_live by done.
    apply (fanout_ends comment_lane comment_lane_ok offer_comment_bounded);
      done.
Qed.

(** ** Events published in sequence *)

Lemma offered_all_srv {A} (L : lane A) x l w :
  NoDup l → (∀ s, s ∈ l → is_full L w s = false) →
  srv (foldl (offered L x) w l) = srv w.
Proof.
  revert w. induction l as [| s l IH]; intros w Hnd Hfree; [done |].
  apply NoDup_cons in Hnd as [Hs Hnd]. cbn [foldl].
  assert (Hf : is_full L w s = false) by (apply Hfree; by left).
  rewrite IH.
  - unfold offered. unfold is_full in Hf.
    destruct (heap w !! s) as [sub |]; [| done]. by rewrite Hf.
  - done.
  - intros s' Hs'. rewrite offered_is_full_ne; [apply Hfree; by right |].
    by intros ->.
Qed.

Lemma filter_none {B} (P : B → Prop) `{∀ x, Decision (P x)} (l : list B) :
  (∀ x, x ∈ l → ¬ P x) → filter P l = [].
Proof.
  induction l as [| x l IH]; intros Hno; [done |].
  rewrite filter_cons, decide_False by (apply Hno; by left).
  apply IH. intros y Hy. apply Hno. by right.
Qed.

Lemma full_subscribers_nil {A} (L : lane A) c w :
  (∀ s, s ∈ subscribers c w → is_full L w s = false) →
  full_subscribers L c w = [].
Proof.
  intros Hfree. apply filter_none. intros s Hs Hfull.
  apply elem_of_elements in Hs. rewrite (Hfree s Hs) in Hfull. done.
Qed.

(** A publish to [c] when every subscriber of [c] has a free slot. *)
Lemma Publish_all_free c ev w :
  inv w → running w = true → bounded w →
  (∀ s, s ∈ subscribers c w → is_full event_lane w s = false) →
  Publish [c] ev w = Done tt (fanned_out event_lane ev c w)
  ∧ srv (fanned_out event_lane ev c w) = srv w.
Proof.
  intros Hinv Hrun Hb Hfree. split.
  - rewrite Publish_one_live by done.
    rewrite (bind_Done _ _ w tt (fanned_out event_lane ev c w)); [done |].
    apply (range_offer_Done _ event_lane_ok); [done | done |].
    rewrite full_subscribers_nil by done. simpl.
    by apply bounded_free_slots.
  - apply offered_all_srv; [apply NoDup_elements |].
    intros s Hs. apply Hfree. by apply elem_of_elements.
Qed.

Lemma with_out_same sub :
  with_out (Go.Chan (Go.buf (out sub)) (Go.cap (out sub))
              (Go.closed (out sub))) sub = sub.
Proof. destruct sub as [c l o co]. by destruct o. Qed.

(** X4: on a reachable hub that is not shut down, when every subscriber of c
    has room in its event queue for all of evs, publishing the events of evs
    to c one after the other completes, and every subscriber of c then holds
    what it held followed by evs in the order they were published; no
    unregister request is made and nothing else changes. *)
Theorem Publish_sequence_is_FIFO (w : world) (c : string) (evs : list Event) :
  reachable w → dead (srv w) = false →
  (∀ s sub, s ∈ subscribers c w → heap w !! s = Some sub →
            Z.of_nat (length (Go.buf (out sub))) + Z.of_nat (length evs)
            ≤ Go.cap (out sub)) →
  ∃ w', exec (DoPublish [c] <$> evs) w = Done tt w'
        ∧ (∀ s sub, s ∈ subscribers c w → heap w !! s = Some sub →
             heap w' !! s
             = Some (with_out (Go.Chan (Go.buf (out sub) ++ evs)
                                 (Go.cap (out sub)) (Go.closed (out sub)))
                       sub))
        ∧ (∀ s, s ∉ subscribers c w → heap w' !! s = heap w !! s)
        ∧ srv w' = srv w ∧ locals w' = locals w.
Proof.
  revert w. induction evs as [| ev evs IH]; intros w Hreach Hd Hroom.
  { exists w. split; [done |]. split; [| done].
    intros s sub _ Hsub. by rewrite app_nil_r, with_out_same. }
  apply reachable_inv in Hreach as Hinv.
  apply reachable_bounded in Hreach as Hb.
  pose proof (inv_running _ Hinv Hd) as Hrun.
  assert (Hfree : ∀ s, s ∈ subscribers c w → is_full event_lane w s = false).
  { intros s Hs. unfold is_full.
    destruct (heap w !! s) as [sub |] eqn:Hsub; [| done].
    specialize (Hroom s sub Hs Hsub). simpl in *. unfold Go.full.
    apply Z.leb_gt. lia. }
  destruct (Publish_all_free c ev w Hinv Hrun Hb Hfree) as [Hpub Hsrv].
  set (w1 := fanned_out event_lane ev c w) in *.
  assert (Hloc : locals w1 = locals w)
    by by apply (fanned_out_locals _ event_lane_ok).
  assert (Hsubs : ∀ s, s ∈ subscribers c w1 ↔ s ∈ subscribers c w)
    by (intros s; unfold subscribers; by rewrite Hloc).
  assert (Hone : ∀ s sub, s ∈ subscribers c w → heap w !! s = Some sub →
            heap w1 !! s = Some (with_out (enqueued ev (out sub)) sub)).
  { intros s sub Hs Hsub.
    pose proof (fanned_out_subscriber event_lane ev c w s sub Hs Hsub) as H1.
    pose proof (Hfree s Hs) as Hf. unfold is_full in Hf. rewrite Hsub in Hf.
    simpl in Hf, H1. by rewrite Hf in H1. }
  destruct (IH w1) as (w' & Hexec & Hin & Hout & Hsrv' & Hloc').
  - by apply (reachable_step w (DoPublish [c] ev)).
  - by rewrite Hsrv.
  - intros s sub1 Hs Hsub1. apply Hsubs in Hs.
    destruct (inv_is_open _ _ _ Hinv Hrun Hs) as (sub & Hsub & _).
    rewrite (Hone s sub Hs Hsub) in Hsub1. injection Hsub1 as <-.
    specialize (Hroom s sub Hs Hsub). simpl in *.
    rewrite length_app. simpl. lia.
  - exists w'. split; [| split; [| split; [| split]]].
    + unfold exec in *. cbn [fmap list_fmap for_each].
      change (step (DoPublish [c] ev)) with (Publish [c] ev).
      by rewrite (bind_Done _ _ w tt w1 Hpub).
    + intros s sub Hs Hsub.
      rewrite (Hin s _ (proj2 (Hsubs s) Hs) (Hone s sub Hs Hsub)).
      simpl. by rewrite <- app_assoc.
    + intros s Hs. rewrite Hout by (by rewrite Hsubs).
      by apply fanned_out_other.
    + congruence.
    + congruence.
Qed.

(** ** What a publish leaves alone *)

#[global] Instance grows_preorder {B C} (rest : subscription → B)
    (items : subscription → list C) : PreOrder (grows rest items).
Proof.
  split.
  - intros w. split; try done. intros s sub sub' H1 H2.
    rewrite H1 in H2. by injection H2 as <-.
  - intros w1 w2 w3 [A1 A2 A3 A4 A5] [B1 B2 B3 B4 B5].
    split; try congruence.
    intros s sub sub' H1 H3.
    destruct (heap w2 !! s) as [sub2 |] eqn:H2.
    + trans (items sub2); [by eapply A5 | by eapply B5].
    + specialize (A4 s). rewrite H1, H2 in A4. done.
Qed.

Lemma grows_store {B C} (rest : subscription → B)
    (items : subscription → list C) w s sub sub' :
  heap w !! s = Some sub → rest sub' = rest sub →
  items sub `prefix_of` items sub' →
  grows rest items w (with_heap (<[s := sub']> (heap w)) w).
Proof.
  intros Hs Hrest Hitems. split; try done.
  - intros s'. simpl. destruct (decide (s = s')) as [<- | Hne].
    + rewrite lookup_insert_eq, Hs. simpl. by rewrite Hrest.
    + by rewrite lookup_insert_ne.
  - intros s' sub1 sub2 H1 H2. simpl in H2.
    destruct (decide (s = s')) as [<- | Hne].
    + rewrite lookup_insert_eq in H2. congruence.
    + rewrite lookup_insert_ne in H2 by done.
      rewrite H1 in H2. by injection H2 as <-.
Qed.

Lemma grows_unregister {B C} (rest : subscription → B)
    (items : subscription → list C) s :
  respects (grows rest items) (unregister_from_run s).
Proof.
  intros w0 w' H. unfold unregister_from_run in H.
  destruct (Go.send _ _) as [c | | p] eqn:Hsend.
  - apply ends_in_Done in H. subst.
    apply send_Sent in Hsend as (Hc & Hc' & _).
    split; try done.
    + unfold flags. simpl. by rewrite Hc, Hc'.
    + intros s' sub sub' H1 H2. simpl in H2. rewrite H1 in H2.
      by injection H2 as <-.
  - apply ends_in_Blocked in H. by subst.
  - by apply ends_in_Panicked in H.
Qed.

Lemma offer_event_grows ev s :
  respects (grows but_events (λ sub, Go.buf (out sub))) (offer_event ev s).
Proof.
  intros w w' H. unfold offer_event, mbind, M_bind, load in H.
  destruct (heap w !! s) as [sub |] eqn:Hs; [| by apply ends_in_Panicked in H].
  destruct (Go.send _ _) as [c | | p] eqn:Hsend.
  - apply ends_in_Done in H. subst.
    apply send_Sent in Hsend as (Hc & Hc' & Hcap & Hbuf & _).
    apply grows_store with sub; [done | |].
    + unfold but_events. simpl. by rewrite Hc, Hc', Hcap.
    + simpl. rewrite Hbuf. by apply prefix_app_r.
  - by apply (grows_unregister _ _ s w w').
  - by apply ends_in_Panicked in H.
Qed.

Lemma offer_comment_grows cmt s :
  respects (grows but_comments (λ sub, Go.buf (cout sub)))
    (offer_comment cmt s).
Proof.
  intros w w' H. unfold offer_comment, mbind, M_bind, load in H.
  destruct (heap w !! s) as [sub |] eqn:Hs; [| by apply ends_in_Panicked in H].
  destruct (Go.send _ _) as [c | | p] eqn:Hsend.
  - apply ends_in_Done in H. subst.
    apply send_Sent in Hsend as (Hc & Hc' & Hcap & Hbuf & _).
    apply grows_store with sub; [done | |].
    + unfold but_comments. simpl. by rewrite Hc, Hc', Hcap.
    + simpl. rewrite Hbuf. by apply prefix_app_r.
  - by apply (grows_unregister _ _ s w w').
  - by apply ends_in_Panicked in H.
Qed.

(** X6: whatever the state, and whether it completes or blocks, a Publish
    changes nothing of a subscription but the contents of its event queue,
    which it only extends: channel, lastEventId, the comment queue and the
    capacity and closed flag of the event queue stay; it changes no
    subscriber set, repository, replay goroutine, dead marker or closed
    flag of the server.  A PublishComment does the same with the comment
    queue, leaving the event queues as they are. *)
Theorem publish_only_extends_its_queue
    (w w' : world) (cs : list string) (ev : Event) (cmt : string) :
  (ends_in (Publish cs ev w) w' →
   grows but_events (λ sub, Go.buf (out sub)) w w')
  ∧ (ends_in (PublishComment cs cmt w) w' →
     grows but_comments (λ sub, Go.buf (cout sub)) w w').
Proof.
  split.
  - intros H. unfold Publish in H.
    apply deliver_ends_in in H as [H | H]; [by rewrite H |].
    revert H. apply respects_for_each; [apply _ |]. intros c _.
    apply respects_range_subs_all; [apply _ |]. apply offer_event_grows.
  - intros H. unfold PublishComment in H.
    apply deliver_ends_in in H as [H | H]; [by rewrite H |].
    revert H. apply respects_for_each; [apply _ |]. intros c _.
    apply respects_range_subs_all; [apply _ |]. apply offer_comment_grows.
Qed.

(** ** Unregistering a listed subscriber *)

Lemma unregister_round_trip v c :
  Go.buf (unregister v) = [] →
  with_unregister
    (Go.Chan [] (Go.cap (unregister v)) (Go.closed (unregister v)))
    (with_unregister c v) = v.
Proof.
  destruct v as [a b n r p sb cm u q k dc d]. simpl. intros Hbuf.
  destruct u as [bf cp cl]. simpl in *. by subst.
Qed.

(** The handler's request reaches run: with no request pending, the send of
    the handler followed by run's receive is the unregister case of run on
    the state the handler started from. *)
Lemma handler_unregister_then_run s w :
  running w = true → Go.closed (unregister (srv w)) = false →
  Go.buf (unregister (srv w)) = [] → 0 < Go.cap (unregister (srv w)) →
  (handler_unregister s;; run_unregister) w = run (Unregister s) w.
Proof.
  intros Hrun Hc Hbuf Hcap.
  assert (Hsend : handler_unregister s w
                  = Done tt (with_srv
                               (with_unregister
                                  (enqueued s (unregister (srv w))) (srv w))
                               w)).
  { unfold handler_unregister, mbind, M_bind, get, Go.send, Go.full, enqueued.
    rewrite Hc, Hbuf. cbn [length app]. change (Z.of_nat 0) with 0.
    by rewrite (proj2 (Z.leb_gt _ _) Hcap). }
  rewrite (bind_Done _ _ w tt _ Hsend).
  unfold run_unregister, mbind, M_bind, get, put, Go.recv, enqueued.
  cbn [running with_srv srv with_unregister unregister Go.buf Go.cap
       Go.closed].
  rewrite Hrun, Hbuf. cbn [app].
  rewrite unregister_round_trip by done. f_equal. by destruct w.
Qed.

(** X7: on a reachable hub that is not shut down and has no unregister
    request pending, when the handler of a listed subscriber sends it on
    srv.unregister and run takes the request, both queues of the
    subscription are closed with their buffered values kept, the subscriber
    is removed from the set of its channel, and every other subscription,
    every other subscriber set, the repositories, the replay goroutines and
    the server value are as before. *)
Theorem Unregister_removes_and_destroys
    (w : world) (c : string) (s : sub_ptr) :
  reachable w → dead (srv w) = false → s ∈ subscribers c w →
  Go.buf (unregister (srv w)) = [] →
  ∃ sub w', heap w !! s = Some sub
            ∧ exec [HandlerUnregister s; RunUnregister] w = Done tt w'
            ∧ heap w' !! s = Some (closed_sub sub)
            ∧ subscribers c w' = subscribers c w ∖ {[s]}
            ∧ (∀ c', c' ≠ c → subscribers c' w' = subscribers c' w)
            ∧ (∀ s', s' ≠ s → heap w' !! s' = heap w !! s')
            ∧ srv w' = srv w
            ∧ run.repos (locals w') = run.repos (locals w)
            ∧ replays w' = replays w.
Proof.
  intros Hreach Hd Hs Hbuf. apply reachable_inv in Hreach as Hinv.
  apply reachable_bounded in Hreach as Hb.
  pose proof (inv_running _ Hinv Hd) as Hrun.
  destruct (inv_flags _ Hinv Hrun) as (_ & _ & _ & _ & _ & Hu & _).
  destruct (inv_is_open _ _ _ Hinv Hrun Hs) as (sub & Hsub & Ho & Hc).
  pose proof (inv_channel _ _ _ _ Hinv Hrun Hs Hsub) as Hch.
  exists sub, (unregistered s sub w).
  split; [done |]. split; [| split; [| split; [| split; [| split]]]].
  - unfold exec. cbn [for_each step].
    assert (Hboth : (handler_unregister s;; run_unregister) w
                    = Done tt (unregistered s sub w)).
    { rewrite handler_unregister_then_run; try done.
      - by rewrite run_Unregister_eq, Hsub, Ho, Hc.
      - rewrite (unregister_cap _ Hb). lia. }
    unfold mbind, M_bind in *.
    destruct (handler_unregister s w) as [[] w1 | w1 | p]; try done.
    by rewrite Hboth.
  - simpl. by rewrite lookup_insert_eq.
  - rewrite subscribers_unregistered, Hch. by rewrite decide_True.
  - intros c' Hne. rewrite subscribers_unregistered, Hch.
    by rewrite decide_False.
  - intros s' Hne. simpl. by rewrite lookup_insert_ne.
  - done.
Qed.

(** ** Dead markers are never reset *)

Lemma step_dead o w w' :
  inv w → step o w = Done tt w' →
  dead (srv w) = true → dead (srv w') = true.
Proof.
  intros Hinv Hstep Hd.
  assert (Hrun : running w = false) by (by rewrite (inv_run _ Hinv), Hd).
  assert (Hev : evolves w w' → dead (srv w') = true).
  { intros Hev. pose proof (ev_flags _ _ Hev) as Hf. unfold flags in Hf.
    congruence. }
  assert (Hdel : ∀ {A} (ch : Server → Go.chan A) m,
             deliver ch m w = Done tt w' → dead (srv w') = true).
  { intros A ch m H. apply deliver_Done in H as [H _]. congruence. }
  destruct o; simpl in Hstep; try (by eapply Hdel).
  - injection Hstep as <-. apply Hev, evolves_options.
  - apply bind_inv_Done in Hstep as (r & w1 & Hh & Hret).
    injection Hret as <-. rewrite Handler_eq, Hd in Hh.
    by injection Hh as _ <-.
  - apply Hev. eapply receive_event_evolves. right. eauto.
  - apply Hev. eapply receive_comment_evolves. right. eauto.
  - apply Hev. eapply handler_unregister_evolves. right. eauto.
  - unfold run_unregister, mbind, M_bind, get in Hstep.
    by rewrite Hrun in Hstep.
  - apply Hev. eapply replay_evolves. right. eauto.
  - by apply HandlerCreate_Done in Hstep as [-> | [_ ->]].
  - apply HandlerSend_Done in Hstep as (sub & _ & _ & _ & _ & Hr & _).
    congruence.
Qed.

(** X9: the dead markers are one-way: along any execution from a reachable
    state whose operations all complete, a hub that is marked dead stays
    marked dead and a channel that is marked dead stays marked dead. *)
Theorem dead_markers_are_permanent (w : world) (ops : list op) (w' : world) :
  reachable w → exec ops w = Done tt w' →
  (dead (srv w) = true → dead (srv w') = true)
  ∧ (∀ c, channel_dead c w = true → channel_dead c w' = true).
Proof.
  intros Hreach Hexec. apply reachable_inv in Hreach as Hinv. split.
  - intros Hd.
    apply (exec_inv_Done _ _ _ Hexec (λ w, inv w ∧ dead (srv w) = true));
      [done |].
    intros o w1 w2 [H1 H2] Hstep. split.
    + by eapply step_inv.
    + by eapply step_dead.
  - intros c Hc. by eapply exec_channel_dead.
Qed.

(** ** What an admission leaves alone *)

(** X10: the subscription the handler creates for a request was not
    allocated before; it carries the channel and the lastEventId of the
    request and two empty open queues of capacity BufferSize, and creating it
    leaves every subscription that existed, the server value, the locals of
    run and the replay goroutines as they were.  When run receives a
    subscription on srv.subs, the case completes: the subscription is added
    to the subscriber set of its channel and to no other, and every
    subscription, the server value and the repositories are as before.  So a
    request that the handler admits without being overtaken is given a new
    subscription, listed under its channel only, with everything else as
    before. *)
Theorem Handler_admission_frame (w : world) :
  (∀ c lid s w',
     Handler_create c lid w = Done (EventStream s) w' →
     heap w !! s = None
     ∧ heap w' !! s
       = Some {| channel := c; lastEventId := lid;
                 out := Go.Chan [] (BufferSize (srv w)) false;
                 cout := Go.Chan [] (BufferSize (srv w)) false |}
     ∧ (∀ s', s' ≠ s → heap w' !! s' = heap w !! s')
     ∧ srv w' = srv w ∧ locals w' = locals w
     ∧ replays w' = replays w ∧ running w' = running w)
  ∧ (∀ s sub,
       heap w !! s = Some sub →
       ∃ w', run (Subs s) w = Done tt w'
             ∧ subscribers (channel sub) w' = {[s]} ∪ subscribers (channel sub) w
             ∧ (∀ c', c' ≠ channel sub → subscribers c' w' = subscribers c' w)
             ∧ heap w' = heap w
             ∧ srv w' = srv w
             ∧ run.repos (locals w') = run.repos (locals w))
  ∧ (∀ c lid s w',
       Handler c lid w = Done (EventStream s) w' →
       heap w !! s = None
       ∧ heap w' !! s
         = Some {| channel := c; lastEventId := lid;
                   out := Go.Chan [] (BufferSize (srv w)) false;
                   cout := Go.Chan [] (BufferSize (srv w)) false |}
       ∧ subscribers c w' = {[s]} ∪ subscribers c w
       ∧ (∀ c', c' ≠ c → subscribers c' w' = subscribers c' w)
       ∧ (∀ s', s' ≠ s → heap w' !! s' = heap w !! s')
       ∧ srv w' = srv w
       ∧ run.repos (locals w') = run.repos (locals w)).
Proof.
  assert (Hrepos : ∀ s sub w0,
    run.repos (locals (admitted s sub w0)) = run.repos (locals w0)).
  { intros s sub w0. unfold admitted, spawn. destruct (_ || _); [| done].
    by destruct (run.repos _ !! _). }
  split; [| split].
  - intros c lid s w' H. rewrite Handler_create_eq in H.
    destruct (dead (srv w)); [discriminate |].
    destruct (channel_dead c w); [discriminate |].
    destruct (out_of_range _); [discriminate |].
    injection H as <- <-.
    split; [apply not_elem_of_dom, is_fresh |].
    split; [unfold allocated; simpl; by rewrite lookup_insert_eq |].
    split; [| done].
    intros s' Hne. unfold allocated. simpl. by rewrite lookup_insert_ne.
  - intros s sub Hs. exists (admitted s sub w).
    split; [by apply run_Subs_eq |].
    split; [| split; [| split; [| split]]].
    + rewrite subscribers_admitted. by rewrite decide_True.
    + intros c' Hne. rewrite subscribers_admitted. by rewrite decide_False.
    + apply heap_admitted.
    + apply srv_admitted.
    + apply Hrepos.
  - intros c lid s w' H. apply Handler_Done in H as (-> & -> & _).
    split; [| split; [| split; [| split; [| split; [| split]]]]].
    + apply not_elem_of_dom. apply is_fresh.
    + rewrite heap_admitted. unfold allocated. simpl.
      by rewrite lookup_insert_eq.
    + rewrite subscribers_admitted. by rewrite decide_True.
    + intros c' Hne. rewrite subscribers_admitted. by rewrite decide_False.
    + intros s' Hne. rewrite heap_admitted. unfold allocated. simpl.
      by rewrite lookup_insert_ne.
    + by rewrite srv_admitted.
    + by rewrite Hrepos.
Qed.

(** ** Registering a repository *)

(** X11: on a reachable hub that is not shut down, Register(c, repo)
    completes and binds c to repo, replacing what was bound; the bindings of
    the other channels, the subscriber sets, the subscriptions, the replay
    goroutines already started and the server value are as before; and when
    run next receives on srv.subs a subscription for c with a non-empty
    lastEventId, it starts a replay of repo's sequence: so does every request
    for c with a non-empty lastEventId that the handler then admits. *)
Theorem Register_replaces (w : world) (c : string) (repo : Repository) :
  reachable w → dead (srv w) = false →
  ∃ w', Register c repo w = Done tt w'
        ∧ run.repos (locals w') !! c = Some repo
        ∧ (∀ c', c' ≠ c →
                 run.repos (locals w') !! c' = run.repos (locals w) !! c')
        ∧ run.subs (locals w') = run.subs (locals w)
        ∧ heap w' = heap w ∧ srv w' = srv w ∧ replays w' = replays w
        ∧ (∀ s sub, heap w' !! s = Some sub → channel sub = c →
                    lastEventId sub ≠ "" →
                    ∃ w'', run (Subs s) w' = Done tt w''
                           ∧ replays w'' = replays w ++
                               [{| target := s;
                                   pending :=
                                     Replay repo c (lastEventId sub) |}])
        ∧ (∀ lid s w'', lid ≠ "" →
                        Handler c lid w' = Done (EventStream s) w'' →
                        replays w'' = replays w ++
                          [{| target := s; pending := Replay repo c lid |}]).
Proof.
  intros Hreach Hd. apply reachable_inv in Hreach as Hinv.
  pose proof (inv_running _ Hinv Hd) as Hrun.
  destruct (inv_flags _ Hinv Hrun) as (_ & Hreg & _).
  set (w' := with_repos (<[c := repo]> (run.repos (locals w))) w).
  assert (Hdone : Register c repo w = Done tt w').
  { unfold Register. by rewrite deliver_live. }
  exists w'. split; [done |].
  split; [| split; [| split; [| split; [| split; [| split; [| split]]]]]];
    try done.
  - simpl. by rewrite lookup_insert_eq.
  - intros c' Hne. simpl. by rewrite lookup_insert_ne.
  - intros s sub Hs <- Hlid. exists (admitted s sub w').
    split; [by apply run_Subs_eq |].
    destruct (replays_admitted s sub w') as (Hyes & _).
    rewrite (Hyes repo); [done | by right |].
    simpl. by rewrite lookup_insert_eq.
  - intros lid s w'' Hlid H. apply Handler_Done in H as (-> & -> & _).
    destruct (replays_admitted (fresh (dom (heap w'))) (new_sub c lid w')
                (allocated c lid w')) as (Hyes & _).
    rewrite (Hyes repo); [done | by right |].
    simpl. by rewrite lookup_insert_eq.
Qed.

(** ** What closing a channel leaves alone *)

(** X12: on a reachable hub that is not shut down, CloseChannel(c) keeps the
    values buffered in the queues it closes, and touches nothing outside c:
    the subscriptions that are not subscribers of c, the subscriber set and
    the dead marker of every other channel, the repositories (the one of c
    included), the replay goroutines and the requests pending on
    srv.unregister are as before, and the hub is not marked dead. *)
Theorem CloseChannel_frame (w : world) (c : string) :
  reachable w → dead (srv w) = false →
  ∃ w', CloseChannel c w = Done tt w'
        ∧ (∀ s sub, s ∈ subscribers c w → heap w !! s = Some sub →
                    heap w' !! s = Some (closed_sub sub))
        ∧ (∀ s, s ∉ subscribers c w → heap w' !! s = heap w !! s)
        ∧ (∀ c', c' ≠ c →
                 subscribers c' w' = subscribers c' w
                 ∧ channel_dead c' w' = channel_dead c' w)
        ∧ run.repos (locals w') = run.repos (locals w)
        ∧ replays w' = replays w
        ∧ unregister (srv w') = unregister (srv w)
        ∧ dead (srv w') = false.
Proof.
  intros Hreach Hd. apply reachable_inv in Hreach as Hinv.
  pose proof (inv_running _ Hinv Hd) as Hrun.
  destruct (inv_flags _ Hinv Hrun) as (_ & _ & _ & _ & _ & _ & _ & Hkill).
  destruct (killed_rest c (elements (subscribers c w)) w)
    as (Hsrv & _ & Hrep & Hrepos).
  exists (closed_channel c w).
  split; [| split; [| split; [| split; [| split; [| split; [| split]]]]]].
  - unfold CloseChannel. rewrite deliver_live by done. by apply run_Kill_eq.
  - intros s sub Hs Hsub.
    change (heap (closed_channel c w))
      with (heap (foldl (killed_one c) w (elements (subscribers c w)))).
    rewrite killed_heap_in by by apply elem_of_elements.
    by rewrite Hsub.
  - intros s Hs.
    change (heap (closed_channel c w))
      with (heap (foldl (killed_one c) w (elements (subscribers c w)))).
    apply killed_heap_notin. by rewrite elem_of_elements.
  - intros c' Hne. split.
    + rewrite subscribers_closed_channel. by rewrite decide_False.
    + rewrite channel_dead_closed_channel. by rewrite decide_False.
  - done.
  - done.
  - unfold closed_channel, marked_dead. simpl. by rewrite Hsrv.
  - unfold closed_channel, marked_dead. simpl. by rewrite Hsrv.
Qed.

(** ** The replay goroutine *)

Lemma replay_sends i w t ev rest sub :
  replays w !! i = Some t → pending t = ev :: rest →
  heap w !! target t = Some sub →
  Go.closed (out sub) = false → Go.full (out sub) = false →
  replay i w
  = Done tt
      (with_replays
         (<[i := {| target := target t; pending := rest |}]> (replays w))
         (with_heap
            (<[target t := with_out (enqueued ev (out sub)) sub]> (heap w))
            w)).
Proof.
  intros Ht Hp Hs Hc Hf. unfold replay, mbind, M_bind, get, load.
  rewrite Ht, Hp, Hs. unfold Go.send, enqueued. by rewrite Hc, Hf.
Qed.

(** X13: a replay goroutine whose target has an open event queue with room
    for everything it still has to forward runs to its end without waiting:
    the pending events are appended to the queue in the order of the
    repository's sequence, nothing is left pending, and no other
    subscription, no subscriber set and nothing of the server changes.  On a
    full queue of capacity at least 1 a replay send waits and changes
    nothing; it never asks for an unregister. *)
Theorem replay_forwards_in_order
    (evs : list Event) (w : world) (i : nat) (s : sub_ptr)
    (sub : subscription) :
  replays w !! i = Some {| target := s; pending := evs |} →
  heap w !! s = Some sub → Go.closed (out sub) = false →
  (Z.of_nat (length (Go.buf (out sub))) + Z.of_nat (length evs)
   ≤ Go.cap (out sub) →
   ∃ w', exec (replicate (length evs) (ReplayNext i)) w = Done tt w'
         ∧ heap w' !! s
           = Some (with_out (Go.Chan (Go.buf (out sub) ++ evs)
                               (Go.cap (out sub)) false) sub)
         ∧ replays w'
           = <[i := {| target := s; pending := [] |}]> (replays w)
         ∧ (∀ s', s' ≠ s → heap w' !! s' = heap w !! s')
         ∧ srv w' = srv w ∧ locals w' = locals w)
  ∧ (0 < Go.cap (out sub) → Go.full (out sub) = true → evs ≠ [] →
     replay i w = Blocked w).
Proof.
  intros Ht Hs Hc. split.
  - revert w sub Ht Hs Hc. induction evs as [| ev evs IH];
      intros w sub Ht Hs Hc Hroom.
    { exists w. split; [done |]. split; [| split; [| done]].
      - rewrite Hs, app_nil_r. f_equal.
        destruct sub as [c0 l0 o co]. destruct o as [bf cp cl].
        simpl in *. by subst.
      - by rewrite list_insert_id. }
    assert (Hf : Go.full (out sub) = false).
    { unfold Go.full. apply Z.leb_gt. simpl in Hroom. lia. }
    pose proof (replay_sends i w _ ev evs sub Ht eq_refl Hs Hc Hf) as Hstep.
    cbn [target] in Hstep.
    set (sub1 := with_out (enqueued ev (out sub)) sub) in *.
    set (w1 := with_replays _ _) in Hstep.
    assert (Hi : (i < length (replays w))%nat) by by eapply lookup_lt_Some.
    destruct (IH w1 sub1) as (w' & Hexec & Hheap & Hrep & Hother & Hsrv & Hloc).
    + unfold w1. simpl. by apply list_lookup_insert_eq.
    + unfold w1. simpl. by rewrite lookup_insert_eq.
    + done.
    + unfold sub1. simpl. rewrite length_app. simpl in *. lia.
    + exists w'. split; [| split; [| split; [| split]]].
      * unfold exec in *. cbn [length replicate for_each].
        change (step (ReplayNext i)) with (replay i).
        by rewrite (bind_Done _ _ w tt w1 Hstep).
      * rewrite Hheap. unfold sub1. simpl. by rewrite <- app_assoc.
      * rewrite Hrep. unfold w1. simpl. by rewrite list_insert_insert_eq.
      * intros s' Hne. rewrite Hother by done. unfold w1. simpl.
        by rewrite lookup_insert_ne.
      * by rewrite Hsrv, Hloc.
  - intros _ Hf Hne. destruct evs as [| ev evs]; [done |].
    unfold replay, mbind, M_bind, get, load. rewrite Ht. simpl.
    rewrite Hs. unfold Go.send. by rewrite Hc, Hf.
Qed.

(** ** The further properties at concrete hubs *)

Lemma one_full_reachable : reachable one_full.
Proof. apply (exec_new_reachable one_full_ops). by vm_compute. Qed.

Lemma three_full_reachable : reachable three_full.
Proof. apply (exec_new_reachable three_full_ops). by vm_compute. Qed.

Lemma two_channels_reachable : reachable two_channels.
Proof.
  apply (exec_new_reachable [DoRequest "a" ""; DoRequest "b" ""]).
  by vm_compute.
Qed.

Lemma one_full_subscriber s sub :
  s ∈ subscribers "t" one_full → heap one_full !! s = Some sub →
  Go.cap (out sub) = 1 ∧ Go.cap (cout sub) = 1.
Proof.
  intros Hs Hsub.
  replace (subscribers "t" one_full) with ({[0%nat]} : gset sub_ptr) in Hs
    by by vm_compute.
  apply elem_of_singleton in Hs. subst s.
  vm_compute in Hsub. by injection Hsub as <-.
Qed.

Lemma three_full_subscriber s sub :
  heap three_full !! s = Some sub → Go.cap (out sub) = 1.
Proof.
  intros Hsub.
  assert (Hdom : s ∈ dom (heap three_full)) by (apply elem_of_dom; eauto).
  replace (dom (heap three_full))
    with ({[0%nat; 1%nat; 2%nat]} : gset sub_ptr) in Hdom by by vm_compute.
  apply elem_of_union in Hdom as [Hdom | Hdom];
    [apply elem_of_union in Hdom as [Hdom | Hdom] |];
    apply elem_of_singleton in Hdom; subst s;
    vm_compute in Hsub; by injection Hsub as <-.
Qed.

Lemma Publish_delivers_witness :
  reachable one_full ∧ dead (srv one_full) = false
  ∧ buffered event_lane "t" one_full
  ∧ Z.of_nat (length (full_subscribers event_lane "t" one_full))
    ≤ free_slots one_full
  ∧ ∃ w', Publish ["t"] (tick "B") one_full = Done tt w'
          ∧ (∀ s sub, s ∈ subscribers "t" one_full →
               heap one_full !! s = Some sub →
               heap w' !! s
               = Some (if Go.full (out sub) then sub
                       else with_out (enqueued (tick "B") (out sub)) sub))
          ∧ (∀ s, s ∉ subscribers "t" one_full →
                  heap w' !! s = heap one_full !! s)
          ∧ (∃ fulls,
               Go.buf (unregister (srv w'))
               = Go.buf (unregister (srv one_full)) ++ fulls
               ∧ NoDup fulls
               ∧ ∀ s, s ∈ fulls
                      ↔ s ∈ subscribers "t" one_full
                        ∧ is_full event_lane one_full s = true)
          ∧ locals w' = locals one_full ∧ replays w' = replays one_full.
Proof.
  assert (Hbuf : buffered event_lane "t" one_full).
  { intros s sub Hs Hsub.
    destruct (one_full_subscriber s sub Hs Hsub) as [Hcap _].
    simpl. lia. }
  split; [apply one_full_reachable |]. split; [by vm_compute |].
  split; [exact Hbuf |]. split; [by vm_compute |].
  apply (Publish_delivers one_full "t" (tick "B")).
  - apply one_full_reachable.
  - by vm_compute.
  - exact Hbuf.
  - by vm_compute.
Defined.

Lemma Publish_blocks_when_unregister_is_short_witness :
  reachable three_full ∧ dead (srv three_full) = false
  ∧ buffered event_lane "t" three_full
  ∧ free_slots three_full
    < Z.of_nat (length (full_subscribers event_lane "t" three_full))
  ∧ ∃ w', Publish ["t"; "u"] (tick "B") three_full = Blocked w'.
Proof.
  assert (Hlt : free_slots three_full
                < Z.of_nat (length (full_subscribers event_lane "t"
                                      three_full))) by by vm_compute.
  assert (Hd : dead (srv three_full) = false) by by vm_compute.
  assert (Hbuf : buffered event_lane "t" three_full).
  { intros s sub _ Hsub. simpl. rewrite (three_full_subscriber s sub Hsub).
    lia. }
  split; [apply three_full_reachable |]. split; [exact Hd |].
  split; [exact Hbuf |]. split; [exact Hlt |].
  exact (proj1 (Publish_blocks_when_unregister_is_short three_full "t" ["u"]
                  three_full_reachable Hd) Hbuf Hlt (tick "B")).
Defined.

Lemma PublishComment_delivers_witness :
  reachable one_full ∧ dead (srv one_full) = false
  ∧ buffered comment_lane "t" one_full
  ∧ Z.of_nat (length (full_subscribers comment_lane "t" one_full))
    ≤ free_slots one_full
  ∧ ∃ w', PublishComment ["t"] "keep-alive" one_full = Done tt w'
          ∧ (∀ s sub, s ∈ subscribers "t" one_full →
               heap one_full !! s = Some sub →
               heap w' !! s
               = Some (if Go.full (cout sub) then sub
                       else with_cout (enqueued "keep-alive" (cout sub)) sub))
          ∧ (∀ s, s ∉ subscribers "t" one_full →
                  heap w' !! s = heap one_full !! s)
          ∧ (∃ fulls,
               Go.buf (unregister (srv w'))
               = Go.buf (unregister (srv one_full)) ++ fulls
               ∧ NoDup fulls
               ∧ ∀ s, s ∈ fulls
                      ↔ s ∈ subscribers "t" one_full
                        ∧ is_full comment_lane one_full s = true)
          ∧ locals w' = locals one_full ∧ replays w' = replays one_full.
Proof.
  assert (Hbuf : buffered comment_lane "t" one_full).
  { intros s sub Hs Hsub.
    destruct (one_full_subscriber s sub Hs Hsub) as [_ Hcap].
    simpl. lia. }
  split; [apply one_full_reachable |]. split; [by vm_compute |].
  split; [exact Hbuf |]. split; [by vm_compute |].
  apply (PublishComment_delivers one_full "t" "keep-alive").
  - apply one_full_reachable.
  - by vm_compute.
  - exact Hbuf.
  - by vm_compute.
Defined.

Lemma Publish_sequence_is_FIFO_witness :
  reachable one_sub ∧ dead (srv one_sub) = false
  ∧ ∃ w', exec (DoPublish ["t"] <$> [tick "1"; tick "2"; tick "3"]) one_sub
          = Done tt w'
          ∧ (∀ s sub, s ∈ subscribers "t" one_sub →
               heap one_sub !! s = Some sub →
               heap w' !! s
               = Some (with_out
                         (Go.Chan
                            (Go.buf (out sub)
                             ++ [tick "1"; tick "2"; tick "3"])
                            (Go.cap (out sub)) (Go.closed (out sub)))
                         sub))
          ∧ (∀ s, s ∉ subscribers "t" one_sub →
                  heap w' !! s = heap one_sub !! s)
          ∧ srv w' = srv one_sub ∧ locals w' = locals one_sub.
Proof.
  assert (Hd : dead (srv one_sub) = false) by by vm_compute.
  split; [apply one_sub_reachable |]. split; [exact Hd |].
  apply (Publish_sequence_is_FIFO one_sub "t"
           [tick "1"; tick "2"; tick "3"] one_sub_reachable Hd).
  intros s sub Hs Hsub.
  assert (Hset : subscribers "t" one_sub = {[0%nat]}) by by vm_compute.
  rewrite Hset in Hs. apply elem_of_singleton in Hs. subst s.
  assert (Some sub = Some (new_sub "t" "" NewServer)) as [= ->].
  { rewrite <- Hsub. by vm_compute. }
  by vm_compute.
Defined.

Lemma Publish_completes_or_blocks_witness :
  reachable three_full ∧ dead (srv three_full) = false
  ∧ (∃ w', ends_in (Publish ["t"; "u"] (tick "B") three_full) w')
  ∧ (∃ w', ends_in (PublishComment ["t"; "u"] "keep-alive" three_full) w').
Proof.
  assert (Hd : dead (srv three_full) = false) by by vm_compute.
  split; [apply three_full_reachable |]. split; [exact Hd |].
  exact (Publish_completes_or_blocks three_full ["t"; "u"] (tick "B")
           "keep-alive" three_full_reachable Hd).
Defined.

Lemma publish_only_extends_its_queue_witness :
  ends_in (Publish ["a"] (tick "1") two_channels) published_to_a
  ∧ grows but_events (λ sub, Go.buf (out sub)) two_channels published_to_a.
Proof.
  assert (H : ends_in (Publish ["a"] (tick "1") two_channels) published_to_a).
  { right. exists tt. by vm_compute. }
  split; [exact H |].
  exact (proj1 (publish_only_extends_its_queue two_channels published_to_a
                  ["a"] (tick "1") "") H).
Defined.

Lemma Unregister_removes_and_destroys_witness :
  reachable one_sub ∧ dead (srv one_sub) = false
  ∧ 0%nat ∈ subscribers "t" one_sub
  ∧ Go.buf (unregister (srv one_sub)) = []
  ∧ ∃ sub w', heap one_sub !! 0%nat = Some sub
              ∧ exec [HandlerUnregister 0%nat; RunUnregister] one_sub
                = Done tt w'
              ∧ heap w' !! 0%nat = Some (closed_sub sub)
              ∧ subscribers "t" w' = subscribers "t" one_sub ∖ {[0%nat]}
              ∧ (∀ c', c' ≠ "t" →
                       subscribers c' w' = subscribers c' one_sub)
              ∧ (∀ s', s' ≠ 0%nat → heap w' !! s' = heap one_sub !! s')
              ∧ srv w' = srv one_sub
              ∧ run.repos (locals w') = run.repos (locals one_sub)
              ∧ replays w' = replays one_sub.
Proof.
  assert (Hd : dead (srv one_sub) = false) by by vm_compute.
  assert (Hs : 0%nat ∈ subscribers "t" one_sub).
  { apply (bool_decide_unpack _). by vm_compute. }
  assert (Hbuf : Go.buf (unregister (srv one_sub)) = []) by by vm_compute.
  split; [apply one_sub_reachable |]. split; [exact Hd |].
  split; [exact Hs |]. split; [exact Hbuf |].
  exact (Unregister_removes_and_destroys one_sub "t" 0%nat
           one_sub_reachable Hd Hs Hbuf).
Defined.

Lemma Close_destroys_all_witness :
  reachable one_sub ∧ dead (srv one_sub) = false
  ∧ ∃ w', Close one_sub = Done tt w'
          ∧ dead (srv w') = true ∧ running w' = false
          ∧ (∀ c s, s ∈ subscribers c one_sub → destroyed s w')
          ∧ ∀ cs ev, Publish cs ev w' = Panicked Go.SendOnClosedChannel.
Proof.
  assert (Hd : dead (srv one_sub) = false) by by vm_compute.
  split; [apply one_sub_reachable |]. split; [exact Hd |].
  exact (Close_destroys_all one_sub one_sub_reachable Hd).
Defined.

Lemma dead_markers_are_permanent_witness :
  reachable closed_t
  ∧ exec [DoRequest "u" ""; DoClose] closed_t
    = Done tt (match exec [DoRequest "u" ""; DoClose] closed_t with
               | Done _ w => w
               | _ => NewServer
               end)
  ∧ channel_dead "t" closed_t = true
  ∧ channel_dead "t" (match exec [DoRequest "u" ""; DoClose] closed_t with
                      | Done _ w => w
                      | _ => NewServer
                      end) = true.
Proof.
  assert (He : exec [DoRequest "u" ""; DoClose] closed_t
               = Done tt (match exec [DoRequest "u" ""; DoClose] closed_t with
                          | Done _ w => w
                          | _ => NewServer
                          end)) by by vm_compute.
  assert (Hc : channel_dead "t" closed_t = true) by by vm_compute.
  split; [apply closed_t_reachable |]. split; [exact He |].
  split; [exact Hc |].
  exact (proj2 (dead_markers_are_permanent closed_t _ _
                  closed_t_reachable He) "t" Hc).
Defined.

Lemma Handler_admission_frame_witness :
  ∃ s w', Handler "t" "7" one_sub = Done (EventStream s) w'
          ∧ heap one_sub !! s = None
          ∧ heap w' !! s
            = Some {| channel := "t"; lastEventId := "7";
                      out := Go.Chan [] (BufferSize (srv one_sub)) false;
                      cout := Go.Chan [] (BufferSize (srv one_sub)) false |}
          ∧ subscribers "t" w' = {[s]} ∪ subscribers "t" one_sub
          ∧ (∀ c', c' ≠ "t" → subscribers c' w' = subscribers c' one_sub)
          ∧ (∀ s', s' ≠ s → heap w' !! s' = heap one_sub !! s')
          ∧ srv w' = srv one_sub
          ∧ run.repos (locals w') = run.repos (locals one_sub).
Proof.
  exists 1%nat. eexists. split; [by vm_compute |].
  exact (proj2 (proj2 (Handler_admission_frame one_sub)) "t" "7" 1%nat _
           eq_refl).
Defined.

Lemma Register_replaces_witness :
  reachable with_news ∧ dead (srv with_news) = false
  ∧ ∃ w', Register "news" {| Replay := λ _ _, [tick "9"] |} with_news
          = Done tt w'
          ∧ run.repos (locals w') !! "news"
            = Some {| Replay := λ _ _, [tick "9"] |}
          ∧ (∀ c', c' ≠ "news" →
                   run.repos (locals w') !! c'
                   = run.repos (locals with_news) !! c')
          ∧ run.subs (locals w') = run.subs (locals with_news)
          ∧ heap w' = heap with_news ∧ srv w' = srv with_news
          ∧ replays w' = replays with_news
          ∧ (∀ s sub, heap w' !! s = Some sub → channel sub = "news" →
                      lastEventId sub ≠ "" →
                      ∃ w'', run (Subs s) w' = Done tt w''
                             ∧ replays w'' = replays with_news ++
                                 [{| target := s;
                                     pending :=
                                       Replay {| Replay := λ _ _, [tick "9"] |}
                                         "news" (lastEventId sub) |}])
          ∧ (∀ lid s w'', lid ≠ "" →
                          Handler "news" lid w' = Done (EventStream s) w'' →
                          replays w'' = replays with_news ++
                            [{| target := s;
                                pending :=
                                  Replay {| Replay := λ _ _, [tick "9"] |}
                                    "news" lid |}]).
Proof.
  assert (Hd : dead (srv with_news) = false) by by vm_compute.
  split; [apply with_news_reachable |]. split; [exact Hd |].
  exact (Register_replaces with_news "news" {| Replay := λ _ _, [tick "9"] |}
           with_news_reachable Hd).
Defined.

Lemma CloseChannel_frame_witness :
  reachable two_channels ∧ dead (srv two_channels) = false
  ∧ ∃ w', CloseChannel "a" two_channels = Done tt w'
          ∧ (∀ s sub, s ∈ subscribers "a" two_channels →
                      heap two_channels !! s = Some sub →
                      heap w' !! s = Some (closed_sub sub))
          ∧ (∀ s, s ∉ subscribers "a" two_channels →
                  heap w' !! s = heap two_channels !! s)
          ∧ (∀ c', c' ≠ "a" →
                   subscribers c' w' = subscribers c' two_channels
                   ∧ channel_dead c' w' = channel_dead c' two_channels)
          ∧ run.repos (locals w') = run.repos (locals two_channels)
          ∧ replays w' = replays two_channels
          ∧ unregister (srv w') = unregister (srv two_channels)
          ∧ dead (srv w') = false.
Proof.
  assert (Hd : dead (srv two_channels) = false) by by vm_compute.
  split; [apply two_channels_reachable |]. split; [exact Hd |].
  exact (CloseChannel_frame two_channels "a" two_channels_reachable Hd).
Defined.

Lemma replay_forwards_in_order_witness :
  (replays replaying !! 0%nat
   = Some {| target := 0%nat; pending := [tick "6"; tick "7"] |}
   ∧ heap replaying !! 0%nat = Some (new_sub "news" "5" NewServer)
   ∧ ∃ w', exec [ReplayNext 0%nat; ReplayNext 0%nat] replaying = Done tt w'
           ∧ heap w' !! 0%nat
             = Some (with_out (Go.Chan [tick "6"; tick "7"] 128 false)
                       (new_sub "news" "5" NewServer))
           ∧ replays w'
             = <[0%nat := {| target := 0%nat; pending := [] |}]>
                 (replays replaying)
           ∧ (∀ s', s' ≠ 0%nat → heap w' !! s' = heap replaying !! s')
           ∧ srv w' = srv replaying ∧ locals w' = locals replaying)
  ∧ (replays replay_waiting !! 0%nat
     = Some {| target := 0%nat; pending := [tick "7"] |}
     ∧ heap replay_waiting !! 0%nat
       = Some {| channel := "news"; lastEventId := "5";
                 out := Go.Chan [tick "6"] 1 false;
                 cout := Go.Chan [] 1 false |}
     ∧ replay 0%nat replay_waiting = Blocked replay_waiting).
Proof.
  assert (Ht : replays replaying !! 0%nat
               = Some {| target := 0%nat; pending := [tick "6"; tick "7"] |})
    by by vm_compute.
  assert (Hs : heap replaying !! 0%nat = Some (new_sub "news" "5" NewServer))
    by by vm_compute.
  assert (Ht' : replays replay_waiting !! 0%nat
                = Some {| target := 0%nat; pending := [tick "7"] |})
    by by vm_compute.
  assert (Hs' : heap replay_waiting !! 0%nat
                = Some {| channel := "news"; lastEventId := "5";
                          out := Go.Chan [tick "6"] 1 false;
                          cout := Go.Chan [] 1 false |})
    by by vm_compute.
  split.
  - split; [exact Ht |]. split; [exact Hs |].
    apply (proj1 (replay_forwards_in_order [tick "6"; tick "7"] replaying
                    0%nat 0%nat (new_sub "news" "5" NewServer) Ht Hs eq_refl)).
    by vm_compute.
  - split; [exact Ht' |]. split; [exact Hs' |].
    apply (proj2 (replay_forwards_in_order [tick "7"] replay_waiting
                    0%nat 0%nat _ Ht' Hs' eq_refl)).
    + simpl. lia.
    + by vm_compute.
    + done.
Defined.

Lemma queues_within_capacity_witness :
  reachable three_full
  ∧ (∀ s sub, heap three_full !! s = Some sub →
              Z.of_nat (length (Go.buf (out sub))) ≤ Go.cap (out sub)
              ∧ Z.of_nat (length (Go.buf (cout sub))) ≤ Go.cap (cout sub))
  ∧ (length (Go.buf (unregister (srv three_full))) ≤ 2)%nat.
Proof.
  split; [apply three_full_reachable |].
  exact (queues_within_capacity three_full three_full_reachable).
Defined.


(** ** Further properties of the hub's bookkeeping *)

(** X15: on a reachable hub that is not shut down, every listed subscriber is
    an allocated subscription of the channel it is listed under, with both
    queues open, and it is listed under no other channel.  (Its channel may
    be marked dead: run admits without reading the marker.) *)
Theorem listed_subscribers_are_live (w : world) (c : string) (s : sub_ptr) :
  reachable w → dead (srv w) = false → s ∈ subscribers c w →
  (∃ sub, heap w !! s = Some sub ∧ channel sub = c
          ∧ Go.closed (out sub) = false ∧ Go.closed (cout sub) = false)
  ∧ (∀ c', s ∈ subscribers c' w → c' = c).
Proof.
  intros Hreach Hd Hs. apply reachable_inv in Hreach as Hinv.
  pose proof (inv_running _ Hinv Hd) as Hrun.
  destruct (inv_is_open _ _ _ Hinv Hrun Hs) as (sub & Hsub & Ho & Hc).
  split.
  - exists sub. split; [done |]. split; [| done]. by eapply inv_channel.
  - intros c' Hs'.
    rewrite <- (inv_channel _ _ _ _ Hinv Hrun Hs Hsub).
    by rewrite <- (inv_channel _ _ _ _ Hinv Hrun Hs' Hsub).
Qed.

Lemma fanout_without_subscribers (body : string → sub_ptr → M unit) cs w :
  (∀ c, c ∈ cs → subscribers c w = ∅) →
  for_each cs (λ c, range_subs c (body c)) w = Done tt w.
Proof.
  induction cs as [| c cs IH]; intros Hnone; [done |].
  cbn [for_each]. rewrite (bind_Done _ _ w tt w).
  - apply IH. intros c' Hc'. apply Hnone. by right.
  - apply range_subs_empty. apply Hnone. by left.
Qed.

(** X16: on a reachable hub that is not shut down, a Publish or a
    PublishComment that names no channel, or only channels that have no
    subscriber (never subscribed to, emptied or closed), completes and
    leaves the whole state as it is. *)
Theorem Publish_without_subscribers
    (w : world) (cs : list string) (ev : Event) (cmt : string) :
  reachable w → dead (srv w) = false →
  (∀ c, c ∈ cs → subscribers c w = ∅) →
  Publish cs ev w = Done tt w ∧ PublishComment cs cmt w = Done tt w.
Proof.
  intros Hreach Hd Hnone. apply reachable_inv in Hreach as Hinv.
  pose proof (inv_running _ Hinv Hd) as Hrun.
  destruct (inv_flags _ Hinv Hrun) as (_ & _ & Hpub & _ & Hcmt & _).
  unfold Publish, PublishComment. rewrite !deliver_live by done. simpl.
  split.
  - by apply (fanout_without_subscribers (λ _, offer_event ev)).
  - by apply (fanout_without_subscribers (λ _, offer_comment cmt)).
Qed.

(** X17: naming the channels cs1 ++ cs2 in one Publish does what a Publish
    to cs1 followed by a Publish to cs2 does, in every state and whatever
    the outcome; so a channel named twice is delivered to twice. *)
Theorem Publish_app (w : world) (cs1 cs2 : list string) (ev : Event) :
  Publish (cs1 ++ cs2) ev w = (Publish cs1 ev;; Publish cs2 ev) w.
Proof.
  unfold mbind, M_bind. unfold Publish at 1 2. rewrite !deliver_eq.
  destruct (Go.closed (pub (srv w))) eqn:Hc; [done |].
  destruct (running w) eqn:Hrun; [| done].
  simpl. rewrite for_each_app. unfold mbind at 1, M_bind at 1.
  destruct (for_each cs1 _ w) as [[] w1 | w1 | p] eqn:H1; try done.
  assert (Hev : evolves w w1).
  { apply (run_Pub_evolves {| channels := cs1; event := ev |} w w1).
    right. exists tt. exact H1. }
  pose proof (ev_flags _ _ Hev) as Hf.
  pose proof (ev_running _ _ Hev) as Hr.
  unfold Publish. rewrite deliver_live.
  - done.
  - unfold flags in Hf. congruence.
  - congruence.
Qed.

(** X18: CloseChannel is idempotent: on a reachable hub that is not shut
    down, closing a channel a second time completes and leaves the state
    that the first CloseChannel produced. *)
Theorem CloseChannel_idempotent (w : world) (c : string) :
  reachable w → dead (srv w) = false →
  ∃ w', CloseChannel c w = Done tt w' ∧ CloseChannel c w' = Done tt w'.
Proof.
  intros Hreach Hd. apply reachable_inv in Hreach as Hinv.
  pose proof (inv_running _ Hinv Hd) as Hrun.
  destruct (inv_flags _ Hinv Hrun) as (_ & _ & _ & _ & _ & _ & _ & Hkill).
  assert (Hfirst : CloseChannel c w = Done tt (closed_channel c w)).
  { unfold CloseChannel. rewrite deliver_live by done. by apply run_Kill_eq. }
  exists (closed_channel c w). split; [done |].
  assert (Hinv' : inv (closed_channel c w)) by by apply inv_closed_channel.
  assert (Hsrv : srv (closed_channel c w)
                 = with_deadChannels (<[c := true]> (deadChannels (srv w)))
                     (srv w)).
  { unfold closed_channel, marked_dead. simpl.
    by destruct (killed_rest c (elements (subscribers c w)) w) as (-> & _). }
  assert (Hrun' : running (closed_channel c w) = true).
  { apply inv_running; [done |]. by rewrite Hsrv. }
  unfold CloseChannel. rewrite deliver_live; [| by rewrite Hsrv | done].
  rewrite run_Kill_eq by done. f_equal.
  unfold closed_channel at 1.
  assert (Hempty : subscribers c (closed_channel c w) = ∅).
  { rewrite subscribers_closed_channel. by rewrite decide_True. }
  rewrite Hempty, elements_empty. cbn [foldl].
  trans (with_srv (srv (closed_channel c w)) (closed_channel c w));
    [| by destruct (closed_channel c w)].
  unfold marked_dead. rewrite Hsrv. simpl. by rewrite insert_insert_eq.
Qed.

Lemma listed_subscribers_are_live_witness :
  reachable one_sub ∧ dead (srv one_sub) = false
  ∧ 0%nat ∈ subscribers "t" one_sub
  ∧ (∃ sub, heap one_sub !! 0%nat = Some sub ∧ channel sub = "t"
            ∧ Go.closed (out sub) = false ∧ Go.closed (cout sub) = false)
  ∧ (∀ c', 0%nat ∈ subscribers c' one_sub → c' = "t").
Proof.
  assert (Hd : dead (srv one_sub) = false) by by vm_compute.
  assert (Hs : 0%nat ∈ subscribers "t" one_sub).
  { apply (bool_decide_unpack _). by vm_compute. }
  split; [apply one_sub_reachable |]. split; [exact Hd |].
  split; [exact Hs |].
  exact (listed_subscribers_are_live one_sub "t" 0%nat
           one_sub_reachable Hd Hs).
Defined.

Lemma Publish_without_subscribers_witness :
  reachable one_sub ∧ dead (srv one_sub) = false
  ∧ subscribers "u" one_sub = ∅
  ∧ Publish ["u"] (tick "1") one_sub = Done tt one_sub
  ∧ PublishComment ["u"] "keep-alive" one_sub = Done tt one_sub.
Proof.
  assert (Hd : dead (srv one_sub) = false) by by vm_compute.
  assert (Hu : subscribers "u" one_sub = ∅) by by vm_compute.
  split; [apply one_sub_reachable |]. split; [exact Hd |].
  split; [exact Hu |].
  apply (Publish_without_subscribers one_sub ["u"] (tick "1") "keep-alive"
           one_sub_reachable Hd).
  intros c Hc. apply list_elem_of_singleton in Hc. by subst c.
Defined.

Lemma CloseChannel_idempotent_witness :
  reachable one_sub ∧ dead (srv one_sub) = false
  ∧ ∃ w', CloseChannel "t" one_sub = Done tt w'
          ∧ CloseChannel "t" w' = Done tt w'.
Proof.
  assert (Hd : dead (srv one_sub) = false) by by vm_compute.
  split; [apply one_sub_reachable |]. split; [exact Hd |].
  exact (CloseChannel_idempotent one_sub "t" one_sub_reachable Hd).
Defined.
